(** * Buffer-layout planner of brainstorm: [brainstorm/structure/layout.py]

    A shallow embedding of the layout planner (hubs, the contiguity
    solver, the forward closure and the layout assembler) together with
    the properties its specification states about it.

    Conventions of the embedding.
    - A Python exception is a value of [exn]; a function that may raise
      returns a [result].  The language is Python 3.
    - The entries of the numpy connection table are the floats 0.0 and
      1.0; they are modelled as integers of [Z], on which the arithmetic of
      the predicate (differences, absolute values, sums up to the number of
      rows) is exact.
    - A Python [set] is modelled as the list of its elements in iteration
      order; the iteration order of a set is not fixed by the language, so
      the places where the program iterates over a set take the order from
      an explicit enumeration function.
    - A Python [int] is an integer of [Z].  The offsets of a hub are
      computed by numpy in a type of fixed width; the embedding follows
      numpy's choice of that type and its arithmetic. *)

From Stdlib Require Import String Ascii.
From Stdlib Require Import List ZArith Lia Bool Arith.
From Stdlib Require Import Permutation Sorting.Sorted.
From Stdlib Require SpecFloat.
Import ListNotations.

Set Implicit Arguments.

(** ** Exceptions and results *)

Inductive assert_site : Type :=
| AssertUniformBufferType      (* assert min(btypes) == max(btypes) *)
| AssertForcedOrdersOverlap.   (* assert not intersect *)

Inductive exn : Type :=
| NetworkValidationError       (* "Failed to lay out buffers. Please change connectivity." *)
| AssertionError (site : assert_site)
| KeyError
| ValueError
| IndexError
| TypeError
| AttributeError.

(** The outcome of a call: a value, an exception, or [Unfinished] when a
    [while] loop of the embedding has used up its iteration bound (the
    bounds are shown to be large enough below). *)
Inductive result (A : Type) : Type :=
| Ok (a : A)
| Raise (e : exn)
| Unfinished.

Arguments Ok {A} a.
Arguments Raise {A} e.
Arguments Unfinished {A}.

Definition bind {A B : Type} (c : result A) (k : A -> result B) : result B :=
  match c with
  | Ok a => k a
  | Raise e => Raise e
  | Unfinished => Unfinished
  end.

Notation "x <- c ;; k" := (bind c (fun x => k))
  (at level 61, c at next level, right associativity).
Notation "' p <- c ;; k" := (bind c (fun x => let p := x in k))
  (at level 61, p pattern, c at next level, right associativity).

Definition of_option {A : Type} (e : exn) (o : option A) : result A :=
  match o with
  | Some a => Ok a
  | None => Raise e
  end.

(** [for x in l: body] where the body may raise and updates a state. *)
Fixpoint for_each {A S : Type} (body : S -> A -> result S) (l : list A) (s : S)
  : result S :=
  match l with
  | [] => Ok s
  | x :: l' => s' <- body s x ;; for_each body l' s'
  end.

(** ** Nested containers (brainstorm.utils) *)

(** An element of a source list is either one endpoint path or a
    forced-order tuple of endpoint paths. *)
Inductive nested (A : Type) : Type :=
| Leaf (a : A)
| Tuple (l : list A).

Arguments Leaf {A} a.
Arguments Tuple {A} l.

Definition node : Type := nested string.

Definition members {A : Type} (u : nested A) : list A :=
  match u with
  | Leaf a => [a]
  | Tuple l => l
  end.

(** Modelled from the spec: [brainstorm.utils.flatten] is not part of the
    sources at hand; forced-order groups expand to their members, in
    declared order. *)
Definition flatten {A : Type} (c : list (nested A)) : list A :=
  flat_map members c.

(** Modelled from the spec: [brainstorm.utils.convert_to_nested_indices] is
    not part of the sources at hand; it replaces the leaves of a nested
    list by their positions in the flattened list, keeping the nesting
    (["a"; ("b","c"); "d"] becomes [0; (1,2); 3]). *)
Fixpoint nested_indices_from {A : Type} (start : nat) (c : list (nested A))
  : list (nested nat) :=
  match c with
  | [] => []
  | Leaf _ :: c' => Leaf start :: nested_indices_from (S start) c'
  | Tuple l :: c' =>
      Tuple (seq start (length l)) :: nested_indices_from (start + length l) c'
  end.

Definition convert_to_nested_indices {A : Type} (c : list (nested A))
  : list (nested nat) :=
  nested_indices_from 0 c.

(** ** Python built-ins on lists *)

Definition node_eqb (a b : node) : bool :=
  match a, b with
  | Leaf x, Leaf y => String.eqb x y
  | Tuple l, Tuple m => if list_eq_dec string_dec l m then true else false
  | _, _ => false
  end.

(** [x in l] *)
Definition contains (x : node) (l : list node) : bool := existsb (node_eqb x) l.

(** [l.index(x)]; [None] stands for the ValueError of a missing element. *)
Fixpoint index_from {A : Type} (eqb : A -> A -> bool) (k : nat) (x : A) (l : list A)
  : option nat :=
  match l with
  | [] => None
  | y :: l' => if eqb y x then Some k else index_from eqb (S k) x l'
  end.

Definition index {A : Type} (eqb : A -> A -> bool) (x : A) (l : list A) : option nat :=
  index_from eqb 0 x l.

(** [itertools.permutations(l)]: all orderings of the positions of [l], in
    lexicographic order of positions. *)
Fixpoint selections {A : Type} (l : list A) : list (A * list A) :=
  match l with
  | [] => []
  | x :: l' => (x, l') :: map (fun '(y, r) => (y, x :: r)) (selections l')
  end.

Fixpoint permutations_fuel {A : Type} (n : nat) (l : list A) : list (list A) :=
  match n with
  | O => [[]]
  | S n' =>
      flat_map (fun '(x, r) => map (cons x) (permutations_fuel n' r)) (selections l)
  end.

Definition permutations {A : Type} (l : list A) : list (list A) :=
  permutations_fuel (length l) l.

(** ** numpy arrays of rank 2 *)

Record ndarray : Type := mk_ndarray {
  shape1 : nat;              (* number of columns *)
  rows : list (list Z)       (* the rows; shape[0] is their number *)
}.

Definition shape0 (a : ndarray) : nat := length (rows a).

Definition np_zeros (n m : nat) : ndarray :=
  mk_ndarray m (repeat (repeat 0%Z m) n).

(** [a[i, j]] *)
Definition entry (a : ndarray) (i j : nat) : Z := nth j (nth i (rows a) []) 0%Z.

(** [a[:, j]] *)
Definition column (a : ndarray) (j : nat) : list Z :=
  map (fun r => nth j r 0%Z) (rows a).

Fixpoint list_set {A : Type} (l : list A) (i : nat) (v : A) : list A :=
  match l, i with
  | [], _ => []
  | _ :: l', O => v :: l'
  | x :: l', S i' => x :: list_set l' i' v
  end.

(** [a[i, j] = v] for indices in range *)
Definition set_entry (a : ndarray) (i j : nat) (v : Z) : ndarray :=
  mk_ndarray (shape1 a) (list_set (rows a) i (list_set (nth i (rows a) []) j v)).

(** [a[perm]] for a list of row positions; a position out of range raises
    IndexError. *)
Fixpoint pick {A : Type} (l : list A) (perm : list nat) : result (list A) :=
  match perm with
  | [] => Ok []
  | i :: perm' =>
      x <- of_option IndexError (nth_error l i) ;;
      xs <- pick l perm' ;;
      Ok (x :: xs)
  end.

Definition take_rows (a : ndarray) (perm : list nat) : result ndarray :=
  rs <- pick (rows a) perm ;; Ok (mk_ndarray (shape1 a) rs).

Fixpoint zip_with {A B C : Type} (f : A -> B -> C) (l : list A) (m : list B) : list C :=
  match l, m with
  | x :: l', y :: m' => f x y :: zip_with f l' m'
  | _, _ => []
  end.

(** [np.diff(m, axis=0)] *)
Definition np_diff0 (m : list (list Z)) : list (list Z) :=
  zip_with (zip_with Z.sub) (tl m) m.

(** [m.sum(axis=0)] for a matrix with [w] columns *)
Definition sum_axis0 (w : nat) (m : list (list Z)) : list Z :=
  fold_right (zip_with Z.add) (repeat 0%Z w) m.

(** [np.argmax(l)]: the first position of the maximum; ValueError on an
    empty sequence. *)
Fixpoint argmax_from (best : Z) (besti : nat) (k : nat) (l : list Z) : nat :=
  match l with
  | [] => besti
  | x :: l' =>
      if (best <? x)%Z then argmax_from x k (S k) l'
      else argmax_from best besti (S k) l'
  end.

Definition np_argmax (l : list Z) : result nat :=
  match l with
  | [] => Raise ValueError
  | x :: l' => Ok (argmax_from x 0 1 l')
  end.

(** ** numpy arrays of Python integers *)

(** The element type numpy gives, on a 64-bit platform, to an array built
    from a list of Python integers: every entry has the 64-bit signed type
    when it fits, the 64-bit unsigned type from 2^63 up to 2^64 - 1, and is
    a Python object outside both; the array has the common type of its
    entries, which is the double for a signed and an unsigned entry. *)
Inductive dtype : Type := Int64 | UInt64 | Float64 | Object.

Definition dtype_of_int (z : Z) : dtype :=
  if ((- 2 ^ 63 <=? z) && (z <? 2 ^ 63))%Z then Int64
  else if ((0 <=? z) && (z <? 2 ^ 64))%Z then UInt64
  else Object.

Definition promote (a b : dtype) : dtype :=
  match a, b with
  | Object, _ | _, Object => Object
  | Int64, Int64 => Int64
  | UInt64, UInt64 => UInt64
  | _, _ => Float64
  end.

Definition dtype_of_list (l : list Z) : dtype :=
  match l with
  | [] => Float64
  | x :: l' => fold_left (fun d y => promote d (dtype_of_int y)) l' (dtype_of_int x)
  end.

(** A sum that leaves the range of a 64-bit integer wraps around. *)
Definition wrap_int64 (z : Z) : Z := ((z + 2 ^ 63) mod 2 ^ 64 - 2 ^ 63)%Z.

Definition wrap_uint64 (z : Z) : Z := (z mod 2 ^ 64)%Z.

(** The double nearest to an integer (ties to even), and the integer
    [int(x)] of a double (the running sums of a list are finite). *)
Definition to_double (z : Z) : SpecFloat.spec_float :=
  SpecFloat.binary_normalize 53 1024 z 0 false.

Definition int_of_double (x : SpecFloat.spec_float) : Z :=
  match x with
  | SpecFloat.S754_finite s m e =>
      let v := (if 0 <=? e then Z.pos m * 2 ^ e else Z.pos m / 2 ^ (- e))%Z in
      if s then (- v)%Z else v
  | _ => 0%Z
  end.

(** The sum of two entries of an array of the given type, as an
    integer. *)
Definition add_as (d : dtype) (a b : Z) : Z :=
  match d with
  | Int64 => wrap_int64 (a + b)
  | UInt64 => wrap_uint64 (a + b)
  | Float64 => int_of_double (SpecFloat.SFadd 53 1024 (to_double a) (to_double b))
  | Object => (a + b)%Z
  end.

Fixpoint cumsum_from (d : dtype) (acc : Z) (l : list Z) : list Z :=
  match l with
  | [] => []
  | x :: l' => let s := add_as d acc x in s :: cumsum_from d s l'
  end.

(** [np.cumsum(l)] for a list of Python integers, each entry read back
    through [int]: the running sums in the element type of the array. *)
Definition np_cumsum (l : list Z) : list Z := cumsum_from (dtype_of_list l) 0%Z l.

(** ** Sorting (Python's [sorted] is stable) *)

Section Sorting.
Variable A : Type.
Variable leb : A -> A -> bool.

Fixpoint insert_sorted (x : A) (l : list A) : list A :=
  match l with
  | [] => [x]
  | y :: l' => if leb x y then x :: l else y :: insert_sorted x l'
  end.

(** The stable sort of [l] by [leb]. *)
Definition stable_sort (l : list A) : list A := fold_right insert_sorted [] l.
End Sorting.

(** Comparison of tuples of strings: lexicographic, a proper prefix first. *)
Fixpoint tuple_compare (l m : list string) : comparison :=
  match l, m with
  | [], [] => Eq
  | [], _ :: _ => Lt
  | _ :: _, [] => Gt
  | x :: l', y :: m' =>
      match String.compare x y with
      | Eq => tuple_compare l' m'
      | c => c
      end
  end.

Definition is_leaf {A : Type} (u : nested A) : bool :=
  match u with Leaf _ => true | Tuple _ => false end.

Definition is_tuple {A : Type} (u : nested A) : bool := negb (is_leaf u).

(** Order between nodes of the same kind.  Between a string and a tuple
    Python 3 has no order (see [sorted_nodes]); the value chosen here for
    that case is never used. *)
Definition node_compare (a b : node) : comparison :=
  match a, b with
  | Leaf x, Leaf y => String.compare x y
  | Tuple l, Tuple m => tuple_compare l m
  | Leaf _, Tuple _ => Lt
  | Tuple _, Leaf _ => Gt
  end.

Definition node_leb (a b : node) : bool :=
  match node_compare a b with Gt => false | _ => true end.

(** [sorted(s)] for a collection of nodes: comparing a [str] with a
    [tuple] raises TypeError, and sorting a collection that holds both has
    to compare some string with some tuple. *)
Definition sorted_nodes (l : list node) : result (list node) :=
  if existsb is_leaf l && existsb is_tuple l then Raise TypeError
  else Ok (stable_sort node_leb l).

(** ** The endpoint tree *)

(** Modelled from the spec: the shape template is an external collaborator
    ([brainstorm.structure.shapes]); the planner only uses its buffer type
    tag ([validate_shape_template]), its element count
    ([get_feature_size]) and the optional ['@context_size'] entry of its
    JSON form. *)
Record ShapeTemplate : Type := mk_ShapeTemplate {
  template_btype : nat;
  template_size : Z;
  template_context_size : option nat
}.

(** The value stored under ['@shape']: the shape of a template, or the
    plain tuple [(n,)] that [create_layout] stores for the parameters. *)
Inductive shape : Type :=
| TemplateShape (t : ShapeTemplate)
| FlatShape (n : Z).

Definition validate_shape_template (s : shape) : nat :=
  match s with
  | TemplateShape t => template_btype t
  | FlatShape _ => 0
  end.

Definition get_feature_size (s : shape) : Z :=
  match s with
  | TemplateShape t => template_size t
  | FlatShape n => n
  end.

Inductive node_type : Type := TBufferView | TArray.

(** A dictionary of the layout: its ['@...'] attributes and, under the
    other keys and in insertion order, its children. *)
#[warnings="-register-all"]
Inductive layout : Type :=
| Node (type : node_type) (index : option nat) (shp : option shape)
       (ctx : option nat) (slice : option (Z * Z)) (hub : option nat)
       (children : list (string * layout)).

Definition layout_type (l : layout) : node_type :=
  match l with Node t _ _ _ _ _ _ => t end.
Definition layout_index (l : layout) : option nat :=
  match l with Node _ i _ _ _ _ _ => i end.
Definition layout_shape (l : layout) : option shape :=
  match l with Node _ _ s _ _ _ _ => s end.
Definition layout_context_size (l : layout) : option nat :=
  match l with Node _ _ _ c _ _ _ => c end.
Definition layout_slice (l : layout) : option (Z * Z) :=
  match l with Node _ _ _ _ s _ _ => s end.
Definition layout_hub (l : layout) : option nat :=
  match l with Node _ _ _ _ _ h _ => h end.
Definition layout_children (l : layout) : list (string * layout) :=
  match l with Node _ _ _ _ _ _ c => c end.

(** [d[k]] and [d[k] = v] on the children of a dictionary *)
Fixpoint dict_get {V : Type} (k : string) (d : list (string * V)) : option V :=
  match d with
  | [] => None
  | (k', v) :: d' => if String.eqb k' k then Some v else dict_get k d'
  end.

Fixpoint dict_set {V : Type} (k : string) (v : V) (d : list (string * V))
  : list (string * V) :=
  match d with
  | [] => [(k, v)]
  | (k', v') :: d' =>
      if String.eqb k' k then (k, v) :: d' else (k', v') :: dict_set k v d'
  end.

(** [s.split(c)] *)
Fixpoint split_on (c : ascii) (s : string) : list string :=
  match s with
  | EmptyString => [EmptyString]
  | String a s' =>
      if Ascii.eqb a c then EmptyString :: split_on c s'
      else match split_on c s' with
           | [] => [String a EmptyString]
           | w :: ws => String a w :: ws
           end
  end.

(** The walk of [get_by_path] along the segments of a path.  Only the
    children of a dictionary are resolved; a missing key is a KeyError.
    The ['@...'] attributes of a dictionary are no children: a segment that
    names one is a missing key here, where Python hands out the value of
    the attribute, on which the next step or the caller fails with a
    TypeError; the paths that [gather_array_nodes] yields hold no such
    segment. *)
Fixpoint get_by_segments (segs : list string) (l : layout) : result layout :=
  match segs with
  | [] => Ok l
  | p :: segs' =>
      c <- of_option KeyError (dict_get p (layout_children l)) ;;
      get_by_segments segs' c
  end.

Definition get_by_path (path : string) (l : layout) : result layout :=
  get_by_segments (split_on "."%char path) l.

(** [get_by_path(s, layout)] for an element of a node list; a tuple has no
    [split]. *)
Definition get_by_node (s : node) (l : layout) : result layout :=
  match s with
  | Leaf path => get_by_path path l
  | Tuple _ => Raise AttributeError
  end.

(** [[f(x) for x in l]] where [f] may raise *)
Fixpoint map_result {A B : Type} (f : A -> result B) (l : list A) : result (list B) :=
  match l with
  | [] => Ok []
  | x :: l' => y <- f x ;; ys <- map_result f l' ;; Ok (y :: ys)
  end.

(** ** class Hub *)

Record Hub : Type := mk_Hub {
  sources : list node;
  sinks : list node;
  btype : nat;
  context_size : nat;
  connection_table : ndarray;
  sizes : list Z;
  size : Z
}.

(** [Hub.__init__]; the empty list stored as connection table stands for
    the empty array, and [set_up_connection_table] replaces it before the
    table is read. *)
Definition Hub_init (sources sinks : list node) (btype context_size : nat) : Hub :=
  mk_Hub sources sinks btype context_size (mk_ndarray 0 []) [] (-1).

(** [Hub.can_be_connected_with_single_buffer] *)
Definition can_be_connected_with_single_buffer (connection_table : ndarray) : bool :=
  let zero_row := repeat 0%Z (shape1 connection_table) in
  let padded := zero_row :: rows connection_table ++ [zero_row] in
  forallb (fun s => (s <=? 2)%Z)
          (sum_axis0 (shape1 connection_table)
                     (map (map Z.abs) (np_diff0 padded))).

(** The body of the loop of [Hub.set_up_connection_table] for one
    connection. *)
Definition connect (h : Hub) (flat_sources : list string) (ct : ndarray)
           (c : string * string) : result ndarray :=
  let '(start, stop) := c in
  if contains (Leaf start) (sources h) && contains (Leaf stop) (sinks h)
  then
    start_idx <- of_option ValueError (index String.eqb start flat_sources) ;;
    stop_idx <- of_option ValueError (index node_eqb (Leaf stop) (sinks h)) ;;
    Ok (set_entry ct start_idx stop_idx 1%Z)
  else Ok ct.

(** [Hub.set_up_connection_table] *)
Definition set_up_connection_table (h : Hub) (connections : list (string * string))
  : result Hub :=
  let flat_sources := flatten (sources h) in
  let table := np_zeros (length flat_sources) (length (sinks h)) in
  table' <- for_each (connect h flat_sources) connections table ;;
  Ok (mk_Hub (sources h) (sinks h) (btype h) (context_size h) table'
             (sizes h) (size h)).

(** The loop of [Hub.permute_rows] over the permutations still to try. *)
Fixpoint try_permutations (h : Hub) (flat_sources : list string)
         (perms : list (list (nested nat))) : result Hub :=
  match perms with
  | [] => Raise NetworkValidationError
  | p :: perms' =>
      let perm := flatten p in
      ct <- take_rows (connection_table h) perm ;;
      if can_be_connected_with_single_buffer ct then
        srcs <- pick flat_sources perm ;;
        Ok (mk_Hub (map Leaf srcs) (sinks h) (btype h) (context_size h) ct
                   (sizes h) (size h))
      else try_permutations h flat_sources perms'
  end.

(** [Hub.permute_rows] *)
Definition permute_rows (h : Hub) : result Hub :=
  let flat_sources := flatten (sources h) in
  let nested_indices := convert_to_nested_indices (sources h) in
  try_permutations h flat_sources (permutations nested_indices).

(** [Hub.setup] *)
Definition setup (h : Hub) (connections : list (string * string)) : result Hub :=
  h' <- set_up_connection_table h connections ;;
  permute_rows h'.

Fixpoint zip3 {A B C : Type} (l : list A) (m : list B) (n : list C)
  : list (A * B * C) :=
  match l, m, n with
  | x :: l', y :: m', z :: n' => (x, y, z) :: zip3 l' m' n'
  | _, _, _ => []
  end.

(** [enumerate(l)] *)
Definition enumerate_from {A : Type} (k : nat) (l : list A) : list (nat * A) :=
  combine (seq k (length l)) l.

(** The slice of the sink of column [i] in [Hub.get_indices]. *)
Definition sink_slice (h : Hub) (idxs : list Z) (i : nat) : result (Z * Z) :=
  let ct := connection_table h in
  if i <? shape1 ct then
    first <- np_argmax (column ct i) ;;
    start <- of_option IndexError (nth_error idxs first) ;;
    last <- np_argmax (rev (column ct i)) ;;
    stop <- of_option IndexError (nth_error idxs (shape0 ct - last)) ;;
    Ok (start, stop)
  else Raise IndexError.

(** The slices [Hub.get_indices] yields for the sources. *)
Definition source_indices (h : Hub) : list (node * (Z * Z)) :=
  let idxs := np_cumsum (0%Z :: sizes h) in
  map (fun '(source_name, start, stop) => (source_name, (start, stop)))
      (zip3 (sources h) idxs (tl idxs)).

(** What [Hub.get_indices] yields for the sink of column [i]. *)
Definition sink_index (h : Hub) (idxs : list Z) (p : nat * node)
  : result (node * (Z * Z)) :=
  let '(i, sink_name) := p in
  s <- sink_slice h idxs i ;; Ok (sink_name, s).

(** The slices [Hub.get_indices] yields for the sinks. *)
Definition sink_indices (h : Hub) : result (list (node * (Z * Z))) :=
  let idxs := np_cumsum (0%Z :: sizes h) in
  map_result (sink_index h idxs) (enumerate_from 0 (sinks h)).

(** [Hub.get_indices]: everything the generator yields, in order. *)
Definition get_indices (h : Hub) : result (list (node * (Z * Z))) :=
  snk <- sink_indices h ;;
  Ok (source_indices h ++ snk).

(** [sum(l)] *)
Definition sum_ints (l : list Z) : Z := fold_left Z.add l 0%Z.

(** [min(l) == max(l)] for a non-empty list *)
Definition min_eq_max (l : list nat) : bool :=
  fold_right Nat.min (hd 0 l) l =? fold_right Nat.max 0 l.

(** [validate_shape_template(get_by_path(s, layout)['@shape'])] *)
Definition source_btype (lay : layout) (s : string) : result nat :=
  n <- get_by_path s lay ;;
  shp <- of_option KeyError (layout_shape n) ;;
  Ok (validate_shape_template shp).

(** [get_by_path(s, layout).get('@context_size', 0)] *)
Definition source_context_size (lay : layout) (s : string) : result nat :=
  n <- get_by_path s lay ;;
  Ok (match layout_context_size n with
      | Some c => c
      | None => 0
      end).

(** [get_feature_size(get_by_path(s, layout)['@shape'])] *)
Definition source_size (lay : layout) (s : node) : result Z :=
  n <- get_by_node s lay ;;
  shp <- of_option KeyError (layout_shape n) ;;
  Ok (get_feature_size shp).

(** [Hub.create] *)
Definition create (source_set sink_set : list node) (lay : layout)
           (connections : list (string * string)) : result Hub :=
  btypes <- map_result (source_btype lay) (flatten source_set) ;;
  match btypes with
  | [] => Raise ValueError              (* min() of an empty sequence *)
  | btype0 :: _ =>
      if negb (min_eq_max btypes) then
        Raise (AssertionError AssertUniformBufferType)
      else
        contexts <- map_result (source_context_size lay) (flatten source_set) ;;
        let context_size0 := fold_right Nat.max 0 contexts in
        srcs <- sorted_nodes source_set ;;
        snks <- sorted_nodes sink_set ;;
        hub <- setup (Hub_init srcs snks btype0 context_size0) connections ;;
        szs <- map_result (source_size lay) (sources hub) ;;
        Ok (mk_Hub (sources hub) (sinks hub) (btype hub) (context_size hub)
                   (connection_table hub) szs (sum_ints szs))
  end.

(** ** The layer registry *)

(** Modelled from the spec: the layer objects are external collaborators;
    a layer exposes its outgoing connections and its ordered mappings of
    input shapes, output shapes, parameters and internals. *)
Record Connection : Type := mk_Connection {
  start_layer : string;
  output_name : string;
  end_layer : string;
  input_name : string
}.

Record Layer : Type := mk_Layer {
  in_shapes : list (string * ShapeTemplate);
  out_shapes : list (string * ShapeTemplate);
  get_parameter_structure : list (string * ShapeTemplate);
  get_internal_structure : list (string * ShapeTemplate);
  outgoing : list Connection
}.

(** Modelled from the spec: [brainstorm.utils.get_normalized_path] is not
    part of the sources at hand; it joins its arguments into one dotted
    path. *)
Definition get_normalized_path (parts : list string) : string :=
  String.concat "." parts.

Definition str_in (s : string) (l : list string) : bool := existsb (String.eqb s) l.

(** [get_parameter_order] and [get_internal_order] *)
Definition get_parameter_order (layer_name : string) (layer : Layer) : list string :=
  map (fun o => get_normalized_path [layer_name; "parameters"; fst o]%string)
      (get_parameter_structure layer).

Definition get_internal_order (layer_name : string) (layer : Layer) : list string :=
  map (fun o => get_normalized_path [layer_name; "internals"; fst o]%string)
      (get_internal_structure layer).

(** [filter(None, l)] on tuples: the empty ones are dropped *)
Definition nonempty {A : Type} (l : list A) : bool :=
  match l with [] => false | _ :: _ => true end.

(** [set(fo) & set(other)] is not empty *)
Definition intersects (fo other : list string) : bool :=
  existsb (fun x => str_in x other) fo.

(** The forced orders of all layers: the parameter orders, then the
    internal orders, the empty ones dropped. *)
Definition forced_order_tuples (layers : list (string * Layer)) : list (list string) :=
  filter nonempty
    (map (fun '(n, l) => get_parameter_order n l) layers ++
     map (fun '(n, l) => get_internal_order n l) layers).

(** The body of the inner loop of [get_forced_orders] for the tuple [fo]
    at position [i]; the tuples are distinct objects, so [fo is other]
    holds exactly when the two loops are at the same position. *)
Definition check_other (i : nat) (fo : list string) (_ : unit)
           (p : nat * list string) : result unit :=
  let '(j, other) := p in
  if i =? j then Ok tt
  else if intersects fo other
       then Raise (AssertionError AssertForcedOrdersOverlap)
       else Ok tt.

(** The body of the outer loop of [get_forced_orders]. *)
Definition check_forced_order (forced_orders : list (list string)) (_ : unit)
           (p : nat * list string) : result unit :=
  let '(i, fo) := p in
  for_each (check_other i fo) (enumerate_from 0 forced_orders) tt.

(** [get_forced_orders] *)
Definition get_forced_orders (layers : list (string * Layer))
  : result (list (list string)) :=
  let forced_orders := forced_order_tuples layers in
  _ <- for_each (check_forced_order forced_orders)
                (enumerate_from 0 forced_orders) tt ;;
  Ok forced_orders.

(** Order of the connection pairs in [sorted(connections)] *)
Definition pair_leb (a b : string * string) : bool :=
  match String.compare (fst a) (fst b) with
  | Lt => true
  | Gt => false
  | Eq => String.leb (snd a) (snd b)
  end.

(** [get_connections] *)
Definition get_connections (layers : list (string * Layer)) : list (string * string) :=
  let wired :=
    flat_map
      (fun '(_, layer) =>
         map (fun con =>
                (get_normalized_path [start_layer con; "outputs"; output_name con]%string,
                 get_normalized_path [end_layer con; "inputs"; input_name con]%string))
             (outgoing layer))
      layers in
  let params :=
    flat_map
      (fun '(layer_name, layer) =>
         map (fun p =>
                (get_normalized_path [layer_name; "parameters"; fst p]%string,
                 "parameters"%string))
             (get_parameter_structure layer))
      layers in
  stable_sort pair_leb (wired ++ params).

(** The sort key [structure[x]['@index']] of the key [x] of a structure,
    paired with the key; an entry without ['@index'] is a KeyError. *)
Definition index_of_key (entry : string * layout) : result (nat * string) :=
  i <- of_option KeyError (layout_index (snd entry)) ;; Ok (i, fst entry).

Definition index_key_leb (a b : nat * string) : bool := fst a <=? fst b.

(** [get_order]: the keys of a structure (a dictionary from names to
    entries that carry an ['@index']) in the order of these indices; the
    sort keys are computed for every entry first. *)
Definition get_order (structure : list (string * layout)) : result (list string) :=
  keyed <- map_result index_of_key structure ;;
  Ok (map snd (stable_sort index_key_leb keyed)).

(** ** The layout stub *)

(** [convert_to_array_json] *)
Definition convert_to_array_json (shape_template : ShapeTemplate) (i : nat) : layout :=
  Node TArray (Some i) (Some (TemplateShape shape_template))
       (template_context_size shape_template) None None [].

(** [{k: convert_to_array_json(v, i) for i, (k, v) in enumerate(items)}] *)
Definition array_dict (items : list (string * ShapeTemplate)) : list (string * layout) :=
  fold_left (fun d '(i, (k, v)) => dict_set k (convert_to_array_json v i) d)
            (enumerate_from 0 items) [].

Definition key_leb {V : Type} (a b : string * V) : bool := String.leb (fst a) (fst b).

Definition buffer_view (i : option nat) (children : list (string * layout)) : layout :=
  Node TBufferView i None None None None children.

(** [del d[k]] for a key that may be missing *)
Definition drop_key {V : Type} (k : string) (d : list (string * V)) : list (string * V) :=
  filter (fun e => negb (String.eqb (fst e) k)) d.

(** [d['@type'] = 'BufferView'; d['@index'] = i] on a dictionary of
    buffers: a buffer stored under one of these two names is overwritten
    by the attribute. *)
Definition section_view (i : nat) (d : list (string * layout)) : layout :=
  buffer_view (Some i) (drop_key "@index" (drop_key "@type" d)).

(** [get_layout_stub_for_layer], with the ['@type'] and ['@index'] that
    [create_layout_stub] sets on its result. *)
Definition get_layout_stub_for_layer (layer : Layer) (i : nat) : layout :=
  buffer_view (Some i)
    [ ("inputs"%string,
       section_view 0 (array_dict (stable_sort (@key_leb _) (in_shapes layer))));
      ("outputs"%string,
       section_view 1 (array_dict (stable_sort (@key_leb _) (out_shapes layer))));
      ("parameters"%string,
       section_view 2 (array_dict (get_parameter_structure layer)));
      ("internals"%string,
       section_view 3 (array_dict (get_internal_structure layer))) ].

(** [create_layout_stub] *)
Definition create_layout_stub (layers : list (string * Layer)) : layout :=
  buffer_view None
    (fold_left
       (fun root '(i, (layer_name, layer)) =>
          dict_set layer_name (get_layout_stub_for_layer layer i) root)
       (enumerate_from 1 layers)
       [("parameters"%string, Node TArray (Some 0) None None None None [])]).

(** Modelled from the spec: [brainstorm.utils.sort_by_index_key] is not
    part of the sources at hand; the children are visited in the order of
    their declared index (a child without index first). *)
Definition index_key (i : option nat) : Z :=
  match i with Some n => Z.of_nat n | None => (-1)%Z end.

Definition index_leb {V : Type} (a b : option nat * V) : bool :=
  (index_key (fst a) <=? index_key (fst b))%Z.

Definition startswith_at (k : string) : bool :=
  match k with
  | String "@"%char _ => true
  | _ => false
  end.

(** [gather_array_nodes]: what each child contributes is computed first
    and the contributions are then put in the order of the indices, which
    is the order in which the generator visits the sorted items. *)
Fixpoint gather_array_nodes (l : layout) : list string :=
  match l with
  | Node _ _ _ _ _ _ children =>
      let visit :=
        (fix visit (ch : list (string * layout)) : list (option nat * list string) :=
           match ch with
           | [] => []
           | (k, v) :: ch' =>
               (layout_index v,
                if startswith_at k then []
                else match layout_type v with
                     | TBufferView =>
                         map (fun sub_path => k ++ "." ++ sub_path)%string
                             (gather_array_nodes v)
                     | TArray => [k]
                     end) :: visit ch'
           end) in
      concat (map snd (stable_sort (@index_leb _) (visit children)))
  end.

(** ** The partitioner and the assembler *)

Definition node_eq_dec (a b : node) : {a = b} + {a <> b}.
Proof.
  decide equality; [apply string_dec | apply (list_eq_dec string_dec)].
Defined.

(** [merge_connections]: a node that is part of a forced order is replaced
    by the tuple of that forced order; a tuple is not a member of any
    forced order. *)
Definition in_forced_order (n : node) (fo : list string) : bool :=
  match n with
  | Leaf s => str_in s fo
  | Tuple _ => false
  end.

Definition merge_node (forced_orders : list (list string)) (n : node) : node :=
  fold_left (fun cur fo => if in_forced_order cur fo then Tuple fo else cur)
            forced_orders n.

Definition merge_connections (connections : list (string * string))
           (forced_orders : list (list string)) : list (node * node) :=
  map (fun '(start, stop) =>
         (merge_node forced_orders (Leaf start), merge_node forced_orders (Leaf stop)))
      connections.

(** [l.remove(x)] *)
Fixpoint list_remove (x : node) (l : list node) : result (list node) :=
  match l with
  | [] => Raise ValueError
  | y :: l' =>
      if node_eqb y x then Ok l'
      else l'' <- list_remove x l' ;; Ok (y :: l'')
  end.

(** The inner [for fo in forced_orders: ... else: ...] of
    [get_all_sinks_and_sources] for one array node [s]. *)
Fixpoint place_source (s : string) (all_sources : list node)
         (forced_orders : list (list string)) : list node :=
  match forced_orders with
  | [] => all_sources ++ [Leaf s]
  | fo :: forced_orders' =>
      if str_in s (flatten all_sources) then all_sources
      else if str_in s fo then all_sources ++ [Tuple fo]
           else place_source s all_sources forced_orders'
  end.

(** [get_all_sinks_and_sources]; taking the second row of the transposed
    connection list is an IndexError when there is no connection. *)
Definition get_all_sinks_and_sources (forced_orders : list (list string))
           (connections : list (string * string)) (lay : layout)
  : result (list string * list node) :=
  match connections with
  | [] => Raise IndexError
  | _ :: _ =>
      let all_sinks := stable_sort String.leb (map snd connections) in
      let all_sources :=
        fold_left
          (fun all_sources s =>
             if str_in s all_sinks then all_sources
             else place_source s all_sources forced_orders)
          (gather_array_nodes lay) [] in
      Ok (all_sinks, all_sources)
  end.

(** The in-place update [get_by_path(path, layout)[...] = ...] of the
    dictionary a path resolves to. *)
Fixpoint update_by_segments (segs : list string) (f : layout -> layout) (l : layout)
  : result layout :=
  match segs with
  | [] => Ok (f l)
  | p :: segs' =>
      match l with
      | Node t i s c sl h children =>
          child <- of_option KeyError (dict_get p children) ;;
          child' <- update_by_segments segs' f child ;;
          Ok (Node t i s c sl h (dict_set p child' children))
      end
  end.

Definition set_slice_and_hub (_slice : Z * Z) (hub_nr : nat) (l : layout) : layout :=
  match l with
  | Node t i s c _ _ children => Node t i s c (Some _slice) (Some hub_nr) children
  end.

(** [layout_hubs] *)
Definition layout_hubs (hubs : list Hub) (lay : layout) : result layout :=
  for_each
    (fun lay '(hub_nr, hub) =>
       indices <- get_indices hub ;;
       for_each
         (fun lay '(buffer_name, _slice) =>
            match buffer_name with
            | Leaf path =>
                update_by_segments (split_on "."%char path)
                                   (set_slice_and_hub _slice hub_nr) lay
            | Tuple _ => Raise AttributeError
            end)
         indices lay)
    (enumerate_from 0 hubs) lay.

Definition btype_leb (a b : Hub) : bool := btype a <=? btype b.

Section Planner.

(** The order in which a Python set with the given elements is
    iterated. *)
Variable set_order : list node -> list node.

(** The set with the elements of [l]. *)
Definition make_set (l : list node) : list node :=
  set_order (nodup node_eq_dec l).

Definition sinks_of (connections : list (node * node)) (source_set : list node)
  : list node :=
  make_set (map snd (filter (fun c => contains (fst c) source_set) connections)).

Definition sources_of (connections : list (node * node)) (sink_set : list node)
  : list node :=
  make_set (map fst (filter (fun c => contains (snd c) sink_set) connections)).

(** The [while growing] loop of [get_forward_closure]. *)
Fixpoint closure_loop (fuel : nat) (connections : list (node * node))
         (source_set sink_set : list node) : result (list node * list node) :=
  match fuel with
  | O => Unfinished
  | S fuel' =>
      let new_source_set := sources_of connections sink_set in
      let new_sink_set := sinks_of connections source_set in
      if (length source_set <? length new_source_set)
         || (length sink_set <? length new_sink_set)
      then closure_loop fuel' connections new_source_set new_sink_set
      else Ok (source_set, sink_set)
  end.

(** [get_forward_closure] *)
Definition get_forward_closure (n : node) (connections : list (node * node))
  : result (list node * list node) :=
  let source_set := make_set [n] in
  let sink_set := sinks_of connections source_set in
  closure_loop (2 * length connections + 2) connections source_set sink_set.

(** The [while remaining_sources] loop of [group_into_hubs]. *)
Fixpoint group_loop (fuel : nat) (remaining_sources : list node)
         (m_cons : list (node * node)) (lay : layout)
         (connections : list (string * string)) : result (list Hub) :=
  match remaining_sources with
  | [] => Ok []
  | n :: _ =>
      match fuel with
      | O => Unfinished
      | S fuel' =>
          '(source_set, sink_set) <- get_forward_closure n m_cons ;;
          remaining <- for_each (fun r s => list_remove s r)
                                source_set remaining_sources ;;
          hub <- create source_set sink_set lay connections ;;
          hubs <- group_loop fuel' remaining m_cons lay connections ;;
          Ok (hub :: hubs)
      end
  end.

(** [group_into_hubs] *)
Definition group_into_hubs (remaining_sources : list node)
           (forced_orders : list (list string))
           (connections : list (string * string)) (lay : layout)
  : result (list Hub) :=
  let m_cons := merge_connections connections forced_orders in
  group_loop (length remaining_sources) remaining_sources m_cons lay connections.

(** [create_layout] *)
Definition create_layout (layers : list (string * Layer))
  : result (list Hub * layout) :=
  forced_orders <- get_forced_orders layers ;;
  let connections := get_connections layers in
  let lay := create_layout_stub layers in
  '(all_sinks, all_sources) <-
      get_all_sinks_and_sources forced_orders connections lay ;;
  hubs <- group_into_hubs all_sources forced_orders connections lay ;;
  let hubs := stable_sort btype_leb hubs in
  lay <- layout_hubs hubs lay ;;
  match lay with
  | Node t i s c sl h children =>
      parameters <- of_option KeyError (dict_get "parameters"%string children) ;;
      param_slice <- of_option KeyError (layout_slice parameters) ;;
      let parameters' :=
        match parameters with
        | Node t' i' _ c' sl' h' ch' =>
            Node t' i' (Some (FlatShape (snd param_slice - fst param_slice)%Z))
                 c' sl' h' ch'
        end in
      Ok (hubs, Node t i s c sl h (dict_set "parameters"%string parameters' children))
  end.

End Planner.

(** * Properties *)

(** ** The contiguity predicate *)

(** A table whose rows all have [shape1] entries, each 0 or 1. *)
Definition binary_row (r : list Z) : Prop := Forall (fun x => x = 0%Z \/ x = 1%Z) r.

Definition binary_table (ct : ndarray) : Prop :=
  Forall (fun r => length r = shape1 ct /\ binary_row r) (rows ct).

(** The ones of a column are the rows [a <= i < b]. *)
Definition run_at (a b : nat) (c : list Z) : Prop :=
  forall i, i < length c -> (nth i c 0%Z = 1%Z <-> a <= i < b).

(** The ones of a column form at most one contiguous run. *)
Definition single_run (c : list Z) : Prop := exists a b, run_at a b c.

(** The number of positions at which consecutive entries differ. *)
Fixpoint count_changes (l : list Z) : nat :=
  match l with
  | x :: (y :: _) as l' => (if (x =? y)%Z then 0 else 1) + count_changes l'
  | _ => 0
  end.

(** The sum of the absolute differences along [p :: l ++ [0]]. *)
Fixpoint changes_from (p : Z) (l : list Z) : Z :=
  match l with
  | [] => Z.abs (0 - p)
  | x :: l' => Z.abs (x - p) + changes_from x l'
  end.

Definition sum_Z (l : list Z) : Z := fold_right Z.add 0%Z l.

Lemma zip_with_length {A B C : Type} (f : A -> B -> C) l m :
  length (zip_with f l m) = Nat.min (length l) (length m).
Proof.
  revert m; induction l as [|x l IH]; intros [|y m]; simpl; auto.
Qed.

Lemma zip_with_nth (f : Z -> Z -> Z) l m j :
  j < length l -> j < length m ->
  nth j (zip_with f l m) 0%Z = f (nth j l 0%Z) (nth j m 0%Z).
Proof.
  revert m j; induction l as [|x l IH]; intros [|y m] [|j]; simpl; intros; try lia; auto.
  apply IH; lia.
Qed.

Lemma sum_axis0_length w m :
  Forall (fun r => length r = w) m -> length (sum_axis0 w m) = w.
Proof.
  induction 1 as [|r m Hr _ IH]; simpl.
  - apply repeat_length.
  - rewrite zip_with_length, IH, Hr. apply Nat.min_id.
Qed.

Lemma sum_axis0_nth w m j :
  Forall (fun r => length r = w) m -> j < w ->
  nth j (sum_axis0 w m) 0%Z = sum_Z (map (fun r => nth j r 0%Z) m).
Proof.
  intros Hm Hj. induction Hm as [|r m Hr Hm IH]; simpl.
  - apply nth_repeat.
  - rewrite zip_with_nth, IH; auto; try lia.
    rewrite sum_axis0_length; auto.
Qed.

Lemma np_diff0_cons2 r1 r2 m :
  np_diff0 (r1 :: r2 :: m) = zip_with Z.sub r2 r1 :: np_diff0 (r2 :: m).
Proof. reflexivity. Qed.

Lemma np_diff0_rect w m :
  Forall (fun r => length r = w) m ->
  Forall (fun r => length r = w) (map (map Z.abs) (np_diff0 m)).
Proof.
  induction 1 as [|r1 m H1 Hm IH]; [constructor|].
  destruct Hm as [|r2 m H2 Hm]; [constructor|].
  rewrite np_diff0_cons2. simpl map. constructor; auto.
  rewrite length_map, zip_with_length, H1, H2. apply Nat.min_id.
Qed.

(** Column [j] of the absolute differences of a padded table is the list
    of absolute differences of the padded column. *)
Lemma diff_column w j r m :
  Forall (fun r => length r = w) (r :: m) -> j < w ->
  sum_Z (map (fun r => nth j r 0%Z) (map (map Z.abs) (np_diff0 (r :: m ++ [repeat 0%Z w]))))
  = changes_from (nth j r 0%Z) (map (fun r => nth j r 0%Z) m).
Proof.
  intros Hm Hj. revert r Hm. induction m as [|r2 m IH]; intros r Hm.
  - simpl. inversion Hm; subst.
    change (nth j (map Z.abs (zip_with Z.sub (repeat 0%Z (length r)) r)) 0%Z + 0
            = Z.abs (0 - nth j r 0%Z))%Z.
    rewrite (nth_indep _ 0%Z (Z.abs 0%Z)) by
      (rewrite length_map, zip_with_length, repeat_length; lia).
    rewrite map_nth, zip_with_nth; rewrite ?nth_repeat, ?repeat_length; lia.
  - inversion Hm as [|? ? H1 Hm']; subst.
    inversion Hm' as [|? ? H2 Hm'']; subst.
    simpl app. rewrite np_diff0_cons2. simpl map. simpl sum_Z.
    rewrite IH by (constructor; auto).
    cbn [changes_from]. f_equal.
    rewrite (nth_indep _ 0%Z (Z.abs 0%Z)) by
      (rewrite length_map, zip_with_length; lia).
    rewrite map_nth, zip_with_nth; lia.
Qed.

Lemma changes_from_nonneg p l : (0 <= changes_from p l)%Z.
Proof.
  revert p; induction l as [|x l IH]; intros p; cbn [changes_from]; [lia|].
  specialize (IH x). lia.
Qed.

Lemma changes_from_one l : binary_row l -> (1 <= changes_from 1 l)%Z.
Proof.
  induction 1 as [|x l [Hx|Hx] _ IH]; subst; cbn [changes_from]; [lia| |lia].
  pose proof (changes_from_nonneg 0 l). lia.
Qed.

Lemma run_at_cons a b x l :
  run_at a b (x :: l) <->
  (x = 1%Z <-> a = 0 /\ 0 < b) /\
  (forall i, i < length l -> (nth i l 0%Z = 1%Z <-> a <= S i < b)).
Proof.
  unfold run_at; split.
  - intros H; split.
    + specialize (H 0); simpl in H. rewrite H by lia. lia.
    + intros i Hi. apply (H (S i)). simpl; lia.
  - intros [H0 HS] [|i] Hi; simpl in *.
    + rewrite H0. lia.
    + apply HS; lia.
Qed.

Lemma changes_zero_iff l :
  binary_row l -> (changes_from 0 l <= 0)%Z <-> Forall (fun x => x = 0%Z) l.
Proof.
  induction 1 as [|x l [Hx|Hx] Hl IH]; subst; cbn [changes_from].
  - split; [constructor | lia].
  - replace (Z.abs (0 - 0)) with 0%Z by lia. rewrite Z.add_0_l, IH.
    split; [constructor; auto | inversion 1; auto].
  - pose proof (changes_from_one Hl).
    split; [lia | inversion 1; lia].
Qed.

Lemma all_zero_nth l :
  Forall (fun x => x = 0%Z) l <-> (forall i, i < length l -> nth i l 0%Z = 0%Z).
Proof.
  split.
  - induction 1 as [|x l Hx _ IH]; intros [|i] Hi; simpl in *; try lia; auto.
    apply IH; lia.
  - induction l as [|x l IH]; intros H; constructor.
    + apply (H 0); simpl; lia.
    + apply IH; intros i Hi. apply (H (S i)); simpl; lia.
Qed.

(** Starting inside the run: the ones are a prefix. *)
Lemma changes_one_iff l :
  binary_row l -> (changes_from 1 l <= 1)%Z <-> exists b, run_at 0 b l.
Proof.
  induction 1 as [|x l [Hx|Hx] Hl IH]; subst.
  - simpl. split; [|lia]. intros _. exists 0. intros i Hi; simpl in Hi; lia.
  - cbn [changes_from]. replace (Z.abs (0 - 1)) with 1%Z by lia.
    transitivity (changes_from 0 l <= 0)%Z; [split; lia|].
    rewrite (changes_zero_iff Hl), all_zero_nth. split.
    + intros H. exists 0. apply run_at_cons. split; [lia|].
      intros i Hi. rewrite (H i Hi). lia.
    + intros [b Hb]. apply run_at_cons in Hb. destruct Hb as [H0 HS].
      assert (b = 0) by (destruct b; auto; exfalso;
                         assert (0%Z = 1%Z) by (apply H0; lia); lia).
      subst b. intros i Hi. specialize (HS i Hi).
      destruct (Forall_forall (fun x => x = 0%Z \/ x = 1%Z) l) as [Hf _].
      destruct (Hf Hl (nth i l 0%Z)) as [E|E]; [apply nth_In; auto|auto|].
      apply HS in E. lia.
  - cbn [changes_from]. replace (Z.abs (1 - 1)) with 0%Z by lia.
    rewrite Z.add_0_l, IH. split.
    + intros [b Hb]. exists (S b). apply run_at_cons. split; [lia|].
      intros i Hi. rewrite (Hb i Hi). lia.
    + intros [b Hb]. apply run_at_cons in Hb. destruct Hb as [H0 HS].
      exists (pred b). intros i Hi. rewrite (HS i Hi).
      assert (0 < b) by (apply H0; auto). lia.
Qed.

(** The padded column changes value at most twice exactly when its ones
    form at most one run. *)
Lemma changes_two_iff l :
  binary_row l -> (changes_from 0 l <= 2)%Z <-> single_run l.
Proof.
  unfold single_run.
  induction 1 as [|x l [Hx|Hx] Hl IH]; subst.
  - simpl. split; [|lia]. intros _. exists 0, 0. intros i Hi; simpl in Hi; lia.
  - cbn [changes_from]. replace (Z.abs (0 - 0)) with 0%Z by lia.
    rewrite Z.add_0_l, IH. split.
    + intros (a & b & Hab). exists (S a), (S b). apply run_at_cons. split; [lia|].
      intros i Hi. rewrite (Hab i Hi). lia.
    + intros (a & b & Hab). apply run_at_cons in Hab. destruct Hab as [H0 HS].
      destruct a as [|a].
      * assert (b = 0) by (destruct b; auto; exfalso;
                           assert (0%Z = 1%Z) by (apply H0; lia); lia).
        subst b. exists 0, 0. intros i Hi. rewrite (HS i Hi). lia.
      * exists a, (pred b). intros i Hi. rewrite (HS i Hi). lia.
  - cbn [changes_from]. replace (Z.abs (1 - 0)) with 1%Z by lia.
    transitivity (changes_from 1 l <= 1)%Z; [split; lia|].
    rewrite (changes_one_iff Hl). split.
    + intros [b Hb]. exists 0, (S b). apply run_at_cons. split; [lia|].
      intros i Hi. rewrite (Hb i Hi). lia.
    + intros (a & b & Hab). apply run_at_cons in Hab. destruct Hab as [H0 HS].
      assert (a = 0 /\ 0 < b) as [-> Hb] by (apply H0; auto).
      exists (pred b). intros i Hi. rewrite (HS i Hi). lia.
Qed.

(** On 0/1 entries the sum of absolute differences counts the changes. *)
Lemma changes_from_count p l :
  (p = 0 \/ p = 1)%Z -> binary_row l ->
  changes_from p l = Z.of_nat (count_changes (p :: l ++ [0%Z])).
Proof.
  intros Hp Hl. revert p Hp. induction Hl as [|x l Hx Hl IH]; intros p Hp.
  - simpl. destruct Hp; subst; reflexivity.
  - cbn [changes_from]. rewrite (IH x Hx).
    change (count_changes (p :: (x :: l) ++ [0%Z]))
      with ((if (p =? x)%Z then 0 else 1) + count_changes (x :: l ++ [0%Z])).
    destruct (Z.eqb_spec p x); destruct Hp, Hx; subst; lia.
Qed.

Definition rectangular (ct : ndarray) : Prop :=
  Forall (fun r => length r = shape1 ct) (rows ct).

Lemma binary_table_rectangular ct : binary_table ct -> rectangular ct.
Proof. apply Forall_impl. tauto. Qed.

Lemma binary_table_column ct j :
  binary_table ct -> j < shape1 ct -> binary_row (column ct j).
Proof.
  unfold binary_table, column, binary_row. intros H Hj.
  induction H as [|r m [Hlen Hr] _ IH]; simpl; constructor; auto.
  apply (proj1 (Forall_forall _ r) Hr). apply nth_In. lia.
Qed.

Lemma forallb_nth (f : Z -> bool) l :
  forallb f l = true <-> (forall j, j < length l -> f (nth j l 0%Z) = true).
Proof.
  rewrite forallb_forall. split.
  - intros H j Hj. apply H, nth_In, Hj.
  - intros H x Hx. destruct (In_nth l x 0%Z Hx) as (j & Hj & <-). auto.
Qed.

(** The predicate of the code, column by column. *)
Lemma can_be_connected_columns ct :
  rectangular ct ->
  can_be_connected_with_single_buffer ct = true <->
  (forall j, j < shape1 ct -> (changes_from 0 (column ct j) <= 2)%Z).
Proof.
  intros Hrect. unfold can_be_connected_with_single_buffer.
  set (w := shape1 ct) in *.
  assert (Hpad : Forall (fun r => length r = w) (repeat 0%Z w :: rows ct ++ [repeat 0%Z w])).
  { constructor; [apply repeat_length|]. apply Forall_app. split; [exact Hrect|].
    constructor; [apply repeat_length | constructor]. }
  pose proof (np_diff0_rect Hpad) as Hd.
  rewrite forallb_nth, (sum_axis0_length Hd).
  assert (Hcol : forall j, j < w ->
            nth j (sum_axis0 w (map (map Z.abs)
                     (np_diff0 (repeat 0%Z w :: rows ct ++ [repeat 0%Z w])))) 0%Z
            = changes_from 0 (column ct j)).
  { intros j Hj. rewrite (sum_axis0_nth Hd Hj).
    rewrite diff_column; auto.
    - rewrite nth_repeat. reflexivity.
    - constructor; [apply repeat_length | exact Hrect]. }
  split; intros H j Hj.
  - rewrite <- (Hcol j Hj). apply Z.leb_le. auto.
  - rewrite (Hcol j Hj). apply Z.leb_le. auto.
Qed.

(** Every column has its ones in at most one contiguous run of rows. *)
Definition contiguous_columns (ct : ndarray) : Prop :=
  forall j, j < shape1 ct -> single_run (column ct j).

Lemma can_be_connected_contiguous ct :
  binary_table ct ->
  can_be_connected_with_single_buffer ct = true <-> contiguous_columns ct.
Proof.
  intros Hb. rewrite (can_be_connected_columns (binary_table_rectangular Hb)).
  split; intros H j Hj; specialize (H j Hj);
    apply (changes_two_iff (binary_table_column Hb Hj)); exact H.
Qed.

(** C4. For every 0/1 matrix, [can_be_connected_with_single_buffer]
    returns true if and only if in every column the ones form at most one
    contiguous run of rows; equivalently, if and only if every column,
    padded with one zero above and one below, changes value at most twice. *)
Theorem can_be_connected_iff_single_run (ct : ndarray) :
  binary_table ct ->
  (can_be_connected_with_single_buffer ct = true <->
   forall j, j < shape1 ct -> single_run (column ct j)) /\
  (can_be_connected_with_single_buffer ct = true <->
   forall j, j < shape1 ct ->
             count_changes (0%Z :: column ct j ++ [0%Z]) <= 2).
Proof.
  intros Hb. split; [apply (can_be_connected_contiguous Hb)|].
  rewrite (can_be_connected_columns (binary_table_rectangular Hb)).
  split; intros H j Hj; specialize (H j Hj);
    pose proof (binary_table_column Hb Hj) as Hcol.
  - rewrite (changes_from_count (or_introl eq_refl) Hcol) in H. lia.
  - rewrite (changes_from_count (or_introl eq_refl) Hcol). lia.
Qed.

Definition table_101 : ndarray :=
  mk_ndarray 2 [[1; 0]; [0; 1]; [1; 1]]%Z.

Lemma table_101_binary : binary_table table_101.
Proof.
  unfold binary_table, binary_row.
  repeat (apply Forall_cons || apply Forall_nil || split); auto.
Qed.

Lemma can_be_connected_iff_single_run_witness :
  binary_table table_101 /\
  ((can_be_connected_with_single_buffer table_101 = true <->
    forall j, j < shape1 table_101 -> single_run (column table_101 j)) /\
   (can_be_connected_with_single_buffer table_101 = true <->
    forall j, j < shape1 table_101 ->
              count_changes (0%Z :: column table_101 j ++ [0%Z]) <= 2)).
Proof.
  split; [apply table_101_binary|].
  apply (can_be_connected_iff_single_run table_101_binary).
Defined.

(** ** The permutations tried by the solver *)

Lemma selections_In {A : Type} (x : A) r l :
  In (x, r) (selections l) <-> exists l1 l2, l = l1 ++ x :: l2 /\ r = l1 ++ l2.
Proof.
  revert r; induction l as [|y l IH]; intros r; simpl.
  - split; [tauto|]. intros (l1 & l2 & H & _). destruct l1; discriminate.
  - split.
    + intros [H|H].
      * inversion H; subst. exists [], r. auto.
      * apply in_map_iff in H. destruct H as ([z r'] & Heq & Hin).
        inversion Heq; subst. apply IH in Hin.
        destruct Hin as (l1 & l2 & -> & ->). exists (y :: l1), l2. auto.
    + intros (l1 & l2 & Hl & ->). destruct l1 as [|z l1]; simpl in Hl.
      * inversion Hl; subst. left. reflexivity.
      * inversion Hl; subst. right. apply in_map_iff.
        exists (x, l1 ++ l2). split; [reflexivity|].
        apply IH. exists l1, l2. auto.
Qed.

Lemma permutations_fuel_In {A : Type} n (l p : list A) :
  length l = n -> In p (permutations_fuel n l) <-> Permutation l p.
Proof.
  revert l p; induction n as [|n IH]; intros l p Hlen.
  - destruct l; [|discriminate]. simpl. split.
    + intros [<-|[]]. constructor.
    + intros H. apply Permutation_nil in H. auto.
  - simpl. rewrite in_flat_map. split.
    + intros ([x r] & Hsel & Hin). apply in_map_iff in Hin.
      destruct Hin as (p' & <- & Hp'). apply selections_In in Hsel.
      destruct Hsel as (l1 & l2 & -> & ->).
      apply IH in Hp'; [|rewrite length_app in *; simpl in Hlen; lia].
      apply Permutation_sym, Permutation_cons_app, Permutation_sym, Hp'.
    + intros H. destruct p as [|x p'].
      * apply Permutation_sym, Permutation_nil in H. subst; discriminate.
      * destruct (Permutation_vs_cons_inv H) as (l1 & l2 & ->).
        exists (x, l1 ++ l2). split.
        -- apply selections_In. exists l1, l2. auto.
        -- apply in_map, IH.
           ++ rewrite length_app in *; simpl in Hlen; lia.
           ++ apply Permutation_sym.
              apply (Permutation_cons_app_inv _ _ (Permutation_sym H)).
Qed.

(** [itertools.permutations] enumerates exactly the orderings of a list. *)
Lemma permutations_In {A : Type} (l p : list A) :
  In p (permutations l) <-> Permutation l p.
Proof. apply permutations_fuel_In. reflexivity. Qed.

Lemma pick_in_range {A : Type} (d : A) l perm :
  Forall (fun i => i < length l) perm ->
  pick l perm = Ok (map (fun i => nth i l d) perm).
Proof.
  induction 1 as [|i perm Hi _ IH]; simpl; [reflexivity|].
  rewrite IH. destruct (nth_error l i) eqn:E.
  - simpl. rewrite (nth_error_nth _ _ d E). reflexivity.
  - apply nth_error_None in E. lia.
Qed.

(** ** Units and their blocks of rows *)

(** A source unit together with its rows of the connection table. *)
Definition block : Type := (node * list (list Z))%type.

(** The units of a source list, each with the rows of its members. *)
Fixpoint blocks (units : list node) (rs : list (list Z)) : list block :=
  match units with
  | [] => []
  | u :: units' =>
      (u, firstn (length (members u)) rs)
        :: blocks units' (skipn (length (members u)) rs)
  end.

(** The table and the source list an ordering of the blocks stands for:
    every unit expands to its members in their fixed order. *)
Definition arranged_rows (bs : list block) : list (list Z) := concat (map snd bs).

Definition arranged_sources (bs : list block) : list node :=
  map Leaf (flatten (map fst bs)).

(** The block a nested index denotes. *)
Definition block_at (flat : list string) (rs : list (list Z)) (ix : nested nat) : block :=
  match ix with
  | Leaf i => (Leaf (nth i flat EmptyString), [nth i rs []])
  | Tuple js =>
      (Tuple (map (fun i => nth i flat EmptyString) js), map (fun i => nth i rs []) js)
  end.

Lemma block_at_members flat rs ix :
  members (fst (block_at flat rs ix)) = map (fun i => nth i flat EmptyString) (members ix)
  /\ snd (block_at flat rs ix) = map (fun i => nth i rs []) (members ix).
Proof. destruct ix; simpl; auto. Qed.

Lemma map_nth_seq_middle {A : Type} (d : A) pre l post :
  map (fun i => nth i (pre ++ l ++ post) d) (seq (length pre) (length l)) = l.
Proof.
  revert pre; induction l as [|x l IH]; intros pre; simpl; [reflexivity|].
  rewrite nth_middle. f_equal.
  specialize (IH (pre ++ [x])). rewrite length_app, Nat.add_1_r in IH.
  rewrite <- app_assoc in IH. exact IH.
Qed.

Lemma blocks_of_nested_indices units :
  forall pre_flat pre_rows rs,
    length pre_flat = length pre_rows ->
    length rs = length (flatten units) ->
    map (block_at (pre_flat ++ flatten units) (pre_rows ++ rs))
        (nested_indices_from (length pre_flat) units)
    = blocks units rs.
Proof.
  induction units as [|u units IH]; intros pre_flat pre_rows rs Hpre Hlen; [reflexivity|].
  unfold flatten in *. simpl flat_map in *. rewrite length_app in Hlen.
  set (n := length (members u)) in *.
  assert (Hrs : rs = firstn n rs ++ skipn n rs) by (symmetry; apply firstn_skipn).
  assert (Hn : length (firstn n rs) = n) by (rewrite length_firstn; lia).
  assert (Htail :
    map (block_at (pre_flat ++ members u ++ flat_map members units) (pre_rows ++ rs))
        (nested_indices_from (length pre_flat + n) units)
    = blocks units (skipn n rs)).
  { specialize (IH (pre_flat ++ members u) (pre_rows ++ firstn n rs) (skipn n rs)).
    rewrite !length_app, <- !app_assoc, <- Hrs in IH. fold n in IH.
    apply IH; [lia|]. rewrite length_skipn. lia. }
  destruct u as [s|l]; cbn [members length] in *; subst n;
    cbn [nested_indices_from map blocks members length].
  - rewrite Nat.add_1_r in Htail. rewrite Htail. f_equal.
    cbn [block_at]. change ([s] ++ flat_map members units) with (s :: flat_map members units).
    rewrite nth_middle. rewrite Hrs at 1. rewrite Hpre.
    destruct (firstn 1 rs) as [|r0 [|? ?]] eqn:E; simpl in Hn; try discriminate.
    cbn [app]. rewrite nth_middle. reflexivity.
  - rewrite Htail. f_equal. cbn [block_at]. apply f_equal2.
    + f_equal. apply map_nth_seq_middle.
    + pose proof (map_nth_seq_middle (@nil Z) pre_rows (firstn (length l) rs)
                                     (skipn (length l) rs)) as E.
      rewrite <- Hrs, Hn, <- Hpre in E. exact E.
Qed.

Lemma flatten_nested_indices {A : Type} (units : list (nested A)) k :
  flatten (nested_indices_from k units) = seq k (length (flatten units)).
Proof.
  unfold flatten. revert k; induction units as [|[a|l] units IH]; intros k;
    cbn [nested_indices_from flat_map members]; [reflexivity| |].
  - rewrite IH. reflexivity.
  - rewrite IH, length_app. symmetry. apply seq_app.
Qed.

Lemma arranged_rows_blocks units rs :
  length rs = length (flatten units) -> arranged_rows (blocks units rs) = rs.
Proof.
  unfold arranged_rows, flatten.
  revert rs; induction units as [|u units IH]; intros rs Hlen; simpl in *.
  - destruct rs; [reflexivity | discriminate].
  - rewrite length_app in Hlen. rewrite IH, firstn_skipn; [reflexivity|].
    rewrite length_skipn. lia.
Qed.

Lemma arranged_rows_permutation bs bs' :
  Permutation bs bs' -> Permutation (arranged_rows bs) (arranged_rows bs').
Proof.
  intros H. unfold arranged_rows. rewrite <- !flat_map_concat_map.
  apply Permutation_flat_map, H.
Qed.

(** The hub [permute_rows] returns when it accepts the ordering [p] of
    the nested indices. *)
Definition permuted (h : Hub) (p : list (nested nat)) : Hub :=
  mk_Hub (map Leaf (map (fun i => nth i (flatten (sources h)) EmptyString) (flatten p)))
         (sinks h) (btype h) (context_size h)
         (mk_ndarray (shape1 (connection_table h))
                     (map (fun i => nth i (rows (connection_table h)) []) (flatten p)))
         (sizes h) (size h).

Lemma try_permutations_spec h ps :
  shape0 (connection_table h) = length (flatten (sources h)) ->
  (forall p, In p ps -> Forall (fun i => i < length (flatten (sources h))) (flatten p)) ->
  match try_permutations h (flatten (sources h)) ps with
  | Ok h' =>
      exists p, In p ps /\ h' = permuted h p /\
                can_be_connected_with_single_buffer (connection_table h') = true
  | Raise e =>
      e = NetworkValidationError /\
      forall p, In p ps ->
                can_be_connected_with_single_buffer (connection_table (permuted h p)) = false
  | Unfinished => False
  end.
Proof.
  intros Hlen. unfold shape0 in Hlen.
  induction ps as [|p ps IH]; intros Hrange; cbn [try_permutations].
  - split; [reflexivity | intros p []].
  - assert (Hp := Hrange p (or_introl eq_refl)).
    unfold take_rows.
    rewrite (pick_in_range []) by (rewrite Hlen; exact Hp).
    cbn [bind].
    destruct (can_be_connected_with_single_buffer _) eqn:Hcan.
    + rewrite (pick_in_range EmptyString) by exact Hp. cbn [bind].
      exists p. split; [left; reflexivity|]. split; [reflexivity | exact Hcan].
    + assert (IH' := IH (fun q Hq => Hrange q (or_intror Hq))).
      destruct (try_permutations h (flatten (sources h)) ps) as [h'|e|].
      * destruct IH' as (q & Hq & Hh & Hc). exists q.
        split; [right; exact Hq | split; assumption].
      * destruct IH' as [-> Hall]. split; [reflexivity|].
        intros q [<-|Hq]; [exact Hcan | auto].
      * exact IH'.
Qed.

Lemma block_at_sources flat rs p :
  map (fun i => nth i flat EmptyString) (flatten p)
  = flatten (map fst (map (block_at flat rs) p)).
Proof.
  unfold flatten. induction p as [|ix p IH]; [reflexivity|].
  cbn [map flat_map]. rewrite map_app, IH.
  rewrite (proj1 (block_at_members flat rs ix)). reflexivity.
Qed.

Lemma block_at_rows flat rs p :
  map (fun i => nth i rs []) (flatten p)
  = arranged_rows (map (block_at flat rs) p).
Proof.
  unfold flatten, arranged_rows. induction p as [|ix p IH]; [reflexivity|].
  cbn [map flat_map concat]. rewrite map_app, IH.
  rewrite (proj2 (block_at_members flat rs ix)). reflexivity.
Qed.

(** Orderings of the nested indices and orderings of the blocks are the
    same thing. *)
Lemma permuted_of_blocks h p :
  let bs := map (block_at (flatten (sources h)) (rows (connection_table h))) p in
  sources (permuted h p) = arranged_sources bs /\
  rows (connection_table (permuted h p)) = arranged_rows bs.
Proof.
  cbn zeta. unfold permuted, arranged_sources. cbn [sources connection_table rows].
  split.
  - f_equal. apply block_at_sources.
  - apply block_at_rows.
Qed.

Lemma blocks_nested_indices h :
  shape0 (connection_table h) = length (flatten (sources h)) ->
  map (block_at (flatten (sources h)) (rows (connection_table h)))
      (convert_to_nested_indices (sources h))
  = blocks (sources h) (rows (connection_table h)).
Proof.
  intros Hlen. apply (blocks_of_nested_indices (sources h) [] [] _ eq_refl Hlen).
Qed.

(** ** The solver: [Hub.permute_rows] *)

(** An ordering of the source units of a hub, each with its rows. *)
Definition ordering (h : Hub) (bs : list block) : Prop :=
  Permutation (blocks (sources h) (rows (connection_table h))) bs.

(** The connection table under an ordering of the units. *)
Definition arranged_table (h : Hub) (bs : list block) : ndarray :=
  mk_ndarray (shape1 (connection_table h)) (arranged_rows bs).

(** A hub whose connection table is a 0/1 matrix with one row for every
    flat source. *)
Definition table_set_up (h : Hub) : Prop :=
  binary_table (connection_table h) /\
  shape0 (connection_table h) = length (flatten (sources h)).

Lemma arranged_table_binary h bs :
  table_set_up h -> ordering h bs -> binary_table (arranged_table h bs).
Proof.
  intros [Hb Hlen] Hord. unfold binary_table, arranged_table. cbn [rows shape1].
  apply arranged_rows_permutation in Hord.
  rewrite (arranged_rows_blocks _ _ Hlen) in Hord.
  apply (Permutation_Forall Hord). exact Hb.
Qed.

Lemma nested_indices_ordering h p :
  Permutation (convert_to_nested_indices (sources h)) p ->
  Forall (fun i => i < length (flatten (sources h))) (flatten p).
Proof.
  intros Hp. unfold flatten at 2.
  apply (Permutation_Forall (Permutation_flat_map members Hp)).
  fold (flatten (convert_to_nested_indices (sources h))).
  unfold convert_to_nested_indices. rewrite flatten_nested_indices.
  apply Forall_forall. intros i Hi. apply in_seq in Hi. lia.
Qed.

(** What [permute_rows] does on a hub whose table is set up: it accepts an
    ordering of the units under which every column is contiguous, or it
    raises the layout error and no ordering makes every column
    contiguous. *)
Lemma permute_rows_outcome h :
  table_set_up h ->
  match permute_rows h with
  | Ok h' =>
      exists bs, ordering h bs /\
                 sources h' = arranged_sources bs /\
                 connection_table h' = arranged_table h bs /\
                 contiguous_columns (connection_table h') /\
                 sinks h' = sinks h /\ btype h' = btype h /\
                 context_size h' = context_size h /\
                 sizes h' = sizes h /\ size h' = size h
  | Raise e =>
      e = NetworkValidationError /\
      forall bs, ordering h bs -> ~ contiguous_columns (arranged_table h bs)
  | Unfinished => False
  end.
Proof.
  intros Hset. pose proof Hset as [Hb Hlen]. unfold permute_rows.
  pose proof (try_permutations_spec h
                (permutations (convert_to_nested_indices (sources h))) Hlen) as Hspec.
  assert (Hrange : forall p,
             In p (permutations (convert_to_nested_indices (sources h))) ->
             Forall (fun i => i < length (flatten (sources h))) (flatten p)).
  { intros p Hp. apply nested_indices_ordering, permutations_In, Hp. }
  specialize (Hspec Hrange).
  assert (Hord : forall p,
             Permutation (convert_to_nested_indices (sources h)) p ->
             ordering h (map (block_at (flatten (sources h)) (rows (connection_table h))) p)).
  { intros p Hp. unfold ordering.
    rewrite <- (blocks_nested_indices h Hlen).
    apply Permutation_map, Hp. }
  assert (Htab : forall p,
             connection_table (permuted h p)
             = arranged_table h (map (block_at (flatten (sources h)) (rows (connection_table h))) p)).
  { intros p. unfold arranged_table.
    rewrite <- (proj2 (permuted_of_blocks h p)). reflexivity. }
  destruct (try_permutations h (flatten (sources h)) _) as [h'|e|].
  - destruct Hspec as (p & Hp & -> & Hcan).
    apply permutations_In in Hp.
    exists (map (block_at (flatten (sources h)) (rows (connection_table h))) p).
    split; [apply Hord, Hp|].
    split; [apply (proj1 (permuted_of_blocks h p))|].
    split; [apply Htab|].
    split; [|repeat split].
    rewrite Htab in *.
    apply can_be_connected_contiguous; [|exact Hcan].
    apply arranged_table_binary; auto.
  - destruct Hspec as [-> Hall]. split; [reflexivity|].
    intros bs Hbs Hcont.
    unfold ordering in Hbs.
    rewrite <- (blocks_nested_indices h Hlen) in Hbs.
    destruct (Permutation_map_inv _ _ (Permutation_sym Hbs)) as (p & -> & Hp).
    assert (Hin : In p (permutations (convert_to_nested_indices (sources h))))
      by (apply permutations_In, Hp).
    specialize (Hall p Hin). rewrite Htab in Hall.
    apply can_be_connected_contiguous in Hcont.
    + congruence.
    + apply arranged_table_binary; auto.
  - exact Hspec.
Qed.

(** ** The connection table: [Hub.set_up_connection_table] *)

Lemma list_set_length {A : Type} (l : list A) i v : length (list_set l i v) = length l.
Proof. revert i; induction l as [|x l IH]; intros [|i]; simpl; auto. Qed.

Lemma list_set_nth {A : Type} (d : A) l i v k :
  i < length l ->
  nth k (list_set l i v) d = if k =? i then v else nth k l d.
Proof.
  revert i k; induction l as [|x l IH]; intros [|i] [|k] Hi; simpl in *; try lia; auto.
  apply IH. lia.
Qed.

Lemma list_set_Forall {A : Type} (P : A -> Prop) l i v :
  Forall P l -> P v -> Forall P (list_set l i v).
Proof.
  intros Hl Hv. revert i; induction Hl as [|x l Hx Hl IH]; intros [|i]; simpl; auto.
Qed.

Lemma table_row ct i :
  binary_table ct -> i < shape0 ct ->
  length (nth i (rows ct) []) = shape1 ct /\ binary_row (nth i (rows ct) []).
Proof.
  intros Hb Hi. exact (proj1 (Forall_forall _ _) Hb _ (nth_In _ [] Hi)).
Qed.

Lemma set_entry_binary ct i j :
  binary_table ct -> i < shape0 ct -> binary_table (set_entry ct i j 1%Z).
Proof.
  intros Hb Hi. destruct (table_row Hb Hi) as [Hlen Hbin].
  unfold binary_table, set_entry. cbn [rows shape1].
  apply list_set_Forall; [exact Hb|].
  rewrite list_set_length. split; [exact Hlen|].
  apply list_set_Forall; auto.
Qed.

Lemma set_entry_shape ct i j v :
  shape0 (set_entry ct i j v) = shape0 ct /\ shape1 (set_entry ct i j v) = shape1 ct.
Proof. unfold shape0, set_entry. cbn [rows shape1]. rewrite list_set_length. auto. Qed.

Lemma set_entry_entry ct i j v i' j' :
  binary_table ct -> i < shape0 ct -> j < shape1 ct ->
  entry (set_entry ct i j v) i' j'
  = if (i' =? i) && (j' =? j) then v else entry ct i' j'.
Proof.
  intros Hb Hi Hj. destruct (table_row Hb Hi) as [Hlen _].
  unfold entry, set_entry. cbn [rows].
  rewrite (list_set_nth [] _ _ _ Hi).
  destruct (Nat.eqb_spec i' i) as [->|Hne]; cbn [andb]; [|reflexivity].
  apply list_set_nth. lia.
Qed.

Lemma np_zeros_binary n m : binary_table (np_zeros n m).
Proof.
  unfold binary_table, np_zeros. cbn [rows shape1].
  apply Forall_forall. intros r Hr. apply repeat_spec in Hr. subst r.
  split; [apply repeat_length|].
  apply Forall_forall. intros x Hx. apply repeat_spec in Hx. auto.
Qed.

Lemma np_zeros_entry n m i j : entry (np_zeros n m) i j = 0%Z.
Proof.
  unfold entry, np_zeros. cbn [rows].
  destruct (nth_in_or_default i (repeat (repeat 0%Z m) n) []) as [Hin | ->].
  - apply repeat_spec in Hin. rewrite Hin.
    destruct (nth_in_or_default j (repeat 0%Z m) 0%Z) as [H | ->]; [|reflexivity].
    apply repeat_spec in H. exact H.
  - destruct j; reflexivity.
Qed.

Lemma index_from_Some {A : Type} (eqb : A -> A -> bool) k x l i :
  index_from eqb k x l = Some i ->
  k <= i /\ i < k + length l /\
  exists y, nth_error l (i - k) = Some y /\ eqb y x = true.
Proof.
  revert k; induction l as [|y l IH]; intros k; simpl; [discriminate|].
  destruct (eqb y x) eqn:E.
  - intros [= <-]. rewrite Nat.sub_diag. split; [lia|split; [lia|]].
    exists y. auto.
  - intros H. apply IH in H. destruct H as (Hk & Hi & z & Hz & Ez).
    split; [lia|split; [lia|]]. exists z. split; [|exact Ez].
    replace (i - k) with (S (i - S k)) by lia. exact Hz.
Qed.

Lemma index_from_found {A : Type} (eqb : A -> A -> bool) k x l :
  existsb (fun y => eqb y x) l = true -> exists i, index_from eqb k x l = Some i.
Proof.
  revert k; induction l as [|y l IH]; intros k; simpl; [discriminate|].
  destruct (eqb y x); [eauto | apply IH].
Qed.

Lemma node_eqb_eq (a b : node) : node_eqb a b = true <-> a = b.
Proof.
  destruct a as [x|l], b as [y|m]; simpl; try (split; discriminate).
  - rewrite String.eqb_eq. split; congruence.
  - destruct (list_eq_dec string_dec l m); split; congruence.
Qed.

Lemma node_eqb_refl (a : node) : node_eqb a a = true.
Proof. apply node_eqb_eq. reflexivity. Qed.

Lemma node_eqb_sym (a b : node) : node_eqb a b = node_eqb b a.
Proof.
  destruct (node_eqb a b) eqn:E1, (node_eqb b a) eqn:E2; auto.
  - apply node_eqb_eq in E1. subst. rewrite node_eqb_refl in E2. discriminate.
  - apply node_eqb_eq in E2. subst. rewrite node_eqb_refl in E1. discriminate.
Qed.

Lemma contains_In x l : contains x l = true <-> In x l.
Proof.
  unfold contains. rewrite existsb_exists. split.
  - intros (y & Hy & E). apply node_eqb_eq in E. subst. exact Hy.
  - intros H. exists x. split; [exact H | apply node_eqb_refl].
Qed.

Lemma str_in_In s l : str_in s l = true <-> In s l.
Proof.
  unfold str_in. rewrite existsb_exists. split.
  - intros (y & Hy & E). apply String.eqb_eq in E. subst. exact Hy.
  - intros H. exists s. split; [exact H | apply String.eqb_refl].
Qed.

Lemma flatten_In {A : Type} (x : A) (units : list (nested A)) :
  In x (flatten units) <-> exists u, In u units /\ In x (members u).
Proof. unfold flatten. apply in_flat_map. Qed.

(** The connection [(start, stop)] sets the entry of row [i] and column
    [j]: [start] is an element of the source list, [stop] an element of
    the sink list, and [i] and [j] are their first positions in the flat
    source list and in the sink list. *)
Definition sets_entry (h : Hub) (c : string * string) (i j : nat) : Prop :=
  contains (Leaf (fst c)) (sources h) = true /\
  contains (Leaf (snd c)) (sinks h) = true /\
  index String.eqb (fst c) (flatten (sources h)) = Some i /\
  index node_eqb (Leaf (snd c)) (sinks h) = Some j.

Definition some_sets_entry (h : Hub) (connections : list (string * string))
           (i j : nat) : Prop :=
  exists c, In c connections /\ sets_entry h c i j.

Lemma connect_step h ct c :
  binary_table ct ->
  shape0 ct = length (flatten (sources h)) ->
  shape1 ct = length (sinks h) ->
  exists ct', connect h (flatten (sources h)) ct c = Ok ct' /\
              binary_table ct' /\ shape0 ct' = shape0 ct /\ shape1 ct' = shape1 ct /\
              forall i j, entry ct' i j = 1%Z <->
                          (entry ct i j = 1%Z \/ sets_entry h c i j).
Proof.
  intros Hb H0 H1. destruct c as [start stop]. unfold connect, sets_entry. cbn [fst snd].
  destruct (contains (Leaf start) (sources h)) eqn:Es; cbn [andb];
    [destruct (contains (Leaf stop) (sinks h)) eqn:Et|].
  - assert (Hfs : existsb (fun y => String.eqb y start) (flatten (sources h)) = true).
    { apply contains_In in Es. apply existsb_exists. exists start.
      split; [|apply String.eqb_refl].
      apply flatten_In. exists (Leaf start). split; [exact Es | left; reflexivity]. }
    assert (Hft : existsb (fun y => node_eqb y (Leaf stop)) (sinks h) = true).
    { apply contains_In in Et. apply existsb_exists. exists (Leaf stop).
      split; [exact Et | apply node_eqb_refl]. }
    destruct (@index_from_found _ String.eqb 0 start _ Hfs) as [i0 Ei].
    destruct (@index_from_found _ node_eqb 0 (Leaf stop) _ Hft) as [j0 Ej].
    unfold index. rewrite Ei, Ej. cbn [of_option bind].
    pose proof (@index_from_Some _ _ _ _ _ _ Ei) as (_ & Hi0 & _).
    pose proof (@index_from_Some _ _ _ _ _ _ Ej) as (_ & Hj0 & _).
    simpl in Hi0, Hj0. rewrite <- H0 in Hi0. rewrite <- H1 in Hj0.
    exists (set_entry ct i0 j0 1%Z).
    split; [reflexivity|]. split; [apply set_entry_binary; auto|].
    split; [apply set_entry_shape|]. split; [apply set_entry_shape|].
    intros i j. rewrite (set_entry_entry _ _ _ Hb Hi0 Hj0).
    destruct (Nat.eqb_spec i i0) as [->|Hi]; destruct (Nat.eqb_spec j j0) as [->|Hj];
      cbn [andb]; (split; [auto 6 | intros [H|(_ & _ & Ha & Hc)]; [auto | congruence]]).
  - exists ct. split; [reflexivity|]. repeat split; auto.
    intros [H|(_ & [=] & _)]. exact H.
  - exists ct. split; [reflexivity|]. repeat split; auto.
    intros [H|([=] & _)]. exact H.
Qed.

Lemma connect_loop h connections :
  forall ct,
    binary_table ct ->
    shape0 ct = length (flatten (sources h)) ->
    shape1 ct = length (sinks h) ->
    exists ct', for_each (connect h (flatten (sources h))) connections ct = Ok ct' /\
                binary_table ct' /\ shape0 ct' = shape0 ct /\ shape1 ct' = shape1 ct /\
                forall i j, entry ct' i j = 1%Z <->
                            (entry ct i j = 1%Z \/ some_sets_entry h connections i j).
Proof.
  induction connections as [|c connections IH]; intros ct Hb H0 H1; cbn [for_each].
  - exists ct. repeat split; auto. intros [H|(c & [] & _)]. exact H.
  - destruct (connect_step h c Hb H0 H1) as (ct1 & -> & Hb1 & E0 & E1 & Hent1).
    cbn [bind].
    destruct (IH ct1 Hb1) as (ct2 & -> & Hb2 & F0 & F1 & Hent2); try congruence.
    exists ct2. split; [reflexivity|]. split; [exact Hb2|].
    split; [congruence|]. split; [congruence|].
    intros i j. rewrite Hent2, Hent1. unfold some_sets_entry. split.
    + intros [[H|H]|(c' & Hin & H)]; auto.
      * right. exists c. split; [left; reflexivity | exact H].
      * right. exists c'. split; [right; exact Hin | exact H].
    + intros [H|(c' & [<-|Hin] & H)]; auto.
      right. exists c'. auto.
Qed.

(** [set_up_connection_table] never raises; it builds a 0/1 matrix with
    one row for every flat source and one column for every sink, whose
    ones are the entries set by the connections. *)
Lemma set_up_connection_table_spec h connections :
  exists ct,
    set_up_connection_table h connections
    = Ok (mk_Hub (sources h) (sinks h) (btype h) (context_size h) ct
                 (sizes h) (size h)) /\
    binary_table ct /\
    shape0 ct = length (flatten (sources h)) /\
    shape1 ct = length (sinks h) /\
    forall i j, entry ct i j = 1%Z <-> some_sets_entry h connections i j.
Proof.
  unfold set_up_connection_table.
  destruct (connect_loop h connections
              (np_zeros_binary (length (flatten (sources h))) (length (sinks h))))
    as (ct & -> & Hb & H0 & H1 & Hent).
  - unfold shape0, np_zeros. cbn [rows]. apply repeat_length.
  - reflexivity.
  - exists ct. split; [reflexivity|]. split; [exact Hb|].
    split; [rewrite H0; unfold shape0, np_zeros; cbn [rows]; apply repeat_length|].
    split; [rewrite H1; reflexivity|].
    intros i j. rewrite Hent, np_zeros_entry. split; [intros [H|H]; [discriminate|exact H] | auto].
Qed.

(** The pattern of three producers and three consumers in which every
    pair of producers shares a consumer. *)
Definition array_of_size (i : nat) (n : Z) : layout :=
  convert_to_array_json (mk_ShapeTemplate 0 n None) i.

Definition abc_layout : layout :=
  buffer_view None
    [("A", array_of_size 0 2); ("B", array_of_size 1 3); ("C", array_of_size 2 4)]%string.

Definition abc_sources : list node := [Leaf "A"; Leaf "B"; Leaf "C"]%string.
Definition xyz_sinks : list node := [Leaf "X"; Leaf "Y"; Leaf "Z"]%string.

Definition pairwise_connections : list (string * string) :=
  [("A", "X"); ("B", "X"); ("B", "Y"); ("C", "Y"); ("A", "Z"); ("C", "Z")]%string.

(** C1. For a hub whose connection table is set up, [Hub.permute_rows]
    accepts an ordering of the source units (each unit expanding to its
    members in their fixed order) under which every sink column is
    contiguous whenever at least one such ordering exists, and it raises
    the layout error if and only if no ordering of the units makes every
    column contiguous.  [Hub.setup] calls it on such a hub, whatever the
    hub and the connections.  For producers A, B, C and consumers X of A
    and B, Y of B and C, Z of A and C the error is raised. *)
Theorem permute_rows_finds_ordering_or_fails :
  (forall h : Hub,
      table_set_up h ->
      (forall h', permute_rows h = Ok h' ->
                  exists bs, ordering h bs /\
                             sources h' = arranged_sources bs /\
                             connection_table h' = arranged_table h bs /\
                             contiguous_columns (connection_table h')) /\
      ((exists bs, ordering h bs /\ contiguous_columns (arranged_table h bs)) ->
       exists h', permute_rows h = Ok h') /\
      (permute_rows h = Raise NetworkValidationError <->
       forall bs, ordering h bs -> ~ contiguous_columns (arranged_table h bs))) /\
  (forall (h : Hub) (connections : list (string * string)),
      exists h1, set_up_connection_table h connections = Ok h1 /\
                 table_set_up h1 /\
                 setup h connections = permute_rows h1) /\
  create abc_sources xyz_sinks abc_layout pairwise_connections
  = Raise NetworkValidationError.
Proof.
  split; [|split; [|reflexivity]].
  2: { intros h connections.
       destruct (set_up_connection_table_spec h connections)
         as (ct & E & Hb & H0 & _).
       eexists. split; [exact E|]. split; [split; assumption|].
       unfold setup. rewrite E. reflexivity. }
  intros h Hset. pose proof (permute_rows_outcome Hset) as Hout.
  destruct (permute_rows h) as [h1|e|]; [| |contradiction].
  - destruct Hout as (bs & Hord & Hsrc & Htab & Hcont & _).
    split; [|split].
    + intros h' [= <-]. exists bs. auto.
    + intros _. exists h1. reflexivity.
    + split; [discriminate|].
      intros Hnone. exfalso. apply (Hnone bs Hord). rewrite <- Htab. exact Hcont.
  - destruct Hout as [-> Hnone]. split; [|split].
    + discriminate.
    + intros (bs & Hord & Hcont). exfalso. exact (Hnone bs Hord Hcont).
    + split; auto.
Qed.

(** A hub with producers A, B, C and consumers X of A and B, Y of B and C. *)
Definition chain_hub : Hub :=
  mk_Hub abc_sources [Leaf "X"; Leaf "Y"]%string 0 0
         (mk_ndarray 2 [[1; 0]; [1; 1]; [0; 1]]%Z) [] (-1).

Lemma chain_hub_set_up : table_set_up chain_hub.
Proof.
  split; [|reflexivity].
  unfold binary_table, binary_row.
  repeat (apply Forall_cons || apply Forall_nil || split); auto.
Qed.

Lemma permute_rows_finds_ordering_or_fails_witness :
  table_set_up chain_hub /\
  (permute_rows chain_hub = Raise NetworkValidationError <->
   forall bs, ordering chain_hub bs ->
              ~ contiguous_columns (arranged_table chain_hub bs)).
Proof.
  split; [exact chain_hub_set_up|].
  apply (proj1 permute_rows_finds_ordering_or_fails chain_hub chain_hub_set_up).
Defined.

(** ** Hubs built by [Hub.create] *)

Lemma map_result_length {A B : Type} (f : A -> result B) l ys :
  map_result f l = Ok ys -> length ys = length l.
Proof.
  revert ys; induction l as [|x l IH]; intros ys; simpl.
  - intros [= <-]. reflexivity.
  - destruct (f x); try discriminate. cbn [bind].
    destruct (map_result f l); try discriminate. cbn [bind].
    intros [= <-]. simpl. f_equal. apply IH. reflexivity.
Qed.

Lemma map_result_nth {A B : Type} (f : A -> result B) l ys i x :
  map_result f l = Ok ys -> nth_error l i = Some x ->
  exists y, f x = Ok y /\ nth_error ys i = Some y.
Proof.
  revert ys i; induction l as [|a l IH]; intros ys i; simpl.
  - intros _ H. destruct i; discriminate.
  - destruct (f a) as [b| |] eqn:Ea; try discriminate. cbn [bind].
    destruct (map_result f l) as [bs| |]; try discriminate. cbn [bind].
    intros [= <-]. destruct i as [|i]; simpl.
    + intros [= <-]. exists b. auto.
    + intros H. apply (IH bs i eq_refl H).
Qed.

(** The hub [Hub.create] hands to [permute_rows]: the sorted sources and
    sinks with the connection table set up. *)
Record created (source_set sink_set : list node) (connections : list (string * string))
       (h1 hub : Hub) : Prop := mk_created {
  created_sources : sorted_nodes source_set = Ok (sources h1);
  created_sinks : sorted_nodes sink_set = Ok (sinks h1);
  created_nonempty : flatten source_set <> [];
  created_table : binary_table (connection_table h1);
  created_shape0 : shape0 (connection_table h1) = length (flatten (sources h1));
  created_shape1 : shape1 (connection_table h1) = length (sinks h1);
  created_entries :
    forall i j, entry (connection_table h1) i j = 1%Z
                <-> some_sets_entry h1 connections i j;
  created_permuted : exists h2, permute_rows h1 = Ok h2 /\
                                sources hub = sources h2 /\ sinks hub = sinks h2 /\
                                connection_table hub = connection_table h2;
  created_sizes : length (sizes hub) = length (sources hub);
  created_size : size hub = sum_ints (sizes hub)
}.

Lemma create_inv source_set sink_set lay connections hub :
  create source_set sink_set lay connections = Ok hub ->
  exists h1, created source_set sink_set connections h1 hub.
Proof.
  unfold create. intros H.
  destruct (map_result _ (flatten source_set)) as [btypes| |] eqn:Eb; try discriminate.
  cbn [bind] in H.
  destruct btypes as [|bt btypes]; [discriminate|].
  destruct (negb (min_eq_max (bt :: btypes))); [discriminate|].
  destruct (map_result _ (flatten source_set)) as [contexts| |] eqn:Ec in H;
    try discriminate.
  cbn [bind] in H.
  destruct (sorted_nodes source_set) as [srcs| |] eqn:Es; try discriminate.
  destruct (sorted_nodes sink_set) as [snks| |] eqn:Ek; try discriminate.
  cbn [bind] in H. unfold setup in H.
  set (h0 := Hub_init srcs snks bt (fold_right Nat.max 0 contexts)) in *.
  destruct (set_up_connection_table_spec h0 connections)
    as (ct & Eset & Hb & H0 & H1 & Hent).
  rewrite Eset in H. cbn [bind] in H.
  set (h1 := mk_Hub (sources h0) (sinks h0) (btype h0) (context_size h0) ct
                    (sizes h0) (size h0)) in *.
  destruct (permute_rows h1) as [h2| |] eqn:Ep; try discriminate.
  cbn [bind] in H.
  destruct (map_result _ (sources h2)) as [szs| |] eqn:Ez; try discriminate.
  cbn [bind] in H. injection H as <-.
  exists h1. constructor; cbn [sources sinks connection_table sizes size]; auto.
  - intros Hnil. rewrite Hnil in Eb. discriminate.
  - exists h2. auto.
  - apply (map_result_length _ _ Ez).
Qed.

Lemma created_set_up ss ks conns h1 hub :
  created ss ks conns h1 hub -> table_set_up h1.
Proof. intros C. split; [apply (created_table C) | apply (created_shape0 C)]. Qed.

(** The final hub is an ordering of the units of the hub that was set up,
    and every column of its table is contiguous. *)
Lemma created_ordering ss ks conns h1 hub :
  created ss ks conns h1 hub ->
  exists bs, ordering h1 bs /\
             sources hub = arranged_sources bs /\
             connection_table hub = arranged_table h1 bs /\
             binary_table (connection_table hub) /\
             contiguous_columns (connection_table hub) /\
             sinks hub = sinks h1.
Proof.
  intros C. destruct (created_permuted C) as (h2 & Ep & Es & Ek & Et).
  pose proof (permute_rows_outcome (created_set_up C)) as Hout.
  rewrite Ep in Hout. destruct Hout as (bs & Hord & Hs & Ht & Hc & Hk & _).
  exists bs. rewrite Es, Et, Ek, <- Ht.
  repeat split; auto.
  rewrite Ht. apply arranged_table_binary; [apply (created_set_up C) | exact Hord].
Qed.

(** ** Offsets and slices: [Hub.get_indices] *)

Lemma fold_left_add_acc (l : list Z) (a : Z) :
  fold_left Z.add l a = (a + fold_left Z.add l 0)%Z.
Proof.
  revert a; induction l as [|x l IH]; intros a; simpl; [lia|].
  rewrite (IH (a + x)%Z), (IH x). lia.
Qed.

Lemma sum_ints_cons x l : sum_ints (x :: l) = (x + sum_ints l)%Z.
Proof. unfold sum_ints. simpl. apply fold_left_add_acc. Qed.

Lemma sum_ints_app l m : sum_ints (l ++ m) = (sum_ints l + sum_ints m)%Z.
Proof.
  induction l as [|x l IH]; [reflexivity|].
  simpl app. rewrite !sum_ints_cons, IH. lia.
Qed.

Definition nonnegative (szs : list Z) : Prop := Forall (fun n => (0 <= n)%Z) szs.

Lemma sum_ints_nonnegative szs : nonnegative szs -> (0 <= sum_ints szs)%Z.
Proof.
  induction 1 as [|x l Hx _ IH]; [reflexivity|]. rewrite sum_ints_cons. lia.
Qed.

Lemma nonnegative_split k szs :
  nonnegative szs -> nonnegative (firstn k szs) /\ nonnegative (skipn k szs).
Proof.
  intros H. unfold nonnegative in *. rewrite <- (firstn_skipn k szs) in H.
  apply Forall_app in H. exact H.
Qed.

(** The sizes are element counts, and numpy's 64-bit integers hold their
    sum. *)
Definition fits_int64 (szs : list Z) : Prop :=
  nonnegative szs /\ (sum_ints szs < 2 ^ 63)%Z.

(** The offset of row [k]: the sum of the sizes of the sources before it. *)
Definition offset (h : Hub) (k : nat) : Z := sum_ints (firstn k (sizes h)).

Lemma cumsum_from_length d acc l : length (cumsum_from d acc l) = length l.
Proof. revert acc; induction l as [|x l IH]; intros acc; simpl; auto. Qed.

Lemma np_cumsum_length l : length (np_cumsum l) = length l.
Proof. apply cumsum_from_length. Qed.

Lemma wrap_int64_small z : (- 2 ^ 63 <= z < 2 ^ 63)%Z -> wrap_int64 z = z.
Proof. intros H. unfold wrap_int64. rewrite Z.mod_small by lia. lia. Qed.

Lemma dtype_of_int_small z : (0 <= z < 2 ^ 63)%Z -> dtype_of_int z = Int64.
Proof.
  intros H. unfold dtype_of_int.
  destruct (Z.leb_spec (- 2 ^ 63) z); [|lia].
  destruct (Z.ltb_spec z (2 ^ 63)); [reflexivity | lia].
Qed.

Lemma dtype_of_small l :
  Forall (fun z => (0 <= z < 2 ^ 63)%Z) l ->
  fold_left (fun d y => promote d (dtype_of_int y)) l Int64 = Int64.
Proof.
  induction 1 as [|x l Hx _ IH]; [reflexivity|].
  simpl. rewrite (dtype_of_int_small Hx). exact IH.
Qed.

(** While no running sum leaves the range of the 64-bit integers, they are
    the exact sums. *)
Lemma cumsum_from_exact acc l :
  (0 <= acc)%Z -> nonnegative l -> (acc + sum_ints l < 2 ^ 63)%Z ->
  cumsum_from Int64 acc l = cumsum_from Object acc l.
Proof.
  intros Hacc Hl. revert acc Hacc. induction Hl as [|x l Hx Hl IH]; intros acc Hacc Hs;
    [reflexivity|].
  rewrite sum_ints_cons in Hs. pose proof (sum_ints_nonnegative Hl).
  cbn [cumsum_from add_as]. rewrite wrap_int64_small by lia.
  f_equal. apply IH; lia.
Qed.

Lemma np_cumsum_exact szs :
  fits_int64 szs -> np_cumsum (0%Z :: szs) = cumsum_from Object 0%Z (0%Z :: szs).
Proof.
  intros [Hn Hs]. unfold np_cumsum.
  assert (Hd : dtype_of_list (0%Z :: szs) = Int64).
  { unfold dtype_of_list. change (dtype_of_int 0) with Int64. apply dtype_of_small.
    apply Forall_forall. intros x Hx.
    destruct (in_split _ _ Hx) as (l1 & l2 & ->).
    apply Forall_app in Hn. destruct Hn as [H1 H2].
    inversion H2 as [|? ? Hx0 H2']; subst.
    rewrite sum_ints_app, sum_ints_cons in Hs.
    pose proof (sum_ints_nonnegative H1). pose proof (sum_ints_nonnegative H2'). lia. }
  rewrite Hd. apply cumsum_from_exact; [lia | constructor; [lia | exact Hn] |].
  rewrite sum_ints_cons. lia.
Qed.

Lemma cumsum_from_nth acc szs k :
  k < length szs ->
  nth_error (cumsum_from Object acc szs) k
  = Some (acc + sum_ints (firstn (S k) szs))%Z.
Proof.
  revert acc k; induction szs as [|x szs IH]; intros acc k Hk; simpl in Hk; [lia|].
  destruct k as [|k]; cbn [cumsum_from nth_error add_as].
  - simpl firstn. rewrite sum_ints_cons. f_equal. unfold sum_ints. simpl. lia.
  - rewrite IH by lia. f_equal. change (firstn (S (S k)) (x :: szs)) with (x :: firstn (S k) szs).
    rewrite sum_ints_cons. lia.
Qed.

(** [idxs[k]] is the offset of row [k], for [k] up to the number of sizes. *)
Lemma idxs_nth h k :
  fits_int64 (sizes h) -> k <= length (sizes h) ->
  nth_error (np_cumsum (0%Z :: sizes h)) k = Some (offset h k).
Proof.
  intros Hf Hk. rewrite (np_cumsum_exact Hf). unfold offset. cbn [cumsum_from add_as].
  destruct k as [|k]; [reflexivity|].
  cbn [nth_error]. rewrite cumsum_from_nth by lia. reflexivity.
Qed.

(** The slices of consecutive buffers of the given sizes, from [acc] on. *)
Fixpoint slices_from (acc : Z) (szs : list Z) : list (Z * Z) :=
  match szs with
  | [] => []
  | x :: szs' => (acc, acc + x)%Z :: slices_from (acc + x) szs'
  end.

Lemma zip3_slices {A : Type} (srcs : list A) szs acc :
  length szs = length srcs ->
  map (fun '(source_name, start, stop) => (source_name, (start, stop)))
      (zip3 srcs (acc :: cumsum_from Object acc szs) (cumsum_from Object acc szs))
  = combine srcs (slices_from acc szs).
Proof.
  revert szs acc; induction srcs as [|s srcs IH]; intros [|x szs] acc Hlen;
    simpl in Hlen; try discriminate; [reflexivity|].
  cbn [cumsum_from add_as zip3 map slices_from combine]. f_equal. apply IH. lia.
Qed.

Lemma source_indices_slices h :
  fits_int64 (sizes h) -> length (sizes h) = length (sources h) ->
  source_indices h = combine (sources h) (slices_from 0 (sizes h)).
Proof.
  intros Hf Hlen. unfold source_indices. rewrite (np_cumsum_exact Hf).
  cbn [cumsum_from add_as tl].
  apply (zip3_slices (sources h) (sizes h) (0 + 0)%Z Hlen).
Qed.

(** Whatever the sizes, there is one slice per source. *)
Lemma source_indices_length h :
  length (sizes h) = length (sources h) ->
  length (source_indices h) = length (sources h).
Proof.
  intros Hlen. unfold source_indices. rewrite length_map.
  assert (Hl : length (np_cumsum (0%Z :: sizes h)) = S (length (sources h)))
    by (rewrite np_cumsum_length; simpl; lia).
  destruct (np_cumsum (0%Z :: sizes h)) as [|i idxs]; [discriminate|].
  cbn [tl]. simpl in Hl.
  revert Hl. generalize i. generalize idxs. generalize (sources h).
  induction l as [|x l IH]; intros [|y m] i0 Hl; simpl in *; try discriminate; try reflexivity.
  f_equal. apply IH. lia.
Qed.

Lemma slices_from_nth acc szs i x :
  nth_error szs i = Some x ->
  nth_error (slices_from acc szs) i
  = Some (acc + sum_ints (firstn i szs), acc + sum_ints (firstn i szs) + x)%Z.
Proof.
  revert acc i; induction szs as [|y szs IH]; intros acc [|i] H; simpl in H;
    try discriminate.
  - injection H as ->. simpl. unfold sum_ints. simpl. f_equal. f_equal; lia.
  - cbn [slices_from nth_error]. rewrite (IH _ _ H).
    change (firstn (S i) (y :: szs)) with (y :: firstn i szs).
    rewrite sum_ints_cons. f_equal. f_equal; lia.
Qed.

Lemma slices_from_bounds acc szs i s e :
  nonnegative szs ->
  nth_error (slices_from acc szs) i = Some (s, e) ->
  (acc <= s /\ s <= e /\ e <= acc + sum_ints szs)%Z.
Proof.
  intros Hn. revert acc i. induction Hn as [|y szs Hy Hn IH]; intros acc [|i] H;
    simpl in H; try discriminate; rewrite sum_ints_cons;
    pose proof (sum_ints_nonnegative Hn).
  - injection H as <- <-. lia.
  - apply IH in H. lia.
Qed.

(** Consecutive slices tile the range they span: every position lies in
    exactly one of them. *)
Lemma slices_from_tile acc szs p :
  nonnegative szs ->
  (acc <= p < acc + sum_ints szs)%Z ->
  exists i s e,
    nth_error (slices_from acc szs) i = Some (s, e) /\ (s <= p < e)%Z /\
    forall i' s' e',
      nth_error (slices_from acc szs) i' = Some (s', e') -> (s' <= p < e')%Z -> i' = i.
Proof.
  intros Hn. revert acc. induction Hn as [|y szs Hy Hn IH]; intros acc Hp.
  - unfold sum_ints in Hp. simpl in Hp. lia.
  - rewrite sum_ints_cons in Hp.
    destruct (Z.lt_ge_cases p (acc + y)) as [Hlt|Hge].
    + exists 0, acc, (acc + y)%Z. split; [reflexivity|]. split; [lia|].
      intros [|i'] s' e' H Hin; [reflexivity|].
      cbn [slices_from nth_error] in H. apply slices_from_bounds in H; [lia | exact Hn].
    + destruct (IH (acc + y)%Z) as (i & s & e & Hi & Hin & Huniq); [lia|].
      exists (S i), s, e. split; [exact Hi|]. split; [exact Hin|].
      intros [|i'] s' e' H Hin'.
      * injection H as <- <-. lia.
      * f_equal. apply (Huniq i' s' e' H Hin').
Qed.

(** *** The first and the last one of a column *)

Lemma argmax_from_one bi k l :
  binary_row l -> argmax_from 1 bi k l = bi.
Proof.
  intros Hl. revert k. induction Hl as [|x l [->| ->] _ IH]; intros k; simpl; auto.
Qed.

Lemma argmax_from_zero bi k l :
  binary_row l ->
  (Forall (fun x => x = 0%Z) l /\ argmax_from 0 bi k l = bi) \/
  (exists q, q < length l /\ nth q l 0%Z = 1%Z /\
             (forall i, i < q -> nth i l 0%Z = 0%Z) /\
             argmax_from 0 bi k l = k + q).
Proof.
  intros Hl. revert k. induction Hl as [|x l Hx Hl IH]; intros k.
  - left. split; [constructor | reflexivity].
  - destruct Hx as [-> | ->]; cbn [argmax_from Z.ltb Z.compare].
    + destruct (IH (S k)) as [[Hz E]|(q & Hq & H1 & H0 & E)].
      * left. split; [constructor; auto | exact E].
      * right. exists (S q). simpl. split; [lia|]. split; [exact H1|].
        split; [|lia]. intros [|i] Hi; [reflexivity | apply H0; lia].
    + right. exists 0. simpl. split; [lia|]. split; [reflexivity|].
      split; [intros i Hi; lia|]. rewrite (argmax_from_one _ _ Hl). lia.
Qed.

(** On a non-empty 0/1 column [np.argmax] is the position of the first
    one, and 0 when there is none. *)
Lemma np_argmax_binary c :
  binary_row c -> c <> [] ->
  (Forall (fun x => x = 0%Z) c /\ np_argmax c = Ok 0) \/
  (exists q, q < length c /\ nth q c 0%Z = 1%Z /\
             (forall i, i < q -> nth i c 0%Z = 0%Z) /\ np_argmax c = Ok q).
Proof.
  intros Hc Hne. destruct c as [|x l]; [contradiction|].
  inversion Hc as [|? ? Hx Hl]; subst. cbn [np_argmax].
  destruct Hx as [-> | ->].
  - destruct (argmax_from_zero 0 1 Hl) as [[Hz E]|(q & Hq & H1 & H0 & E)].
    + left. split; [constructor; auto | rewrite E; reflexivity].
    + right. exists (S q). simpl. split; [lia|]. split; [exact H1|].
      split; [|rewrite E; reflexivity].
      intros [|i] Hi; [reflexivity | apply H0; lia].
  - right. exists 0. simpl. split; [lia|]. split; [reflexivity|].
    split; [intros i Hi; lia|]. rewrite (argmax_from_one _ _ Hl). reflexivity.
Qed.

Lemma column_length ct j : length (column ct j) = shape0 ct.
Proof. unfold column, shape0. apply length_map. Qed.

Lemma column_nth ct i j : i < shape0 ct -> nth i (column ct j) 0%Z = entry ct i j.
Proof.
  intros Hi. unfold column, entry.
  rewrite (nth_indep _ 0%Z (nth j [] 0%Z)) by (rewrite length_map; exact Hi).
  apply (map_nth (fun r => nth j r 0%Z)).
Qed.

Lemma binary_row_rev c : binary_row c -> binary_row (rev c).
Proof. apply Forall_rev. Qed.

(** The slice of a sink reads the offsets at two rows: the rows 0 and [n]
    when its column has no one, and otherwise the first row with a one and
    the row after the last row with a one. *)
Lemma sink_slice_rows h idxs j :
  binary_table (connection_table h) ->
  j < shape1 (connection_table h) ->
  0 < shape0 (connection_table h) ->
  length idxs = S (shape0 (connection_table h)) ->
  let c := column (connection_table h) j in
  let n := shape0 (connection_table h) in
  (Forall (fun x => x = 0%Z) c /\
   sink_slice h idxs j = Ok (nth 0 idxs 0%Z, nth n idxs 0%Z)) \/
  (exists a b,
      a < b /\ b <= n /\ nth a c 0%Z = 1%Z /\ nth (b - 1) c 0%Z = 1%Z /\
      (forall i, i < a -> nth i c 0%Z = 0%Z) /\
      (forall i, b <= i -> i < n -> nth i c 0%Z = 0%Z) /\
      sink_slice h idxs j = Ok (nth a idxs 0%Z, nth b idxs 0%Z)).
Proof.
  intros Hb Hj Hn Hsz c n.
  assert (Hc : binary_row c) by (apply binary_table_column; auto).
  assert (Hlen : length c = n) by apply column_length.
  assert (Hne : c <> []) by (intros E; rewrite E in Hlen; simpl in Hlen; lia).
  assert (Hner : rev c <> []).
  { intros E. apply (f_equal (@length Z)) in E. rewrite length_rev in E.
    simpl in E. lia. }
  assert (Hidx : forall k, k <= n -> nth_error idxs k = Some (nth k idxs 0%Z))
    by (intros k Hk; apply nth_error_nth'; fold n in Hsz; lia).
  unfold sink_slice. fold c n.
  destruct (Nat.ltb_spec j (shape1 (connection_table h))) as [_|]; [|lia].
  destruct (np_argmax_binary Hc Hne) as [[Hz Ea]|(a & Ha & Ha1 & Ha0 & Ea)].
  - left. split; [exact Hz|].
    destruct (np_argmax_binary (binary_row_rev Hc) Hner)
      as [[_ Er]|(q & Hq & Hq1 & _)].
    + rewrite Ea, Er. cbn [bind]. rewrite Hidx by lia. cbn [of_option bind].
      rewrite Nat.sub_0_r, Hidx by lia. reflexivity.
    + exfalso. rewrite length_rev in Hq. rewrite rev_nth in Hq1 by exact Hq.
      apply all_zero_nth with (i := length c - S q) in Hz; lia.
  - right.
    destruct (np_argmax_binary (binary_row_rev Hc) Hner)
      as [[Hz _]|(q & Hq & Hq1 & Hq0 & Er)].
    + exfalso. apply Forall_rev in Hz. rewrite rev_involutive in Hz.
      apply all_zero_nth with (i := a) in Hz; lia.
    + rewrite length_rev in Hq. pose proof Hq1 as Hlast.
      rewrite rev_nth in Hlast by exact Hq.
      exists a, (n - q).
      assert (Hle : a <= length c - S q).
      { destruct (Nat.le_gt_cases a (length c - S q)) as [H|H]; [exact H|].
        rewrite (Ha0 _ H) in Hlast. discriminate. }
      split; [lia|]. split; [lia|]. split; [exact Ha1|].
      split; [replace (n - q - 1) with (length c - S q) by lia; exact Hlast|].
      split; [exact Ha0|]. split.
      * intros i Hi Hin.
        specialize (Hq0 (length c - S i)).
        rewrite rev_nth in Hq0 by lia.
        replace (length c - S (length c - S i)) with i in Hq0 by lia.
        apply Hq0. lia.
      * rewrite Ea, Er. cbn [bind]. rewrite Hidx by lia.
        cbn [of_option bind]. rewrite Hidx by lia. reflexivity.
Qed.

(** The slice of a sink of a hub whose sizes fit: the whole range when its
    column has no one, and otherwise from the offset of the first row with
    a one to the offset after the last row with a one. *)
Lemma sink_slice_spec h j :
  fits_int64 (sizes h) ->
  binary_table (connection_table h) ->
  j < shape1 (connection_table h) ->
  0 < shape0 (connection_table h) ->
  length (sizes h) = shape0 (connection_table h) ->
  let c := column (connection_table h) j in
  let n := shape0 (connection_table h) in
  (Forall (fun x => x = 0%Z) c /\
   sink_slice h (np_cumsum (0%Z :: sizes h)) j = Ok (0%Z, sum_ints (sizes h))) \/
  (exists a b,
      a < b /\ b <= n /\ nth a c 0%Z = 1%Z /\ nth (b - 1) c 0%Z = 1%Z /\
      (forall i, i < a -> nth i c 0%Z = 0%Z) /\
      (forall i, b <= i -> i < n -> nth i c 0%Z = 0%Z) /\
      sink_slice h (np_cumsum (0%Z :: sizes h)) j = Ok (offset h a, offset h b)).
Proof.
  intros Hf Hb Hj Hn Hsz c n.
  assert (Hidx : forall k, k <= n ->
                           nth k (np_cumsum (0%Z :: sizes h)) 0%Z = offset h k).
  { intros k Hk. apply nth_error_nth, idxs_nth; [exact Hf | fold n in Hsz; lia]. }
  assert (Hl : length (np_cumsum (0%Z :: sizes h)) = S (shape0 (connection_table h)))
    by (rewrite np_cumsum_length; simpl; lia).
  destruct (sink_slice_rows h (np_cumsum (0%Z :: sizes h)) Hb Hj Hn Hl)
    as [[Hz E]|(a & b & Hab & Hbn & Ha1 & Hb1 & Ha0 & Hb0 & E)].
  - left. split; [exact Hz|]. rewrite E, !Hidx by lia. unfold offset.
    fold n in Hsz. rewrite (@firstn_all2 _ n) by lia. reflexivity.
  - right. exists a, b. repeat (split; [assumption|]).
    rewrite E, !Hidx by (fold n in Hbn; lia). reflexivity.
Qed.

Lemma insert_sorted_permutation {A : Type} (leb : A -> A -> bool) x l :
  Permutation (insert_sorted leb x l) (x :: l).
Proof.
  induction l as [|y l IH]; simpl; [reflexivity|].
  destruct (leb x y); [reflexivity|].
  rewrite IH. apply perm_swap.
Qed.

Lemma stable_sort_permutation {A : Type} (leb : A -> A -> bool) l :
  Permutation (stable_sort leb l) l.
Proof.
  induction l as [|x l IH]; simpl; [constructor|].
  rewrite insert_sorted_permutation. constructor. exact IH.
Qed.

Lemma sorted_nodes_permutation l l' :
  sorted_nodes l = Ok l' -> Permutation l' l.
Proof.
  unfold sorted_nodes. destruct (_ && _); [discriminate|].
  intros [= <-]. apply stable_sort_permutation.
Qed.

Lemma flatten_permutation {A : Type} (l l' : list (nested A)) :
  Permutation l l' -> Permutation (flatten l) (flatten l').
Proof. apply Permutation_flat_map. Qed.

Lemma blocks_fst units rs : map fst (blocks units rs) = units.
Proof.
  revert rs; induction units as [|u units IH]; intros rs; simpl; [reflexivity|].
  rewrite IH. reflexivity.
Qed.

Lemma ordering_units h bs : ordering h bs -> Permutation (sources h) (map fst bs).
Proof.
  intros H. rewrite <- (blocks_fst (sources h) (rows (connection_table h))).
  apply Permutation_map, H.
Qed.

(** The shape of the table of a hub built by [Hub.create]. *)
Lemma created_shape ss ks conns h1 hub :
  created ss ks conns h1 hub ->
  shape0 (connection_table hub) = length (sources hub) /\
  shape1 (connection_table hub) = length (sinks hub) /\
  0 < shape0 (connection_table hub).
Proof.
  intros C. destruct (created_ordering C) as (bs & Hord & Hs & Ht & _ & _ & Hk).
  pose proof (created_set_up C) as [_ Hlen].
  assert (Hrows : shape0 (connection_table hub) = length (flatten (sources h1))).
  { rewrite Ht. unfold shape0, arranged_table. cbn [rows].
    rewrite <- (Permutation_length (arranged_rows_permutation Hord)).
    rewrite (arranged_rows_blocks _ _ Hlen). exact Hlen. }
  assert (Hsrc : length (sources hub) = length (flatten (sources h1))).
  { rewrite Hs. unfold arranged_sources. rewrite length_map.
    apply Permutation_length, Permutation_sym, flatten_permutation, ordering_units, Hord. }
  split; [congruence|]. split.
  - rewrite Ht, Hk. unfold arranged_table. cbn [shape1]. apply (created_shape1 C).
  - rewrite Hrows.
    pose proof (flatten_permutation (@sorted_nodes_permutation _ _ (created_sources C))) as Hp.
    destruct (flatten (sources h1)) eqn:E; [|simpl; lia].
    apply Permutation_nil in Hp. destruct (created_nonempty C Hp).
Qed.

(** On a hub built by [Hub.create], [get_indices] yields a slice for
    every source and for every sink. *)
Lemma created_get_indices ss ks conns h1 hub :
  created ss ks conns h1 hub ->
  exists snk, sink_indices hub = Ok snk /\
              get_indices hub = Ok (source_indices hub ++ snk) /\
              length snk = length (sinks hub).
Proof.
  intros C. destruct (created_shape C) as (H0 & H1 & Hpos).
  destruct (created_ordering C) as (_ & _ & _ & _ & Hb & _ & _).
  assert (Hsz : length (sizes hub) = shape0 (connection_table hub))
    by (rewrite H0; apply (created_sizes C)).
  assert (Hall : forall k l, k + length l = length (sinks hub) ->
            exists snk,
              map_result (sink_index hub (np_cumsum (0%Z :: sizes hub)))
                         (combine (seq k (length l)) l) = Ok snk /\
              length snk = length l).
  { assert (Hl : length (np_cumsum (0%Z :: sizes hub))
                 = S (shape0 (connection_table hub)))
      by (rewrite np_cumsum_length; simpl; lia).
    intros k l. revert k. induction l as [|x l IH]; intros k Hk.
    - exists []. split; reflexivity.
    - simpl in Hk. cbn [length seq combine map_result sink_index].
      assert (Hj : k < shape1 (connection_table hub)) by lia.
      destruct (sink_slice_rows hub _ Hb Hj Hpos Hl)
        as [[_ E]|(a & b & _ & _ & _ & _ & _ & _ & E)];
        rewrite E; cbn [bind];
        (destruct (IH (S k)) as (snk & -> & Hlen); [lia|]); cbn [bind];
        eexists; (split; [reflexivity | simpl; lia]). }
  destruct (Hall 0 (sinks hub) eq_refl) as (snk & E & Hlen).
  exists snk. unfold get_indices, sink_indices, enumerate_from. rewrite E.
  cbn [bind]. auto.
Qed.

Lemma combine_nth_error {A B : Type} (l : list A) (m : list B) i x y :
  nth_error (combine l m) i = Some (x, y) <->
  nth_error l i = Some x /\ nth_error m i = Some y.
Proof.
  revert m i; induction l as [|a l IH]; intros [|b m] [|i]; simpl;
    try (split; [discriminate | intros [? ?]; discriminate]).
  - split; [intros [= -> ->]; auto | intros [[= ->] [= ->]]; auto].
  - apply IH.
Qed.

Lemma nth_error_Some_lt {A : Type} (l : list A) i x :
  nth_error l i = Some x -> i < length l.
Proof. intros H. apply nth_error_Some. congruence. Qed.

Lemma slices_from_length acc szs : length (slices_from acc szs) = length szs.
Proof. revert acc; induction szs as [|x szs IH]; intros acc; simpl; auto. Qed.

(** The source slices of a hub whose sizes match its sources and fit. *)
Lemma source_indices_nth h i s a b :
  fits_int64 (sizes h) ->
  length (sizes h) = length (sources h) ->
  nth_error (source_indices h) i = Some (s, (a, b)) <->
  nth_error (sources h) i = Some s /\
  exists n, nth_error (sizes h) i = Some n /\ a = offset h i /\ b = (offset h i + n)%Z.
Proof.
  intros Hf Hlen. rewrite (source_indices_slices _ Hf Hlen), combine_nth_error.
  split; intros [Hs H]; (split; [exact Hs|]).
  - destruct (nth_error (sizes h) i) as [n|] eqn:En.
    + rewrite (slices_from_nth 0 _ _ En) in H. injection H as <- <-.
      exists n. unfold offset. auto.
    + apply nth_error_None in En. apply nth_error_Some_lt in H.
      rewrite slices_from_length in H. lia.
  - destruct H as (n & En & -> & ->). apply (slices_from_nth 0 _ _ En).
Qed.

(** The sizes of a hub built by [Hub.create] are the element counts of its
    sources, and its size is their sum. *)
Lemma create_sizes source_set sink_set lay connections hub :
  create source_set sink_set lay connections = Ok hub ->
  map_result (source_size lay) (sources hub) = Ok (sizes hub) /\
  size hub = sum_ints (sizes hub).
Proof.
  unfold create. intros H.
  destruct (map_result _ (flatten source_set)) as [btypes| |]; try discriminate.
  cbn [bind] in H.
  destruct btypes as [|bt btypes]; [discriminate|].
  destruct (negb (min_eq_max (bt :: btypes))); [discriminate|].
  destruct (map_result _ (flatten source_set)) as [contexts| |]; try discriminate.
  cbn [bind] in H.
  destruct (sorted_nodes source_set) as [srcs| |]; try discriminate.
  destruct (sorted_nodes sink_set) as [snks| |]; try discriminate.
  cbn [bind] in H.
  destruct (setup _ connections) as [h2| |]; try discriminate.
  cbn [bind] in H.
  destruct (map_result _ (sources h2)) as [szs| |] eqn:Ez; try discriminate.
  cbn [bind] in H. injection H as <-. cbn [sources sizes size]. auto.
Qed.

(** The claim on the source slices of a hub: the i-th source gets the
    range from the sum of the sizes of the sources before it to that sum
    plus its own size, and these ranges tile [0, hub.size): every position
    lies in exactly one of them and each of them lies inside. *)
Definition source_slices_tile (hub : Hub) : Prop :=
  (forall i s, nth_error (sources hub) i = Some s ->
               exists n, nth_error (sizes hub) i = Some n /\
                         nth_error (source_indices hub) i
                         = Some (s, (offset hub i, (offset hub i + n)%Z))) /\
  (forall p, (0 <= p < size hub)%Z ->
             exists i s a b,
               nth_error (source_indices hub) i = Some (s, (a, b)) /\
               (a <= p < b)%Z /\
               forall i' s' a' b',
                 nth_error (source_indices hub) i' = Some (s', (a', b')) ->
                 (a' <= p < b')%Z -> i' = i) /\
  (forall i s a b, nth_error (source_indices hub) i = Some (s, (a, b)) ->
                   (0 <= a <= b)%Z /\ (b <= size hub)%Z).

(** C2, amended.  For every hub built by [Hub.create], hub.sizes holds
    the element count of every source, in the order of the sources,
    hub.size is their sum, and [get_indices] yields one slice per source;
    when the element counts are not negative and their sum is below 2^63,
    the i-th source gets the range from the sum of the sizes of the sources
    before it to that sum plus its own size, and these ranges tile
    [0, hub.size). *)
Theorem source_slices_tile_hub
        (source_set sink_set : list node) (lay : layout)
        (connections : list (string * string)) (hub : Hub) :
  create source_set sink_set lay connections = Ok hub ->
  map_result (source_size lay) (sources hub) = Ok (sizes hub) /\
  size hub = sum_ints (sizes hub) /\
  length (sizes hub) = length (sources hub) /\
  (exists snk, get_indices hub = Ok (source_indices hub ++ snk)) /\
  length (source_indices hub) = length (sources hub) /\
  (fits_int64 (sizes hub) -> source_slices_tile hub).
Proof.
  intros Hc. destruct (create_inv _ _ _ _ Hc) as (h1 & C).
  pose proof (created_sizes C) as Hlen. pose proof (created_size C) as Hsize.
  destruct (created_get_indices C) as (snk & _ & Eg & _).
  split; [apply (create_sizes _ _ _ _ Hc)|].
  split; [exact Hsize|]. split; [exact Hlen|]. split; [exists snk; exact Eg|].
  split; [apply (source_indices_length _ Hlen)|].
  intros Hf. pose proof (proj1 Hf) as Hnn. split; [|split].
  - intros i s Hs.
    destruct (nth_error (sizes hub) i) as [n|] eqn:En.
    + exists n. split; [reflexivity|].
      apply source_indices_nth; [exact Hf | exact Hlen | eauto].
    + apply nth_error_None in En. apply nth_error_Some_lt in Hs. lia.
  - intros p Hp. rewrite Hsize in Hp.
    destruct (@slices_from_tile 0%Z (sizes hub) p Hnn)
      as (i & a & b & Hi & Hin & Huniq); [lia|].
    destruct (nth_error (sources hub) i) as [s|] eqn:Es.
    + exists i, s, a, b. rewrite (source_indices_slices _ Hf Hlen).
      split; [apply combine_nth_error; auto|]. split; [exact Hin|].
      intros i' s' a' b' H' Hin'. apply combine_nth_error in H'.
      apply (Huniq i' a' b' (proj2 H') Hin').
    + apply nth_error_None in Es. apply nth_error_Some_lt in Hi.
      rewrite slices_from_length in Hi. lia.
  - intros i s a b H. rewrite (source_indices_slices _ Hf Hlen) in H.
    apply combine_nth_error in H. destruct H as [_ H].
    apply slices_from_bounds in H; [|exact Hnn]. rewrite Hsize. lia.
Qed.

(** The scenario of the specification: producers A (2 elements), B (3),
    C (4), consumers X of A and B, Y of B and C. *)
Definition xy_sinks : list node := [Leaf "X"; Leaf "Y"]%string.

Definition chain_connections : list (string * string) :=
  [("A", "X"); ("B", "X"); ("B", "Y"); ("C", "Y")]%string.

Definition chain_created : Hub :=
  Eval vm_compute in
    match create abc_sources xy_sinks abc_layout chain_connections with
    | Ok h => h
    | _ => chain_hub
    end.


Example chain_created_indices :
  get_indices chain_created
  = Ok [(Leaf "A", (0, 2)%Z); (Leaf "B", (2, 5)%Z); (Leaf "C", (5, 9)%Z);
        (Leaf "X", (0, 5)%Z); (Leaf "Y", (2, 9)%Z)]%string.
Proof. reflexivity. Qed.

Lemma chain_created_fits : fits_int64 (sizes chain_created).
Proof. split; [repeat constructor; discriminate | reflexivity]. Qed.

Lemma source_slices_tile_hub_witness :
  create abc_sources xy_sinks abc_layout chain_connections = Ok chain_created /\
  fits_int64 (sizes chain_created) /\
  size chain_created = sum_ints (sizes chain_created) /\
  source_slices_tile chain_created.
Proof.
  split; [reflexivity|]. split; [exact chain_created_fits|].
  pose proof (source_slices_tile_hub abc_sources xy_sinks abc_layout
                chain_connections eq_refl) as (_ & Hs & _ & _ & _ & Ht).
  split; [exact Hs | exact (Ht chain_created_fits)].
Defined.

Definition ab_sources : list node := [Leaf "A"; Leaf "B"]%string.

(** Producers A and B of 2^62 elements each, both connected to the
    consumer X. *)
Definition huge_layout : layout :=
  buffer_view None
    [("A", array_of_size 0 (2 ^ 62)); ("B", array_of_size 1 (2 ^ 62))]%string.

Definition huge_connections : list (string * string) :=
  [("A", "X"); ("B", "X")]%string.

Definition huge_created : Hub :=
  Eval vm_compute in
    match create ab_sources [Leaf "X"%string] huge_layout huge_connections with
    | Ok h => h
    | _ => chain_hub
    end.

Example huge_created_indices :
  get_indices huge_created
  = Ok [(Leaf "A", (0, 2 ^ 62)%Z); (Leaf "B", (2 ^ 62, - 2 ^ 63)%Z);
        (Leaf "X", (0, - 2 ^ 63)%Z)]%string /\
  size huge_created = (2 ^ 63)%Z.
Proof. split; reflexivity. Qed.

(** C2 as stated fails on the hub of the forward closure of A: the
    offsets are 64-bit integers, and the sum of the two sizes wraps around
    to - 2^63; no source slice holds the position 2^62 of the hub. *)
Lemma source_slices_tile_counterexample :
  get_forward_closure (fun l => l) (Leaf "A"%string)
                      (merge_connections huge_connections [])
  = Ok (ab_sources, [Leaf "X"%string]) /\
  create ab_sources [Leaf "X"%string] huge_layout huge_connections = Ok huge_created /\
  ~ source_slices_tile huge_created.
Proof.
  split; [reflexivity|]. split; [reflexivity|]. intros (_ & Htile & _).
  destruct (Htile (2 ^ 62)%Z) as (i & s & a & b & Hi & Hin & _);
    [split; [discriminate | reflexivity]|].
  destruct i as [|[|[|i]]]; cbn in Hi; try discriminate;
    injection Hi as _ <- <-; lia.
Qed.

(** ** Sink slices of a hub built by [Hub.create] *)

Lemma created_rows ss ks conns h1 hub :
  created ss ks conns h1 hub ->
  Permutation (rows (connection_table h1)) (rows (connection_table hub)).
Proof.
  intros C. destruct (created_ordering C) as (bs & Hord & _ & Ht & _).
  rewrite Ht. unfold arranged_table. cbn [rows].
  rewrite <- (arranged_rows_blocks _ _ (created_shape0 C)) at 1.
  apply arranged_rows_permutation, Hord.
Qed.

Lemma enumerate_from_nth {A : Type} (l : list A) k j x :
  nth_error l j = Some x -> nth_error (enumerate_from k l) j = Some (k + j, x).
Proof.
  unfold enumerate_from. revert k j; induction l as [|a l IH]; intros k [|j] H;
    simpl in H; try discriminate.
  - injection H as ->. simpl. rewrite Nat.add_0_r. reflexivity.
  - cbn [length seq combine nth_error]. rewrite (IH (S k) j H). f_equal. f_equal. lia.
Qed.

(** The slice [get_indices] yields for the sink of column [j]. *)
Lemma sink_indices_nth h snk j sink :
  sink_indices h = Ok snk -> nth_error (sinks h) j = Some sink ->
  exists s, sink_slice h (np_cumsum (0%Z :: sizes h)) j = Ok s /\
            nth_error snk j = Some (sink, s).
Proof.
  unfold sink_indices. intros E Hj.
  destruct (@map_result_nth _ _ _ _ _ _ _ E (@enumerate_from_nth _ _ 0 _ _ Hj))
    as (y & Hy & Hn).
  cbn [sink_index Nat.add] in Hy.
  destruct (sink_slice h _ j) as [s| |]; try discriminate.
  cbn [bind] in Hy. injection Hy as <-. exists s. auto.
Qed.

(** The slices of the sinks carry the names of the sinks, in order. *)
Lemma sink_indices_names h idxs l :
  forall k snk,
    map_result (sink_index h idxs) (combine (seq k (length l)) l) = Ok snk ->
    map fst snk = l.
Proof.
  induction l as [|x l IH]; intros k snk; cbn [length seq combine map_result].
  - intros [= <-]. reflexivity.
  - cbn [sink_index]. destruct (sink_slice h idxs k) as [s| |]; try discriminate.
    cbn [bind].
    destruct (map_result _ _) as [ys| |] eqn:E; try discriminate. cbn [bind].
    intros [= <-]. cbn [map fst]. f_equal. apply (IH _ _ E).
Qed.

(** A connection whose producer is not itself an element of the source
    list sets no entry, whether or not it is a member of a forced-order
    tuple of that list. *)
Lemma sets_entry_source h c i j :
  sets_entry h c i j ->
  In (Leaf (fst c)) (sources h) /\ nth_error (sinks h) j = Some (Leaf (snd c)).
Proof.
  intros (Hs & _ & _ & Hj). split; [apply contains_In, Hs|].
  unfold index in Hj. apply index_from_Some in Hj.
  destruct Hj as (_ & _ & y & Hy & E). rewrite Nat.sub_0_r in Hy.
  apply node_eqb_eq in E. subst y. exact Hy.
Qed.

Lemma entry_binary ct i j : binary_table ct -> entry ct i j = 0%Z \/ entry ct i j = 1%Z.
Proof.
  intros Hb. unfold entry.
  destruct (nth_in_or_default i (rows ct) []) as [Hin | ->]; [|destruct j; auto].
  pose proof (proj1 (Forall_forall _ _) Hb _ Hin) as [_ Hr].
  destruct (nth_in_or_default j (nth i (rows ct) []) 0%Z) as [Hj | ->]; [|auto].
  exact (proj1 (Forall_forall _ _) Hr _ Hj).
Qed.

Lemma entry_row ct i j :
  entry ct i j <> 0%Z -> exists r, In r (rows ct) /\ nth j r 0%Z = entry ct i j.
Proof.
  unfold entry. intros H.
  destruct (nth_in_or_default i (rows ct) []) as [Hin | E].
  - exists (nth i (rows ct) []). auto.
  - rewrite E in H. destruct j; contradiction.
Qed.

Lemma row_entry ct r j :
  In r (rows ct) -> exists i, i < shape0 ct /\ nth j r 0%Z = entry ct i j.
Proof.
  intros Hin. destruct (In_nth _ _ [] Hin) as (i & Hi & E).
  exists i. split; [exact Hi|]. unfold entry. rewrite E. reflexivity.
Qed.

(** A column of the final table has a one exactly when the column of the
    table that was set up has one. *)
Lemma created_column_one ss ks conns h1 hub j :
  created ss ks conns h1 hub ->
  (exists i, entry (connection_table hub) i j = 1%Z) <->
  (exists i, entry (connection_table h1) i j = 1%Z).
Proof.
  intros C. pose proof (created_rows C) as Hp.
  split; intros (i & Hi).
  - destruct (@entry_row (connection_table hub) i j) as (r & Hr & E); [lia|].
    apply (Permutation_in _ (Permutation_sym Hp)) in Hr.
    destruct (@row_entry _ _ j Hr) as (i' & _ & E'). exists i'. congruence.
  - destruct (@entry_row (connection_table h1) i j) as (r & Hr & E); [lia|].
    apply (Permutation_in _ Hp) in Hr.
    destruct (@row_entry _ _ j Hr) as (i' & _ & E'). exists i'. congruence.
Qed.

Lemma created_sinks_eq ss ks conns h1 hub :
  created ss ks conns h1 hub -> sinks hub = sinks h1.
Proof. intros C. destruct (created_ordering C) as (bs & H). apply H. Qed.

Lemma created_table_binary ss ks conns h1 hub :
  created ss ks conns h1 hub -> binary_table (connection_table hub).
Proof. intros C. destruct (created_ordering C) as (bs & H). apply H. Qed.

(** A one in column [j] of the final table comes from a connection whose
    producer is an element of the source set and whose consumer is the
    sink of that column. *)
Lemma created_one_declared ss ks conns h1 hub i j :
  created ss ks conns h1 hub ->
  entry (connection_table hub) i j = 1%Z ->
  exists c, In c conns /\ In (Leaf (fst c)) ss /\
            nth_error (sinks hub) j = Some (Leaf (snd c)).
Proof.
  intros C Hi.
  destruct (proj1 (created_column_one j C) (ex_intro _ i Hi)) as (i' & Hi').
  apply (created_entries C) in Hi'. destruct Hi' as (c & Hin & Hset).
  apply sets_entry_source in Hset. destruct Hset as [Hs Hk].
  exists c. split; [exact Hin|]. split.
  - apply (Permutation_in _ (@sorted_nodes_permutation _ _ (created_sources C))), Hs.
  - rewrite (created_sinks_eq C). exact Hk.
Qed.

(** A 64-bit integer, and sizes that are 64-bit integers with a sum that
    is one. *)
Definition in_int64 (z : Z) : Prop := (- 2 ^ 63 <= z < 2 ^ 63)%Z.

Definition int64_sizes (szs : list Z) : Prop :=
  Forall in_int64 szs /\ in_int64 (sum_ints szs).

Lemma wrap_int64_add u y : wrap_int64 (wrap_int64 u + y) = wrap_int64 (u + y).
Proof.
  unfold wrap_int64. f_equal.
  replace ((u + 2 ^ 63) mod 2 ^ 64 - 2 ^ 63 + y + 2 ^ 63)%Z
    with ((u + 2 ^ 63) mod 2 ^ 64 + y)%Z by lia.
  rewrite Z.add_mod_idemp_l by lia. f_equal. lia.
Qed.

(** The running sums of 64-bit integers are the sums, wrapped around. *)
Lemma cumsum_from_wrap acc szs k :
  k < length szs ->
  nth_error (cumsum_from Int64 (wrap_int64 acc) szs) k
  = Some (wrap_int64 (acc + sum_ints (firstn (S k) szs))).
Proof.
  revert acc k; induction szs as [|x szs IH]; intros acc k Hk; simpl in Hk; [lia|].
  change (firstn (S k) (x :: szs)) with (x :: firstn k szs). rewrite sum_ints_cons.
  cbn [cumsum_from add_as]. rewrite wrap_int64_add.
  destruct k as [|k]; cbn [nth_error].
  - simpl firstn. unfold sum_ints at 1. simpl. do 2 f_equal. lia.
  - rewrite IH by lia. do 2 f_equal. lia.
Qed.

Lemma dtype_of_int64 l :
  Forall in_int64 l ->
  fold_left (fun d y => promote d (dtype_of_int y)) l Int64 = Int64.
Proof.
  induction 1 as [|x l Hx _ IH]; [reflexivity|].
  simpl. unfold dtype_of_int. unfold in_int64 in Hx.
  destruct (Z.leb_spec (- 2 ^ 63) x); [|lia].
  destruct (Z.ltb_spec x (2 ^ 63)); [exact IH | lia].
Qed.

(** The first and the last offset of a hub whose sizes are 64-bit
    integers with a sum that is one. *)
Lemma idxs_ends h :
  int64_sizes (sizes h) ->
  nth 0 (np_cumsum (0%Z :: sizes h)) 0%Z = 0%Z /\
  nth (length (sizes h)) (np_cumsum (0%Z :: sizes h)) 0%Z = sum_ints (sizes h).
Proof.
  intros [Hall Hsum]. unfold np_cumsum.
  replace (dtype_of_list (0%Z :: sizes h)) with Int64
    by (symmetry; apply (dtype_of_int64 Hall)).
  split; [reflexivity|].
  apply nth_error_nth. change 0%Z with (wrap_int64 0) at 1.
  rewrite cumsum_from_wrap by (simpl; lia).
  change (firstn (S (length (sizes h))) (0%Z :: sizes h))
    with (0%Z :: firstn (length (sizes h)) (sizes h)).
  rewrite firstn_all, sum_ints_cons. f_equal.
  replace (0 + (0 + sum_ints (sizes h)))%Z with (sum_ints (sizes h)) by lia.
  apply wrap_int64_small, Hsum.
Qed.

(** The claim on the sinks without a one: a sink whose column of the
    connection table holds no one gets the slice (0, hub.size). *)
Definition zero_columns_span (hub : Hub) : Prop :=
  forall snk j sink start stop,
    sink_indices hub = Ok snk ->
    nth_error snk j = Some (sink, (start, stop)) ->
    (forall i, entry (connection_table hub) i j = 0%Z) ->
    start = 0%Z /\ stop = size hub.

(** C10, amended.  On a hub built by [Hub.create] (it has at least one
    source) whose sizes, and their sum, are 64-bit integers, a sink whose
    column of the connection table holds no one gets the slice
    (0, hub.size).  A connection whose producer is not itself an element
    of the source set, as is the case for a member of a forced-order tuple,
    sets no entry: a sink all of whose connections are of that kind has an
    all-zero column, and when the source set holds forced-order tuples only
    every sink gets the whole range of the hub. *)
Theorem all_zero_column_spans_hub
        (source_set sink_set : list node) (lay : layout)
        (connections : list (string * string)) (hub : Hub) :
  create source_set sink_set lay connections = Ok hub ->
  (int64_sizes (sizes hub) -> zero_columns_span hub) /\
  forall j sink,
    nth_error (sinks hub) j = Some sink ->
    exists snk start stop,
      get_indices hub = Ok (source_indices hub ++ snk) /\
      nth_error snk j = Some (sink, (start, stop)) /\
      (int64_sizes (sizes hub) ->
       (forall i, entry (connection_table hub) i j = 0%Z) ->
       start = 0%Z /\ stop = size hub) /\
      ((forall c, In c connections -> sink = Leaf (snd c) ->
                  ~ In (Leaf (fst c)) source_set) ->
       forall i, entry (connection_table hub) i j = 0%Z) /\
      (int64_sizes (sizes hub) ->
       Forall (fun u => is_tuple u = true) source_set ->
       start = 0%Z /\ stop = size hub).
Proof.
  intros Hc. destruct (create_inv _ _ _ _ Hc) as (h1 & C).
  destruct (created_get_indices C) as (snk & Es & Eg & Hsnk).
  destruct (created_shape C) as (H0 & H1 & Hpos).
  pose proof (created_table_binary C) as Hb.
  assert (Hsz : length (sizes hub) = shape0 (connection_table hub))
    by (rewrite H0; apply (created_sizes C)).
  assert (Hl : length (np_cumsum (0%Z :: sizes hub))
               = S (shape0 (connection_table hub)))
    by (rewrite np_cumsum_length; simpl; lia).
  assert (Hzero : forall j s,
             int64_sizes (sizes hub) ->
             j < shape1 (connection_table hub) ->
             sink_slice hub (np_cumsum (0%Z :: sizes hub)) j = Ok s ->
             (forall i, entry (connection_table hub) i j = 0%Z) ->
             s = (0%Z, size hub)).
  { intros j s Hint Hjlt Eslice Hz. destruct (idxs_ends hub Hint) as [Efirst Elast].
    destruct (sink_slice_rows hub _ Hb Hjlt Hpos Hl)
      as [[_ E]|(a & b & Hab & Hbn & Ha1 & _)].
    - rewrite <- Efirst, (created_size C), <- Elast, Hsz. congruence.
    - rewrite column_nth in Ha1 by lia. rewrite Hz in Ha1. discriminate. }
  split.
  - intros Hint snk' j sink start stop Es' Hn Hz. rewrite Es in Es'. injection Es' as <-.
    assert (Hj : nth_error (sinks hub) j <> None).
    { apply nth_error_Some. rewrite <- Hsnk. apply (nth_error_Some_lt _ _ Hn). }
    destruct (nth_error (sinks hub) j) as [sink'|] eqn:Ej; [|contradiction].
    destruct (@sink_indices_nth _ _ _ _ Es Ej) as (s & Eslice & Hn').
    rewrite Hn in Hn'. injection Hn' as _ <-.
    assert (Hjlt : j < shape1 (connection_table hub))
      by (rewrite H1; apply (@nth_error_Some_lt _ _ _ _ Ej)).
    pose proof (Hzero j (start, stop) Hint Hjlt Eslice Hz) as [= -> ->]. auto.
  - intros j sink Hj.
    destruct (@sink_indices_nth _ _ _ _ Es Hj) as ([start stop] & Eslice & Hn).
    assert (Hjlt : j < shape1 (connection_table hub))
      by (rewrite H1; apply (@nth_error_Some_lt _ _ _ _ Hj)).
    assert (Hnone : (forall c, In c connections -> sink = Leaf (snd c) ->
                               ~ In (Leaf (fst c)) source_set) ->
                    forall i, entry (connection_table hub) i j = 0%Z).
    { intros Hno i. destruct (entry_binary i j Hb) as [E|E]; [exact E|].
      destruct (@created_one_declared _ _ _ _ _ _ _ C E) as (c & Hin & Hsrc & Hk).
      rewrite Hj in Hk. injection Hk as Hk.
      destruct (Hno c Hin Hk Hsrc). }
    exists snk, start, stop.
    assert (Hspan : int64_sizes (sizes hub) ->
                    (forall i, entry (connection_table hub) i j = 0%Z) ->
                    start = 0%Z /\ stop = size hub).
    { intros Hint Hz.
      pose proof (Hzero j (start, stop) Hint Hjlt Eslice Hz) as [= -> ->]. auto. }
    split; [exact Eg|]. split; [exact Hn|]. split; [exact Hspan|].
    split; [exact Hnone|].
    intros Hint Htup. apply (Hspan Hint), Hnone. intros c _ _ Hin.
    apply (proj1 (Forall_forall _ _) Htup) in Hin. discriminate.
Qed.

(** The parameters of one layer, a forced-order tuple, and the synthetic
    sink of the parameters. *)
Definition fc_parameters : list string := ["fc.parameters.W"; "fc.parameters.b"]%string.

Definition fc_layout : layout :=
  buffer_view None
    [("fc",
      buffer_view (Some 1)
        [("parameters",
          buffer_view (Some 2)
            [("W", array_of_size 0 12); ("b", array_of_size 1 3)])])]%string.

Definition fc_connections : list (string * string) :=
  [("fc.parameters.W", "parameters"); ("fc.parameters.b", "parameters")]%string.

Definition fc_created : Hub :=
  Eval vm_compute in
    match create [Tuple fc_parameters] [Leaf "parameters"%string] fc_layout
                 fc_connections with
    | Ok h => h
    | _ => chain_hub
    end.

Lemma fc_created_ok :
  create [Tuple fc_parameters] [Leaf "parameters"%string] fc_layout fc_connections
  = Ok fc_created.
Proof. reflexivity. Qed.

Lemma fc_created_int64 : int64_sizes (sizes fc_created).
Proof.
  split; [repeat constructor; discriminate | split; [discriminate | reflexivity]].
Qed.

Lemma all_zero_column_spans_hub_witness :
  create [Tuple fc_parameters] [Leaf "parameters"%string] fc_layout fc_connections
  = Ok fc_created /\
  int64_sizes (sizes fc_created) /\
  zero_columns_span fc_created /\
  get_indices fc_created
  = Ok [(Leaf "fc.parameters.W", (0, 12)%Z); (Leaf "fc.parameters.b", (12, 15)%Z);
        (Leaf "parameters", (0, 15)%Z)]%string.
Proof.
  split; [reflexivity|]. split; [exact fc_created_int64|].
  split; [|reflexivity].
  exact (proj1 (all_zero_column_spans_hub _ _ _ _ fc_created_ok) fc_created_int64).
Defined.

(** The parameters W and b of 2^62 elements each. *)
Definition huge_fc_layout : layout :=
  buffer_view None
    [("fc",
      buffer_view (Some 1)
        [("parameters",
          buffer_view (Some 2)
            [("W", array_of_size 0 (2 ^ 62)); ("b", array_of_size 1 (2 ^ 62))])])]%string.

Definition huge_fc_created : Hub :=
  Eval vm_compute in
    match create [Tuple fc_parameters] [Leaf "parameters"%string] huge_fc_layout
                 fc_connections with
    | Ok h => h
    | _ => chain_hub
    end.

(** C10 as stated fails on the hub of the parameters of one layer: the
    column of the sink 'parameters' holds no one, the hub has 2^63
    elements, and the slice of the sink ends at the 64-bit sum - 2^63. *)
Lemma all_zero_column_counterexample :
  get_forward_closure (fun l => l) (Tuple fc_parameters)
                      (merge_connections fc_connections [fc_parameters])
  = Ok ([Tuple fc_parameters], [Leaf "parameters"%string]) /\
  create [Tuple fc_parameters] [Leaf "parameters"%string] huge_fc_layout fc_connections
  = Ok huge_fc_created /\
  size huge_fc_created = (2 ^ 63)%Z /\
  get_indices huge_fc_created
  = Ok [(Leaf "fc.parameters.W", (0, 2 ^ 62)%Z);
        (Leaf "fc.parameters.b", (2 ^ 62, - 2 ^ 63)%Z);
        (Leaf "parameters", (0, - 2 ^ 63)%Z)]%string /\
  ~ zero_columns_span huge_fc_created.
Proof.
  split; [reflexivity|].
  split; [reflexivity|]. split; [reflexivity|]. split; [reflexivity|]. intros H.
  destruct (H [(Leaf "parameters"%string, (0, - 2 ^ 63)%Z)] 0 (Leaf "parameters"%string)
              0%Z (- 2 ^ 63)%Z eq_refl eq_refl) as [_ E].
  - intros [|[|[|i]]]; reflexivity.
  - discriminate.
Qed.

(** ** Hubs of plain endpoints *)

Definition plain (units : list node) : Prop := Forall (fun u => is_leaf u = true) units.

Lemma plain_flatten units : plain units -> units = map Leaf (flatten units).
Proof.
  unfold flatten. induction 1 as [|u units Hu _ IH]; [reflexivity|].
  destruct u as [s|l]; [|discriminate]. simpl. f_equal. exact IH.
Qed.

Lemma plain_blocks units rs :
  plain units -> length rs = length units ->
  blocks units rs = map (fun p => (fst p, [snd p])) (combine units rs).
Proof.
  intros Hp. revert rs. induction Hp as [|u units Hu _ IH]; intros rs Hlen; [reflexivity|].
  destruct u as [s|l]; [|discriminate].
  destruct rs as [|r rs]; [discriminate|].
  cbn [blocks members length firstn skipn combine map fst snd]. f_equal.
  apply IH. simpl in Hlen. lia.
Qed.

Lemma plain_arranged (ps : list (node * list Z)) :
  plain (map fst ps) ->
  arranged_sources (map (fun p => (fst p, [snd p])) ps) = map fst ps /\
  arranged_rows (map (fun p => (fst p, [snd p])) ps) = map snd ps.
Proof.
  unfold arranged_sources, arranged_rows, flatten.
  induction ps as [|[u r] ps IH]; intros Hp; [split; reflexivity|].
  inversion Hp as [|? ? Hu Hp']; subst. destruct (IH Hp') as [IH1 IH2].
  cbn [map fst snd flat_map concat app]. destruct u as [s|l]; [|discriminate].
  cbn [members app map]. rewrite IH1, IH2. split; reflexivity.
Qed.


Lemma combine_map_fst {A B : Type} (l : list A) (m : list B) :
  length l = length m -> map fst (combine l m) = l.
Proof.
  revert m; induction l as [|a l IH]; intros [|b m] H; simpl in *; try discriminate; auto.
  f_equal. apply IH. lia.
Qed.






Lemma offset_mono h i k :
  nonnegative (sizes h) -> i <= k -> (offset h i <= offset h k)%Z.
Proof.
  unfold offset. generalize (sizes h) as l. intros l Hn. revert i k.
  induction Hn as [|x l Hx Hn IH]; intros i k Hik.
  - rewrite !firstn_nil. lia.
  - destruct i as [|i].
    + apply (@sum_ints_nonnegative (firstn k (x :: l))).
      apply (proj1 (nonnegative_split k (Forall_cons x Hx Hn))).
    + destruct k as [|k]; [lia|].
      rewrite !firstn_cons, !sum_ints_cons. specialize (IH i k). lia.
Qed.


Lemma offset_bounds h k :
  nonnegative (sizes h) -> (0 <= offset h k <= sum_ints (sizes h))%Z.
Proof.
  intros Hn. unfold offset.
  destruct (nonnegative_split k Hn) as [H1 H2].
  pose proof (sum_ints_nonnegative H1). pose proof (sum_ints_nonnegative H2).
  rewrite <- (firstn_skipn k (sizes h)) at 3. rewrite sum_ints_app. lia.
Qed.

Lemma entry_one_lt ct i j : entry ct i j = 1%Z -> i < shape0 ct.
Proof.
  unfold entry, shape0. intros H.
  destruct (Nat.lt_ge_cases i (length (rows ct))) as [Hi|Hi]; [exact Hi|].
  rewrite (nth_overflow _ _ Hi) in H. destruct j; discriminate.
Qed.

(** The rows read for the slice of a sink whose column is contiguous and
    holds a one. *)
Lemma sink_slice_run_rows h idxs j :
  binary_table (connection_table h) ->
  contiguous_columns (connection_table h) ->
  j < shape1 (connection_table h) ->
  length idxs = S (shape0 (connection_table h)) ->
  (exists i, entry (connection_table h) i j = 1%Z) ->
  exists a b,
    a < b /\ b <= shape0 (connection_table h) /\
    sink_slice h idxs j = Ok (nth a idxs 0%Z, nth b idxs 0%Z) /\
    forall i, i < shape0 (connection_table h) ->
              (entry (connection_table h) i j = 1%Z <-> a <= i < b).
Proof.
  intros Hb Hcont Hj Hl (i1 & Hi1).
  pose proof (entry_one_lt _ _ _ Hi1) as Hi1n.
  destruct (sink_slice_rows h idxs Hb Hj)
    as [[Hz _]|(a & b & Hab & Hbn & Ha1 & Hb1 & Ha0 & Hb0 & E)];
    [lia | exact Hl | |].
  - apply all_zero_nth with (i := i1) in Hz; [|rewrite column_length; exact Hi1n].
    rewrite column_nth in Hz by exact Hi1n. congruence.
  - exists a, b. split; [exact Hab|]. split; [exact Hbn|]. split; [exact E|].
    destruct (Hcont j Hj) as (a' & b' & Hrun). unfold run_at in Hrun.
    rewrite column_length in Hrun.
    assert (Ha' : a' <= a < b') by (apply Hrun; [lia | exact Ha1]).
    assert (Hb' : a' <= b - 1 < b') by (apply Hrun; [lia | exact Hb1]).
    intros i Hi. rewrite <- column_nth by exact Hi. split.
    + intros H1.
      destruct (Nat.lt_ge_cases i a) as [Hlt|Hge]; [rewrite (Ha0 i Hlt) in H1; discriminate|].
      destruct (Nat.lt_ge_cases i b) as [Hlt|Hge']; [lia|].
      rewrite (Hb0 i Hge' Hi) in H1. discriminate.
    + intros Hin. apply Hrun; [exact Hi | lia].
Qed.


(** ** The slice of a sink and the slices of its producers *)







Lemma abc_sources_NoDup : NoDup abc_sources.
Proof.
  unfold abc_sources.
  repeat (constructor; [simpl; intuition discriminate|]). constructor.
Qed.

Lemma xy_sinks_NoDup : NoDup xy_sinks.
Proof.
  unfold xy_sinks.
  repeat (constructor; [simpl; intuition discriminate|]). constructor.
Qed.

Lemma abc_sources_plain : plain abc_sources.
Proof. repeat constructor. Qed.

(** ** Forced orders: [get_forced_orders] *)

Lemma enumerate_from_In {A : Type} (l : list A) k i x :
  In (i, x) (enumerate_from k l) <-> k <= i /\ nth_error l (i - k) = Some x.
Proof.
  unfold enumerate_from. revert k; induction l as [|a l IH]; intros k.
  - simpl. split; [tauto|]. intros [_ H]. destruct (i - k); discriminate.
  - cbn [length seq combine In]. rewrite IH. split.
    + intros [[= <- <-]|[Hk H]].
      * rewrite Nat.sub_diag. auto.
      * split; [lia|]. replace (i - k) with (S (i - S k)) by lia. exact H.
    + intros [Hk H]. destruct (Nat.eq_dec k i) as [->|Hne].
      * left. rewrite Nat.sub_diag in H. injection H as ->. reflexivity.
      * right. split; [lia|]. replace (i - k) with (S (i - S k)) in H by lia. exact H.
Qed.

(** A loop that only checks: it ends normally when every check passes and
    raises [e] when some check raises [e]. *)
Lemma for_each_check {A : Type} (body : unit -> A -> result unit) (e : exn) l :
  (forall x, In x l -> body tt x = Ok tt \/ body tt x = Raise e) ->
  (for_each body l tt = Ok tt /\ forall x, In x l -> body tt x = Ok tt) \/
  (for_each body l tt = Raise e /\ exists x, In x l /\ body tt x = Raise e).
Proof.
  induction l as [|a l IH]; intros Hbody; cbn [for_each].
  - left. split; [reflexivity | intros x []].
  - destruct (Hbody a (or_introl eq_refl)) as [Ea|Ea]; rewrite Ea; cbn [bind].
    + destruct IH as [[E Hall]|[E (x & Hx & Ex)]].
      * intros x Hx. apply Hbody. right. exact Hx.
      * left. split; [exact E|]. intros x [<-|Hx]; auto.
      * right. split; [exact E|]. exists x. split; [right; exact Hx | exact Ex].
    + right. split; [reflexivity|]. exists a. split; [left; reflexivity | exact Ea].
Qed.

Lemma intersects_In fo other :
  intersects fo other = true <-> exists p, In p fo /\ In p other.
Proof.
  unfold intersects. rewrite existsb_exists.
  split; intros (p & Hp & H); exists p; (split; [exact Hp|]); apply str_in_In; exact H.
Qed.

(** Two tuples at different positions of the list share an endpoint. *)
Definition overlapping (forced_orders : list (list string)) : Prop :=
  exists i j fo other p,
    i <> j /\ nth_error forced_orders i = Some fo /\
    nth_error forced_orders j = Some other /\ In p fo /\ In p other.

Lemma check_forced_orders_spec fos :
  (for_each (check_forced_order fos) (enumerate_from 0 fos) tt = Ok tt /\
   ~ overlapping fos) \/
  (for_each (check_forced_order fos) (enumerate_from 0 fos) tt
   = Raise (AssertionError AssertForcedOrdersOverlap) /\ overlapping fos).
Proof.
  set (e := AssertionError AssertForcedOrdersOverlap).
  assert (Hinner : forall i fo,
            (for_each (check_other i fo) (enumerate_from 0 fos) tt = Ok tt /\
             forall q, In q (enumerate_from 0 fos) -> check_other i fo tt q = Ok tt) \/
            (for_each (check_other i fo) (enumerate_from 0 fos) tt = Raise e /\
             exists q, In q (enumerate_from 0 fos) /\ check_other i fo tt q = Raise e)).
  { intros i fo. apply for_each_check. intros [j other] _. unfold check_other.
    destruct (i =? j); [auto|]. destruct (intersects fo other); auto. }
  destruct (@for_each_check _ (check_forced_order fos) e (enumerate_from 0 fos))
    as [[E Hall]|[E ([i fo] & Hin & Ex)]].
  - intros [i fo] _. unfold check_forced_order.
    destruct (Hinner i fo) as [[E _]|[E _]]; auto.
  - left. split; [exact E|].
    intros (i & j & fo & other & p & Hne & Hi & Hj & Hp1 & Hp2).
    assert (Hini : In (i, fo) (enumerate_from 0 fos))
      by (apply enumerate_from_In; rewrite Nat.sub_0_r; split; [lia | exact Hi]).
    assert (Hinj : In (j, other) (enumerate_from 0 fos))
      by (apply enumerate_from_In; rewrite Nat.sub_0_r; split; [lia | exact Hj]).
    specialize (Hall _ Hini). unfold check_forced_order in Hall.
    destruct (Hinner i fo) as [[_ Hq]|[E' _]]; [|congruence].
    specialize (Hq _ Hinj). unfold check_other in Hq.
    destruct (Nat.eqb_spec i j) as [|_]; [contradiction|].
    assert (Hint : intersects fo other = true) by (apply intersects_In; eauto).
    rewrite Hint in Hq. discriminate.
  - right. split; [exact E|]. unfold check_forced_order in Ex.
    destruct (Hinner i fo) as [[E' _]|[_ ([j other] & Hinj & Eq)]]; [congruence|].
    unfold check_other in Eq.
    destruct (Nat.eqb_spec i j) as [|Hne]; [discriminate|].
    destruct (intersects fo other) eqn:Hint; [|discriminate].
    apply intersects_In in Hint. destruct Hint as (p & Hp1 & Hp2).
    apply enumerate_from_In in Hin, Hinj. rewrite Nat.sub_0_r in Hin, Hinj.
    exists i, j, fo, other, p. tauto.
Qed.

(** Two layers whose dotted names make a parameter path of one equal to an
    internal path of the other. *)
Definition clashing_layers : list (string * Layer) :=
  [("a", mk_Layer [] [] [("internals.y", mk_ShapeTemplate 0 1 None)] [] []);
   ("a.parameters", mk_Layer [] [] [] [("y", mk_ShapeTemplate 0 1 None)] [])]%string.

(** C8. [get_forced_orders] raises its assertion error if and only if two
    tuples at different positions of the list of forced orders share an
    endpoint path, and otherwise returns that list; [create_layout] then
    raises this error as well, whatever the rest of the planner would do:
    the check comes first.  It is raised for the layers above. *)
Theorem get_forced_orders_raises_iff_overlap :
  (forall layers : list (string * Layer),
      (get_forced_orders layers = Raise (AssertionError AssertForcedOrdersOverlap)
       <-> overlapping (forced_order_tuples layers)) /\
      (get_forced_orders layers = Ok (forced_order_tuples layers)
       <-> ~ overlapping (forced_order_tuples layers)) /\
      (forall set_order,
          get_forced_orders layers = Raise (AssertionError AssertForcedOrdersOverlap) ->
          create_layout set_order layers
          = Raise (AssertionError AssertForcedOrdersOverlap))) /\
  get_forced_orders clashing_layers = Raise (AssertionError AssertForcedOrdersOverlap).
Proof.
  split; [|reflexivity].
  intros layers.
  destruct (check_forced_orders_spec (forced_order_tuples layers)) as [[E Hno]|[E Hov]].
  - assert (G : get_forced_orders layers = Ok (forced_order_tuples layers))
      by (unfold get_forced_orders; rewrite E; reflexivity).
    rewrite G. split; [split; [discriminate | contradiction]|].
    split; [split; auto|]. discriminate.
  - assert (G : get_forced_orders layers
                = Raise (AssertionError AssertForcedOrdersOverlap))
      by (unfold get_forced_orders; rewrite E; reflexivity).
    rewrite G. split; [split; auto|].
    split; [split; [discriminate | contradiction]|].
    intros set_order _. unfold create_layout. rewrite G. reflexivity.
Qed.

Lemma get_forced_orders_raises_iff_overlap_witness :
  get_forced_orders clashing_layers = Raise (AssertionError AssertForcedOrdersOverlap) /\
  create_layout (fun l => l) clashing_layers
  = Raise (AssertionError AssertForcedOrdersOverlap).
Proof.
  split; [reflexivity|].
  apply (proj2 (proj2 (proj1 get_forced_orders_raises_iff_overlap clashing_layers))
               (fun l => l)).
  reflexivity.
Defined.

(** ** The forward closure *)

(** The two sides of the bipartite graph of producers and consumers. *)
Inductive side : Type := Producer | Consumer.

(** The connected component of the seed [n]: [n] as a producer, the
    consumers of the producers in it and the producers of the consumers in
    it. *)
Inductive component (connections : list (node * node)) (n : node)
  : side -> node -> Prop :=
| component_seed : component connections n Producer n
| component_consumer a b :
    In (a, b) connections -> component connections n Producer a ->
    component connections n Consumer b
| component_producer a b :
    In (a, b) connections -> component connections n Consumer b ->
    component connections n Producer a.

(** A pair of sets closed under taking the consumers of its producers and
    the producers of its consumers. *)
Definition closed_pair (connections : list (node * node))
           (P Q : node -> Prop) : Prop :=
  forall a b, In (a, b) connections -> (P a -> Q b) /\ (Q b -> P a).

Section ForwardClosure.

Variable set_order : list node -> list node.
Hypothesis set_order_permutation : forall l, Permutation (set_order l) l.

Variable connections : list (node * node).

Lemma make_set_In x l : In x (make_set set_order l) <-> In x l.
Proof.
  unfold make_set. split; intros H.
  - apply (Permutation_in _ (set_order_permutation _)) in H.
    apply nodup_In in H. exact H.
  - apply (Permutation_in _ (Permutation_sym (set_order_permutation _))).
    apply nodup_In. exact H.
Qed.

Lemma make_set_NoDup l : NoDup (make_set set_order l).
Proof.
  unfold make_set.
  apply (Permutation_NoDup (Permutation_sym (set_order_permutation _))).
  apply NoDup_nodup.
Qed.

Lemma sinks_of_In y S :
  In y (sinks_of set_order connections S) <-> exists a, In (a, y) connections /\ In a S.
Proof.
  unfold sinks_of. rewrite make_set_In, in_map_iff. split.
  - intros ([a b] & <- & H). apply filter_In in H. destruct H as [Hin Hc].
    apply contains_In in Hc. exists a. auto.
  - intros (a & Hin & Ha). exists (a, y). split; [reflexivity|].
    apply filter_In. split; [exact Hin | apply contains_In; exact Ha].
Qed.

Lemma sources_of_In x T :
  In x (sources_of set_order connections T) <-> exists b, In (x, b) connections /\ In b T.
Proof.
  unfold sources_of. rewrite make_set_In, in_map_iff. split.
  - intros ([a b] & <- & H). apply filter_In in H. destruct H as [Hin Hc].
    apply contains_In in Hc. exists b. auto.
  - intros (b & Hin & Hb). exists (x, b). split; [reflexivity|].
    apply filter_In. split; [exact Hin | apply contains_In; exact Hb].
Qed.

Variable n : node.

(** The invariant of the loop. *)
Record closure_invariant (S T : list node) : Prop := mk_closure_invariant {
  inv_NoDup_sources : NoDup S;
  inv_NoDup_sinks : NoDup T;
  inv_seed : In n S;
  inv_sources_component : forall x, In x S -> component connections n Producer x;
  inv_sinks_component : forall y, In y T -> component connections n Consumer y;
  inv_sinks_reached : forall y, In y T -> exists a, In (a, y) connections /\ In a S;
  inv_sources_reached :
    (forall x, In x S -> exists b, In (x, b) connections /\ In b T) \/
    (T = [] /\ (forall x, In x S -> x = n) /\ forall b, ~ In (n, b) connections)
}.

Lemma closure_invariant_initial :
  closure_invariant (make_set set_order [n])
                    (sinks_of set_order connections (make_set set_order [n])).
Proof.
  assert (Hn : forall x, In x (make_set set_order [n]) <-> x = n).
  { intros x. rewrite make_set_In. simpl. split; [intros [H|[]]; auto | auto]. }
  constructor.
  - apply make_set_NoDup.
  - apply make_set_NoDup.
  - apply Hn. reflexivity.
  - intros x Hx. apply Hn in Hx. subst. constructor.
  - intros y Hy. apply sinks_of_In in Hy. destruct Hy as (a & Hin & Ha).
    apply Hn in Ha. subst. apply (component_consumer _ Hin). constructor.
  - intros y Hy. apply sinks_of_In in Hy. exact Hy.
  - destruct (sinks_of set_order connections (make_set set_order [n])) as [|b T] eqn:E.
    + right. split; [reflexivity|]. split; [intros x Hx; apply Hn; exact Hx|].
      intros b Hin.
      assert (Hb : In b (sinks_of set_order connections (make_set set_order [n])))
        by (apply sinks_of_In; exists n; split; [exact Hin | apply Hn; reflexivity]).
      rewrite E in Hb. destruct Hb.
    + left. intros x Hx. apply Hn in Hx. subst x.
      assert (Hb : In b (sinks_of set_order connections (make_set set_order [n])))
        by (rewrite E; left; reflexivity).
      pose proof Hb as Hb'. apply sinks_of_In in Hb'.
      destruct Hb' as (a & Hin & Ha). apply Hn in Ha. subst a.
      exists b. split; [exact Hin | rewrite <- E; exact Hb].
Qed.

Lemma empty_of_no_member {A : Type} (l : list A) : (forall x, ~ In x l) -> l = [].
Proof. destruct l as [|a l]; [reflexivity|]. intros H. destruct (H a). left. reflexivity. Qed.

(** When the seed has no consumer nothing is added. *)
Lemma closure_isolated S T :
  T = [] -> (forall x, In x S -> x = n) -> (forall b, ~ In (n, b) connections) ->
  sources_of set_order connections T = [] /\ sinks_of set_order connections S = [].
Proof.
  intros -> HS Hno. split; apply empty_of_no_member; intros x Hx.
  - apply sources_of_In in Hx. destruct Hx as (b & _ & []).
  - apply sinks_of_In in Hx. destruct Hx as (a & Hin & Ha).
    apply HS in Ha. subst a. exact (Hno x Hin).
Qed.

Lemma closure_invariant_bound S T :
  closure_invariant S T -> length S + length T <= 2 * length connections + 1.
Proof.
  intros I.
  assert (HT : length T <= length connections).
  { rewrite <- (length_map snd connections).
    apply NoDup_incl_length; [apply (inv_NoDup_sinks I)|].
    intros y Hy. destruct (inv_sinks_reached I y Hy) as (a & Hin & _).
    apply in_map_iff. exists (a, y). auto. }
  destruct (inv_sources_reached I) as [HS|(-> & HS & _)].
  - assert (length S <= length connections); [|lia].
    rewrite <- (length_map fst connections).
    apply NoDup_incl_length; [apply (inv_NoDup_sources I)|].
    intros x Hx. destruct (HS x Hx) as (b & Hin & _).
    apply in_map_iff. exists (x, b). auto.
  - assert (length S <= length [n]); [|simpl in *; lia].
    apply NoDup_incl_length; [apply (inv_NoDup_sources I)|].
    intros x Hx. left. symmetry. apply HS, Hx.
Qed.

(** One round that adopts the new sets keeps the invariant and makes the
    sets larger. *)
Lemma closure_step S T :
  closure_invariant S T ->
  (length S <? length (sources_of set_order connections T))
  || (length T <? length (sinks_of set_order connections S)) = true ->
  closure_invariant (sources_of set_order connections T)
                    (sinks_of set_order connections S) /\
  length S + length T
  < length (sources_of set_order connections T)
    + length (sinks_of set_order connections S).
Proof.
  intros I Hgrow.
  destruct (inv_sources_reached I) as [HS|(HT & HS & Hno)].
  - assert (HinclS : incl S (sources_of set_order connections T)).
    { intros x Hx. apply sources_of_In. apply HS, Hx. }
    assert (HinclT : incl T (sinks_of set_order connections S)).
    { intros y Hy. apply sinks_of_In. apply (inv_sinks_reached I), Hy. }
    pose proof (NoDup_incl_length (inv_NoDup_sources I) HinclS) as HlS.
    pose proof (NoDup_incl_length (inv_NoDup_sinks I) HinclT) as HlT.
    split.
    + constructor.
      * apply make_set_NoDup.
      * apply make_set_NoDup.
      * apply HinclS, (inv_seed I).
      * intros x Hx. apply sources_of_In in Hx. destruct Hx as (b & Hin & Hb).
        apply (component_producer _ Hin), (inv_sinks_component I), Hb.
      * intros y Hy. apply sinks_of_In in Hy. destruct Hy as (a & Hin & Ha).
        apply (component_consumer _ Hin), (inv_sources_component I), Ha.
      * intros y Hy. apply sinks_of_In in Hy. destruct Hy as (a & Hin & Ha).
        exists a. split; [exact Hin | apply HinclS, Ha].
      * left. intros x Hx. apply sources_of_In in Hx. destruct Hx as (b & Hin & Hb).
        exists b. split; [exact Hin | apply HinclT, Hb].
    + apply orb_true_iff in Hgrow. destruct Hgrow as [H|H]; apply Nat.ltb_lt in H; lia.
  - destruct (@closure_isolated S T HT HS Hno) as [E1 E2].
    rewrite E1, E2, HT in Hgrow. simpl in Hgrow.
    destruct (length S); discriminate.
Qed.

(** When neither set grows the pair is closed. *)
Lemma closure_final S T :
  closure_invariant S T ->
  (length S <? length (sources_of set_order connections T))
  || (length T <? length (sinks_of set_order connections S)) = false ->
  closed_pair connections (fun x => In x S) (fun y => In y T).
Proof.
  intros I Hstop. apply orb_false_iff in Hstop. destruct Hstop as [H1 H2].
  apply Nat.ltb_ge in H1, H2.
  assert (Hfwd : forall a b, In (a, b) connections -> In a S -> In b T).
  { intros a b Hin Ha.
    assert (HinclT : incl T (sinks_of set_order connections S)).
    { intros y Hy. apply sinks_of_In. apply (inv_sinks_reached I), Hy. }
    apply (NoDup_length_incl (inv_NoDup_sinks I) H2 HinclT).
    apply sinks_of_In. exists a. auto. }
  intros a b Hin. split; [apply Hfwd, Hin|]. intros Hb.
  destruct (inv_sources_reached I) as [HS|(HT & _)].
  - assert (HinclS : incl S (sources_of set_order connections T)).
    { intros x Hx. apply sources_of_In. apply HS, Hx. }
    apply (NoDup_length_incl (inv_NoDup_sources I) H1 HinclS).
    apply sources_of_In. exists b. auto.
  - rewrite HT in Hb. destruct Hb.
Qed.

(** The loop ends within its bound. *)
Lemma closure_loop_total fuel :
  forall S T,
    closure_invariant S T ->
    2 * length connections + 1 < fuel + (length S + length T) ->
    exists S' T',
      closure_loop set_order fuel connections S T = Ok (S', T') /\
      closure_invariant S' T' /\
      closed_pair connections (fun x => In x S') (fun y => In y T').
Proof.
  induction fuel as [|fuel IH]; intros S T I Hfuel.
  - pose proof (closure_invariant_bound I). lia.
  - cbn [closure_loop].
    destruct ((length S <? length (sources_of set_order connections T))
              || (length T <? length (sinks_of set_order connections S))) eqn:Hgrow.
    + destruct (closure_step I Hgrow) as [I' Hlt].
      apply (IH _ _ I'). lia.
    + exists S, T. split; [reflexivity|]. split; [exact I|].
      apply (closure_final I Hgrow).
Qed.

(** The component is inside every closed pair that holds the seed. *)
Lemma component_least (P Q : node -> Prop) :
  P n -> closed_pair connections P Q ->
  forall sd x, component connections n sd x ->
               match sd with Producer => P x | Consumer => Q x end.
Proof.
  intros Hn Hclosed sd x H. induction H as [|a b Hin _ IH|a b Hin _ IH].
  - exact Hn.
  - apply (proj1 (Hclosed a b Hin)), IH.
  - apply (proj2 (Hclosed a b Hin)), IH.
Qed.

(** What [get_forward_closure] returns. *)
Lemma get_forward_closure_spec :
  exists S T,
    get_forward_closure set_order n connections = Ok (S, T) /\
    closure_invariant S T /\
    closed_pair connections (fun x => In x S) (fun y => In y T).
Proof.
  unfold get_forward_closure.
  apply closure_loop_total; [apply closure_invariant_initial|].
  pose proof (inv_seed closure_invariant_initial) as Hn.
  destruct (make_set set_order [n]); [destruct Hn | simpl; lia].
Qed.

End ForwardClosure.

(** C6. For every seed node and every connection list
    [get_forward_closure] terminates and returns a pair of sets that has
    the seed among its sources, is closed under taking the consumers of
    its sources and the producers of its sinks, and is the smallest such
    pair: its sources and sinks are exactly the producers and consumers of
    the connected component of the seed. *)
Theorem get_forward_closure_is_component
        (set_order : list node -> list node)
        (n : node) (connections : list (node * node)) :
  (forall l, Permutation (set_order l) l) ->
  exists source_set sink_set,
    get_forward_closure set_order n connections = Ok (source_set, sink_set) /\
    NoDup source_set /\ NoDup sink_set /\
    In n source_set /\
    closed_pair connections (fun x => In x source_set) (fun y => In y sink_set) /\
    (forall P Q : node -> Prop,
        P n -> closed_pair connections P Q ->
        (forall x, In x source_set -> P x) /\ (forall y, In y sink_set -> Q y)) /\
    (forall x, In x source_set <-> component connections n Producer x) /\
    (forall y, In y sink_set <-> component connections n Consumer y).
Proof.
  intros Hperm.
  destruct (@get_forward_closure_spec set_order Hperm connections n)
    as (S & T & E & I & Hclosed).
  exists S, T. split; [exact E|].
  split; [apply (inv_NoDup_sources I)|]. split; [apply (inv_NoDup_sinks I)|].
  split; [apply (inv_seed I)|]. split; [exact Hclosed|].
  split; [|split].
  - intros P Q Hn HPQ. split.
    + intros x Hx.
      apply (@component_least connections n P Q Hn HPQ Producer x
                              (inv_sources_component I x Hx)).
    + intros y Hy.
      apply (@component_least connections n P Q Hn HPQ Consumer y
                              (inv_sinks_component I y Hy)).
  - intros x. split; [apply (inv_sources_component I)|].
    intros H.
    apply (@component_least connections n (fun x => In x S) (fun y => In y T)
                            (inv_seed I) Hclosed Producer x H).
  - intros y. split; [apply (inv_sinks_component I)|].
    intros H.
    apply (@component_least connections n (fun x => In x S) (fun y => In y T)
                            (inv_seed I) Hclosed Consumer y H).
Qed.

(** The chain A, B, C of the scenario above and a separate producer D. *)
Definition two_components : list (node * node) :=
  [(Leaf "A", Leaf "X"); (Leaf "B", Leaf "X"); (Leaf "B", Leaf "Y");
   (Leaf "C", Leaf "Y"); (Leaf "D", Leaf "W")]%string.

Example closure_of_A :
  get_forward_closure (fun l => l) (Leaf "A"%string) two_components
  = Ok ([Leaf "A"; Leaf "B"; Leaf "C"], [Leaf "X"; Leaf "Y"])%string.
Proof. reflexivity. Qed.

Lemma get_forward_closure_is_component_witness :
  (forall l : list node, Permutation ((fun l => l) l) l) /\
  exists source_set sink_set,
    get_forward_closure (fun l => l) (Leaf "A"%string) two_components
    = Ok (source_set, sink_set) /\
    In (Leaf "A"%string) source_set /\
    (forall x, In x source_set <-> component two_components (Leaf "A"%string) Producer x).
Proof.
  split; [intros l; apply Permutation_refl|].
  destruct (@get_forward_closure_is_component
              (fun l => l) (Leaf "A"%string) two_components
              (fun l => Permutation_refl l))
    as (S & T & E & _ & _ & Hn & _ & _ & HS & _).
  exists S, T. auto.
Defined.

(** ** Forced orders stay together *)

(** The solver permutes whole units: the sources of the hub it returns
    are the members of the units of the hub it was given, unit by unit. *)
Lemma permute_rows_units h h' :
  table_set_up h -> permute_rows h = Ok h' ->
  exists units, Permutation (sources h) units /\
                sources h' = map Leaf (flatten units).
Proof.
  intros Hset Hp. pose proof (permute_rows_outcome Hset) as Hout.
  rewrite Hp in Hout. destruct Hout as (bs & Hord & Hs & _).
  exists (map fst bs). split; [apply ordering_units, Hord | exact Hs].
Qed.

Lemma create_units ss ks lay conns hub :
  create ss ks lay conns = Ok hub ->
  exists units, Permutation ss units /\ sources hub = map Leaf (flatten units).
Proof.
  intros Hc. destruct (create_inv _ _ _ _ Hc) as (h1 & C).
  destruct (created_permuted C) as (h2 & Hp & Hs & _).
  destruct (permute_rows_units (created_set_up C) Hp) as (units & Hperm & Hu).
  exists units. split; [|congruence].
  rewrite <- Hperm. apply Permutation_sym.
  apply (@sorted_nodes_permutation _ _ (created_sources C)).
Qed.

(** The members of a tuple of the list are adjacent and in order in the
    flattened list. *)
Lemma flatten_tuple_adjacent {A : Type} (units : list (nested A)) g :
  In (Tuple g) units -> exists before after, flatten units = before ++ g ++ after.
Proof.
  intros H. apply in_split in H. destruct H as (l1 & l2 & ->).
  exists (flatten l1), (flatten l2). unfold flatten.
  rewrite flat_map_app. reflexivity.
Qed.

(** A unit of a source set is well formed for a list of forced orders: a
    plain endpoint that belongs to no forced order, or one of the forced
    orders. *)
Definition unit_of (forced_orders : list (list string)) (u : node) : Prop :=
  match u with
  | Leaf s => forall fo, In fo forced_orders -> ~ In s fo
  | Tuple g => In g forced_orders
  end.

Lemma merge_node_tuple fos g : merge_node fos (Tuple g) = Tuple g.
Proof. unfold merge_node. induction fos as [|fo fos IH]; simpl; auto. Qed.

Lemma merge_node_cons fo fos u :
  merge_node (fo :: fos) u
  = merge_node fos (if in_forced_order u fo then Tuple fo else u).
Proof. reflexivity. Qed.

(** A plain endpoint is replaced by the first forced order it belongs to. *)
Lemma merge_node_leaf fos s :
  (merge_node fos (Leaf s) = Leaf s /\ forall fo, In fo fos -> ~ In s fo) \/
  (exists fo, In fo fos /\ In s fo /\ merge_node fos (Leaf s) = Tuple fo).
Proof.
  induction fos as [|fo fos IH].
  - left. split; [reflexivity | intros fo []].
  - rewrite merge_node_cons. cbn [in_forced_order].
    destruct (str_in s fo) eqn:E.
    + right. exists fo. split; [left; reflexivity|].
      split; [apply str_in_In, E | apply merge_node_tuple].
    + destruct IH as [[Em Hno]|(fo' & Hin & Hs & Em)].
      * left. split; [exact Em|]. intros fo' [<-|Hin]; [|apply Hno, Hin].
        intros Hs. apply str_in_In in Hs. congruence.
      * right. exists fo'. split; [right; exact Hin|]. auto.
Qed.

Lemma merge_node_unit fos s : unit_of fos (merge_node fos (Leaf s)).
Proof.
  destruct (merge_node_leaf fos s) as [[-> Hno]|(fo & Hin & _ & ->)]; simpl; auto.
Qed.

Lemma place_source_units fos_all s acc fos :
  (forall fo, In fo fos -> In fo fos_all) ->
  (forall fo, In fo fos_all -> In fo fos \/ ~ In s fo) ->
  Forall (unit_of fos_all) acc ->
  Forall (unit_of fos_all) (place_source s acc fos).
Proof.
  revert acc. induction fos as [|fo fos IH]; intros acc Hsub Hdone Hacc; simpl.
  - apply Forall_app. split; [exact Hacc|]. constructor; [|constructor].
    simpl. intros fo Hfo. destruct (Hdone fo Hfo) as [[]|H]. exact H.
  - destruct (str_in s (flatten acc)); [exact Hacc|].
    destruct (str_in s fo) eqn:E.
    + apply Forall_app. split; [exact Hacc|]. constructor; [|constructor].
      simpl. apply Hsub. left. reflexivity.
    + apply IH; [intros fo' H; apply Hsub; right; exact H | | exact Hacc].
      intros fo' Hfo'. destruct (Hdone fo' Hfo') as [[<-|H]|H]; auto.
      right. intros Hs. apply str_in_In in Hs. congruence.
Qed.

Lemma get_all_sinks_and_sources_units fos conns lay all_sinks all_sources :
  get_all_sinks_and_sources fos conns lay = Ok (all_sinks, all_sources) ->
  Forall (unit_of fos) all_sources.
Proof.
  unfold get_all_sinks_and_sources. destruct conns as [|c conns]; [discriminate|].
  intros [= _ <-].
  assert (H : forall nodes acc,
             Forall (unit_of fos) acc ->
             Forall (unit_of fos)
                    (fold_left
                       (fun all_sources s =>
                          if str_in s (stable_sort String.leb (map snd (c :: conns)))
                          then all_sources
                          else place_source s all_sources fos)
                       nodes acc)).
  { induction nodes as [|s nodes IH]; intros acc Hacc; simpl; [exact Hacc|].
    apply IH. destruct (str_in s _); [exact Hacc|].
    apply place_source_units; auto. }
  apply H. constructor.
Qed.

Lemma merge_connections_units conns fos a b :
  In (a, b) (merge_connections conns fos) -> unit_of fos a.
Proof.
  unfold merge_connections. intros H. apply in_map_iff in H.
  destruct H as ([start stop] & [= <- _] & _). apply merge_node_unit.
Qed.

(** Distinct forced orders of a list without overlap share no endpoint. *)
Lemma forced_orders_disjoint fos g fo p :
  ~ overlapping fos -> In g fos -> In fo fos -> In p g -> In p fo -> g = fo.
Proof.
  intros Hno Hg Hfo Hpg Hpfo.
  apply In_nth_error in Hg, Hfo. destruct Hg as (i & Hi). destruct Hfo as (j & Hj).
  destruct (Nat.eq_dec i j) as [->|Hne]; [congruence|].
  destruct Hno. exists i, j, g, fo, p. auto.
Qed.

Lemma list_remove_incl x l l' : list_remove x l = Ok l' -> incl l' l.
Proof.
  revert l'; induction l as [|y l IH]; intros l'; simpl; [discriminate|].
  destruct (node_eqb y x).
  - intros [= <-]. apply incl_tl, incl_refl.
  - destruct (list_remove x l) as [l''| |]; try discriminate. cbn [bind].
    intros [= <-]. apply incl_cons; [left; reflexivity|].
    apply incl_tl, IH. reflexivity.
Qed.

Lemma remove_all_incl S : forall rem rem',
  for_each (fun r s => list_remove s r) S rem = Ok rem' -> incl rem' rem.
Proof.
  induction S as [|s S IH]; intros rem rem'; cbn [for_each].
  - intros [= <-]. apply incl_refl.
  - destruct (list_remove s rem) as [rem1| |] eqn:E; try discriminate. cbn [bind].
    intros H. apply (incl_tran (IH _ _ H)), (list_remove_incl _ _ E).
Qed.

Lemma component_producer_inv conns n x :
  component conns n Producer x -> x = n \/ exists b, In (x, b) conns.
Proof.
  intros H. inversion H; subst; [left; reflexivity | right; eauto].
Qed.

Lemma stable_sort_In {A : Type} (leb : A -> A -> bool) l x :
  In x (stable_sort leb l) <-> In x l.
Proof.
  split; apply Permutation_in;
    [|apply Permutation_sym]; apply stable_sort_permutation.
Qed.

Section Pipeline.

Variable set_order : list node -> list node.
Hypothesis set_order_permutation : forall l, Permutation (set_order l) l.

(** Every hub of [group_into_hubs] is built by [Hub.create] from the
    forward closure of one of the sources. *)
Lemma group_loop_hubs m_cons lay conns fuel :
  forall remaining hubs,
    group_loop set_order fuel remaining m_cons lay conns = Ok hubs ->
    forall hub, In hub hubs ->
                exists n S T,
                  In n remaining /\
                  get_forward_closure set_order n m_cons = Ok (S, T) /\
                  create S T lay conns = Ok hub.
Proof.
  induction fuel as [|fuel IH]; intros remaining hubs; cbn [group_loop];
    destruct remaining as [|n rest].
  - intros [= <-] hub [].
  - discriminate.
  - intros [= <-] hub [].
  - destruct (get_forward_closure set_order n m_cons) as [[S T]| |] eqn:Ec;
      try discriminate. cbn [bind].
    destruct (for_each _ S (n :: rest)) as [rem| |] eqn:Er; try discriminate.
    cbn [bind].
    destruct (create S T lay conns) as [hub0| |] eqn:Eh; try discriminate.
    cbn [bind].
    destruct (group_loop set_order fuel rem m_cons lay conns) as [hubs0| |] eqn:Eg;
      try discriminate.
    cbn [bind]. intros [= <-] hub [<-|Hin].
    + exists n, S, T. split; [left; reflexivity|]. auto.
    + destruct (IH rem hubs0 Eg hub Hin) as (n' & S' & T' & Hn' & H).
      exists n', S', T'. split; [|exact H].
      apply (remove_all_incl _ _ Er), Hn'.
Qed.

(** The units of the source set of a forward closure. *)
Lemma closure_units fos conns remaining n S T :
  Forall (unit_of fos) remaining -> In n remaining ->
  get_forward_closure set_order n (merge_connections conns fos) = Ok (S, T) ->
  Forall (unit_of fos) S.
Proof.
  intros Hrem Hn Ec.
  destruct (@get_forward_closure_spec set_order set_order_permutation
              (merge_connections conns fos) n) as (S' & T' & E & I & _).
  rewrite Ec in E. injection E as <- <-.
  apply Forall_forall. intros x Hx.
  destruct (component_producer_inv (inv_sources_component I x Hx)) as [->|(b & Hin)].
  - apply (proj1 (Forall_forall _ _) Hrem), Hn.
  - apply (merge_connections_units _ _ _ _ Hin).
Qed.

Lemma create_layout_inv layers hubs lay :
  create_layout set_order layers = Ok (hubs, lay) ->
  exists all_sinks all_sources hubs0,
    get_forced_orders layers = Ok (forced_order_tuples layers) /\
    ~ overlapping (forced_order_tuples layers) /\
    get_all_sinks_and_sources (forced_order_tuples layers) (get_connections layers)
                              (create_layout_stub layers)
    = Ok (all_sinks, all_sources) /\
    group_into_hubs set_order all_sources (forced_order_tuples layers)
                    (get_connections layers) (create_layout_stub layers)
    = Ok hubs0 /\
    hubs = stable_sort btype_leb hubs0.
Proof.
  unfold create_layout. intros H.
  destruct (check_forced_orders_spec (forced_order_tuples layers)) as [[E Hno]|[E _]].
  - assert (G : get_forced_orders layers = Ok (forced_order_tuples layers))
      by (unfold get_forced_orders; rewrite E; reflexivity).
    rewrite G in H. cbn [bind] in H.
    destruct (get_all_sinks_and_sources _ _ _) as [[all_sinks all_sources]| |] eqn:Ea;
      try discriminate.
    cbn [bind] in H.
    destruct (group_into_hubs _ _ _ _ _) as [hubs0| |] eqn:Eg; try discriminate.
    cbn [bind] in H.
    destruct (layout_hubs _ _) as [lay1| |]; try discriminate. cbn [bind] in H.
    destruct lay1 as [t i s c sl h children].
    destruct (dict_get _ children) as [parameters|]; try discriminate.
    cbn [of_option bind] in H.
    destruct (layout_slice parameters) as [param_slice|]; try discriminate.
    cbn [of_option bind] in H. injection H as <- _.
    exists all_sinks, all_sources, hubs0. auto.
  - assert (G : get_forced_orders layers
                = Raise (AssertionError AssertForcedOrdersOverlap))
      by (unfold get_forced_orders; rewrite E; reflexivity).
    rewrite G in H. discriminate.
Qed.

(** In every hub of a layout the units of the source set are plain
    endpoints outside every forced order and forced orders, and the
    sources of the hub are these units, each expanded in place. *)
Lemma create_layout_hub_units layers hubs lay hub :
  create_layout set_order layers = Ok (hubs, lay) -> In hub hubs ->
  exists units,
    Forall (unit_of (forced_order_tuples layers)) units /\
    sources hub = map Leaf (flatten units).
Proof.
  intros Hc Hin.
  destruct (create_layout_inv _ Hc) as (all_sinks & all_sources & hubs0 & _ & _ & Ea & Eg & ->).
  apply stable_sort_In in Hin. unfold group_into_hubs in Eg.
  destruct (group_loop_hubs _ _ _ _ _ Eg hub Hin) as (n & S & T & Hn & Ecl & Ecr).
  destruct (create_units _ _ _ _ Ecr) as (units & Hperm & Hs).
  exists units. split; [|exact Hs].
  apply (Permutation_Forall Hperm).
  apply (@closure_units _ _ _ _ _ _ (get_all_sinks_and_sources_units _ _ _ Ea) Hn Ecl).
Qed.

End Pipeline.

(** C7. [permute_rows] permutes whole units and never the endpoints
    inside a unit; and in every layout produced without error the members
    of each forced order occupy adjacent positions, in their declared
    order, in the source list of the hub that contains them. *)
Theorem forced_orders_stay_adjacent (set_order : list node -> list node) :
  (forall l, Permutation (set_order l) l) ->
  (forall h h',
      table_set_up h -> permute_rows h = Ok h' ->
      exists units, Permutation (sources h) units /\
                    sources h' = map Leaf (flatten units)) /\
  (forall layers hubs lay hub fo p,
      create_layout set_order layers = Ok (hubs, lay) ->
      In hub hubs ->
      In fo (forced_order_tuples layers) -> In p fo ->
      In (Leaf p) (sources hub) ->
      exists before after, sources hub = map Leaf (before ++ fo ++ after)).
Proof.
  intros Hperm. split; [intros h h'; apply permute_rows_units|].
  intros layers hubs lay hub fo p Hc Hhub Hfo Hp Hsrc.
  destruct (@create_layout_hub_units set_order Hperm _ _ _ _ Hc Hhub)
    as (units & Hunits & Hs).
  destruct (@create_layout_inv set_order _ _ _ Hc) as (_ & _ & _ & _ & Hno & _).
  rewrite Hs in Hsrc. apply in_map_iff in Hsrc.
  destruct Hsrc as (p' & [= ->] & Hin).
  apply flatten_In in Hin. destruct Hin as (u & Hu & Hpu).
  pose proof (proj1 (Forall_forall _ _) Hunits u Hu) as Hwf.
  destruct u as [s|g]; simpl in Hpu, Hwf.
  - destruct Hpu as [->|[]]. destruct (Hwf fo Hfo Hp).
  - assert (g = fo) by (apply (@forced_orders_disjoint _ _ _ _ Hno Hwf Hfo Hpu Hp)).
    subst g. destruct (@flatten_tuple_adjacent _ _ _ Hu) as (before & after & E).
    exists before, after. rewrite Hs, E. reflexivity.
Qed.

(** A small network: an input layer and two fully connected layers with
    parameters W and b, the second with an internal state H. *)
Definition template (btype : nat) (size : Z) : ShapeTemplate := mk_ShapeTemplate btype size None.

Definition demo_layers : list (string * Layer) :=
  [("in", mk_Layer [] [("default", template 1 4)] [] []
                   [mk_Connection "in" "default" "fc1" "default"]);
   ("fc1", mk_Layer [("default", template 1 4)] [("default", template 1 3)]
                    [("W", template 0 12); ("b", template 0 3)] []
                    [mk_Connection "fc1" "default" "fc2" "default"]);
   ("fc2", mk_Layer [("default", template 1 3)] [("default", template 1 2)]
                    [("W", template 0 6); ("b", template 0 2)]
                    [("H", template 1 2)] [])]%string.

Definition demo_result : list Hub * layout :=
  Eval vm_compute in
    match create_layout (fun l => l) demo_layers with
    | Ok r => r
    | _ => ([], buffer_view None [])
    end.

Lemma demo_result_ok : create_layout (fun l => l) demo_layers = Ok demo_result.
Proof. vm_compute. reflexivity. Qed.

Example demo_parameter_hub :
  map sources (firstn 1 (fst demo_result))
  = [[Leaf "fc1.parameters.W"; Leaf "fc1.parameters.b";
      Leaf "fc2.parameters.W"; Leaf "fc2.parameters.b"]]%string.
Proof. reflexivity. Qed.

(** C5, at a forced-order source.  The source set holds the forced-order
    tuple of the parameters W and b; both are connected to the sink
    'parameters' by the declared connection list.  The rows of the table
    are the flat endpoints W and b, the only column is the sink, and both
    entries are 0: the membership test of [set_up_connection_table] looks
    for the flat path among the unexpanded elements of the source list.
    The hub of the parameters that [create_layout] returns for the small
    network above has an all-zero table in the same way. *)
Theorem connection_table_misses_forced_order_members :
  create [Tuple fc_parameters] [Leaf "parameters"%string] fc_layout fc_connections
  = Ok fc_created /\
  sources fc_created = [Leaf "fc.parameters.W"; Leaf "fc.parameters.b"]%string /\
  sinks fc_created = [Leaf "parameters"%string] /\
  In ("fc.parameters.W", "parameters")%string fc_connections /\
  In ("fc.parameters.b", "parameters")%string fc_connections /\
  entry (connection_table fc_created) 0 0 = 0%Z /\
  entry (connection_table fc_created) 1 0 = 0%Z /\
  create_layout (fun l => l) demo_layers = Ok demo_result /\
  map (fun h => (sources h, sinks h, rows (connection_table h)))
      (firstn 1 (fst demo_result))
  = [([Leaf "fc1.parameters.W"; Leaf "fc1.parameters.b";
       Leaf "fc2.parameters.W"; Leaf "fc2.parameters.b"]%string,
      [Leaf "parameters"%string],
      [[0]; [0]; [0]; [0]]%Z)] /\
  Forall (fun p => In (p, "parameters"%string) (get_connections demo_layers))
         ["fc1.parameters.W"; "fc1.parameters.b";
          "fc2.parameters.W"; "fc2.parameters.b"]%string.
Proof.
  split; [reflexivity|]. split; [reflexivity|]. split; [reflexivity|].
  split; [left; reflexivity|]. split; [right; left; reflexivity|].
  split; [reflexivity|]. split; [reflexivity|].
  split; [exact demo_result_ok|]. split; [reflexivity|].
  repeat constructor; vm_compute; tauto.
Qed.

Lemma forced_orders_stay_adjacent_witness :
  (forall l : list node, Permutation ((fun l => l) l) l) /\
  exists hub before after,
    In hub (fst demo_result) /\
    sources hub
    = map Leaf (before ++ ["fc2.parameters.W"; "fc2.parameters.b"]%string ++ after).
Proof.
  split; [intros l; apply Permutation_refl|].
  exists (nth 0 (fst demo_result) chain_hub).
  assert (Hin : In (nth 0 (fst demo_result) chain_hub) (fst demo_result))
    by (left; reflexivity).
  destruct (proj2 (@forced_orders_stay_adjacent
                     (fun l => l) (fun l => Permutation_refl l))
                  demo_layers (fst demo_result) (snd demo_result)
                  (nth 0 (fst demo_result) chain_hub)
                  ["fc2.parameters.W"; "fc2.parameters.b"]%string
                  "fc2.parameters.W"%string)
    as (before & after & E).
  - exact demo_result_ok.
  - exact Hin.
  - right. left. reflexivity.
  - left. reflexivity.
  - right. right. left. reflexivity.
  - exists before, after. split; [exact Hin | exact E].
Defined.

(** ** The slices of the sinks of the hubs of the partitioner *)




(** Two layers feed the input of a third, which has one parameter. *)
Definition fan_in_layers (size_a size_b : Z) : list (string * Layer) :=
  [("a", mk_Layer [] [("default", template 1 size_a)] [] []
                  [mk_Connection "a" "default" "c" "default"]);
   ("b", mk_Layer [] [("default", template 1 size_b)] [] []
                  [mk_Connection "b" "default" "c" "default"]);
   ("c", mk_Layer [("default", template 1 3)] [] [("W", template 0 2)] [] [])]%string.

Definition fan_in_result (size_a size_b : Z) : list Hub * layout :=
  match create_layout (fun l => l) (fan_in_layers size_a size_b) with
  | Ok r => r
  | _ => ([], buffer_view None [])
  end.

(** The hub of the two outputs and the input they feed. *)
Definition fan_in_hub (size_a size_b : Z) : Hub :=
  nth 1 (fst (fan_in_result size_a size_b)) chain_hub.

Example fan_in_empty_indices :
  get_indices (fan_in_hub 0 3)
  = Ok [(Leaf "a.outputs.default", (0, 0)%Z); (Leaf "b.outputs.default", (0, 3)%Z);
        (Leaf "c.inputs.default", (0, 3)%Z)]%string.
Proof. vm_compute. reflexivity. Qed.

Example fan_in_huge_indices :
  get_indices (fan_in_hub (2 ^ 62) (2 ^ 62))
  = Ok [(Leaf "a.outputs.default", (0, 2 ^ 62)%Z);
        (Leaf "b.outputs.default", (2 ^ 62, - 2 ^ 63)%Z);
        (Leaf "c.inputs.default", (0, - 2 ^ 63)%Z)]%string.
Proof. vm_compute. reflexivity. Qed.


(** ** The order of [sorted] *)

(** A three-way comparison that is a total order. *)
Record total_order {A : Type} (cmp : A -> A -> comparison) : Prop := mk_total_order {
  cmp_eq : forall a b, cmp a b = Eq -> a = b;
  cmp_antisym : forall a b, cmp a b = CompOpp (cmp b a);
  cmp_trans : forall a b c, cmp a b = Lt -> cmp b c = Lt -> cmp a c = Lt
}.

Lemma cmp_refl {A : Type} (cmp : A -> A -> comparison) a :
  total_order cmp -> cmp a a = Eq.
Proof.
  intros O. pose proof (cmp_antisym O a a) as H.
  destruct (cmp a a); simpl in H; congruence.
Qed.

(** The lexicographic comparison of lists, a proper prefix first. *)
Fixpoint lex_compare {A : Type} (cmp : A -> A -> comparison) (l m : list A) : comparison :=
  match l, m with
  | [], [] => Eq
  | [], _ :: _ => Lt
  | _ :: _, [] => Gt
  | x :: l', y :: m' =>
      match cmp x y with
      | Eq => lex_compare cmp l' m'
      | c => c
      end
  end.

Lemma lex_total_order {A : Type} (cmp : A -> A -> comparison) :
  total_order cmp -> total_order (lex_compare cmp).
Proof.
  intros O. constructor.
  - induction a as [|x a IH]; intros [|y b]; simpl; try discriminate; auto.
    destruct (cmp x y) eqn:E; try discriminate.
    intros H. apply (cmp_eq O) in E. rewrite (IH b H). congruence.
  - induction a as [|x a IH]; intros [|y b]; simpl; auto.
    rewrite (cmp_antisym O x y). destruct (cmp y x); simpl; auto.
  - induction a as [|x a IH]; intros [|y b] [|z c]; simpl; try discriminate; auto.
    destruct (cmp x y) eqn:Exy; try discriminate;
      destruct (cmp y z) eqn:Eyz; try discriminate; intros H1 H2.
    + apply (cmp_eq O) in Exy, Eyz. subst. rewrite (cmp_refl z O). eauto.
    + apply (cmp_eq O) in Exy. subst. rewrite Eyz. reflexivity.
    + apply (cmp_eq O) in Eyz. subst. rewrite Exy. reflexivity.
    + rewrite (cmp_trans O _ _ _ Exy Eyz). reflexivity.
Qed.

Lemma ascii_total_order : total_order Ascii.compare.
Proof.
  constructor.
  - apply Ascii.compare_eq_iff.
  - apply Ascii.compare_antisym.
  - unfold Ascii.compare. intros a b c H1 H2.
    apply N.compare_lt_iff in H1, H2. apply N.compare_lt_iff.
    apply (N.lt_trans _ _ _ H1 H2).
Qed.

Lemma string_compare_lex s t :
  String.compare s t
  = lex_compare Ascii.compare (list_ascii_of_string s) (list_ascii_of_string t).
Proof.
  revert t; induction s as [|a s IH]; intros [|b t]; simpl; auto.
  rewrite IH. reflexivity.
Qed.

Lemma list_ascii_of_string_inj s t :
  list_ascii_of_string s = list_ascii_of_string t -> s = t.
Proof.
  intros H. rewrite <- (string_of_list_ascii_of_string s),
              <- (string_of_list_ascii_of_string t), H. reflexivity.
Qed.

Lemma string_total_order : total_order String.compare.
Proof.
  pose proof (lex_total_order ascii_total_order) as O.
  constructor.
  - intros a b H. rewrite string_compare_lex in H.
    apply list_ascii_of_string_inj, (cmp_eq O), H.
  - intros a b. rewrite !string_compare_lex. apply (cmp_antisym O).
  - intros a b c. rewrite !string_compare_lex. apply (cmp_trans O).
Qed.

Lemma tuple_compare_lex l m : tuple_compare l m = lex_compare String.compare l m.
Proof.
  revert m; induction l as [|x l IH]; intros [|y m]; simpl; auto.
  rewrite IH. reflexivity.
Qed.

Lemma node_total_order : total_order node_compare.
Proof.
  pose proof string_total_order as OS.
  pose proof (lex_total_order string_total_order) as OT.
  constructor.
  - intros [x|l] [y|m]; simpl; try discriminate.
    + intros H. apply (cmp_eq OS) in H. congruence.
    + rewrite tuple_compare_lex. intros H. apply (cmp_eq OT) in H. congruence.
  - intros [x|l] [y|m]; simpl; auto.
    + apply (cmp_antisym OS).
    + rewrite !tuple_compare_lex. apply (cmp_antisym OT).
  - intros [x|l] [y|m] [z|k]; simpl; try discriminate; auto.
    + apply (cmp_trans OS).
    + rewrite !tuple_compare_lex. apply (cmp_trans OT).
Qed.

(** The properties of [leb] that make the result of a sort unique. *)
Record sorting_order {A : Type} (leb : A -> A -> bool) : Prop := mk_sorting_order {
  leb_total : forall a b, leb a b = true \/ leb b a = true;
  leb_antisym : forall a b, leb a b = true -> leb b a = true -> a = b;
  leb_trans : forall a b c, leb a b = true -> leb b c = true -> leb a c = true
}.

Lemma node_leb_order : sorting_order node_leb.
Proof.
  pose proof node_total_order as O. unfold node_leb. constructor.
  - intros a b. rewrite (cmp_antisym O a b). destruct (node_compare b a); simpl; auto.
  - intros a b. rewrite (cmp_antisym O b a).
    destruct (node_compare a b) eqn:E; simpl; try discriminate.
    intros _ _. apply (cmp_eq O), E.
  - intros a b c.
    destruct (node_compare a b) eqn:Eab; try discriminate;
      destruct (node_compare b c) eqn:Ebc; try discriminate; intros _ _.
    + apply (cmp_eq O) in Eab, Ebc. subst. rewrite (cmp_refl c O). reflexivity.
    + apply (cmp_eq O) in Eab. subst. rewrite Ebc. reflexivity.
    + apply (cmp_eq O) in Ebc. subst. rewrite Eab. reflexivity.
    + rewrite (cmp_trans O _ _ _ Eab Ebc). reflexivity.
Qed.

Section SortUnique.

Variable A : Type.
Variable leb : A -> A -> bool.
Hypothesis leb_order : sorting_order leb.

Lemma insert_sorted_StronglySorted x l :
  StronglySorted (fun a b => leb a b = true) l ->
  StronglySorted (fun a b => leb a b = true) (insert_sorted leb x l).
Proof.
  induction 1 as [|y l Hl IH Hy]; simpl.
  - constructor; constructor.
  - destruct (leb x y) eqn:E.
    + constructor; [constructor; assumption|].
      constructor; [exact E|].
      apply (Forall_impl _ (fun b Hb => leb_trans leb_order _ _ _ E Hb) Hy).
    + constructor; [exact IH|].
      apply (Permutation_Forall (Permutation_sym (insert_sorted_permutation leb x l))).
      constructor; [|exact Hy].
      destruct (leb_total leb_order x y) as [H|H]; [congruence | exact H].
Qed.

Lemma stable_sort_StronglySorted l :
  StronglySorted (fun a b => leb a b = true) (stable_sort leb l).
Proof.
  induction l as [|x l IH]; simpl; [constructor|].
  apply insert_sorted_StronglySorted, IH.
Qed.

Lemma StronglySorted_unique l1 :
  forall l2,
    StronglySorted (fun a b => leb a b = true) l1 ->
    StronglySorted (fun a b => leb a b = true) l2 ->
    Permutation l1 l2 -> l1 = l2.
Proof.
  induction l1 as [|a l1 IH]; intros l2 H1 H2 Hp.
  - apply Permutation_nil in Hp. auto.
  - destruct l2 as [|b l2]; [apply Permutation_sym, Permutation_nil in Hp; discriminate|].
    inversion H1 as [|? ? H1' Ha]; subst. inversion H2 as [|? ? H2' Hb]; subst.
    assert (a = b).
    { assert (Hin1 : In b (a :: l1))
        by (apply (Permutation_in _ (Permutation_sym Hp)); left; reflexivity).
      assert (Hin2 : In a (b :: l2))
        by (apply (Permutation_in _ Hp); left; reflexivity).
      destruct Hin1 as [E|Hin1]; [auto|]. destruct Hin2 as [E|Hin2]; [auto|].
      apply (leb_antisym leb_order).
      - apply (proj1 (Forall_forall _ _) Ha), Hin1.
      - apply (proj1 (Forall_forall _ _) Hb), Hin2. }
    subst b. f_equal. apply IH; auto.
    apply (Permutation_cons_inv Hp).
Qed.

(** The sort of a collection does not depend on the order in which its
    elements are given. *)
Lemma stable_sort_permutation_invariant l l' :
  Permutation l l' -> stable_sort leb l = stable_sort leb l'.
Proof.
  intros Hp. apply StronglySorted_unique; try apply stable_sort_StronglySorted.
  rewrite !stable_sort_permutation. exact Hp.
Qed.

End SortUnique.

(** ** Independence of the iteration order of sets *)

Lemma existsb_permutation {A : Type} (f : A -> bool) l l' :
  Permutation l l' -> existsb f l = existsb f l'.
Proof.
  intros Hp. induction Hp as [|x l l' _ IH|x y l|l l' l'' _ IH1 _ IH2]; simpl.
  - reflexivity.
  - rewrite IH. reflexivity.
  - destruct (f x), (f y); reflexivity.
  - congruence.
Qed.

Lemma sorted_nodes_permutation_invariant l l' :
  Permutation l l' -> sorted_nodes l = sorted_nodes l'.
Proof.
  intros Hp. unfold sorted_nodes.
  rewrite (existsb_permutation is_leaf Hp), (existsb_permutation is_tuple Hp).
  rewrite (stable_sort_permutation_invariant node_leb_order Hp). reflexivity.
Qed.

(** The value of a call that returns. *)
Definition ok_value {A B : Type} (f : A -> result B) (x : A) : option B :=
  match f x with
  | Ok y => Some y
  | _ => None
  end.

Lemma map_Some_inj {A : Type} (l m : list A) : map Some l = map Some m -> l = m.
Proof.
  revert m; induction l as [|x l IH]; intros [|y m]; simpl; try discriminate; auto.
  intros [= -> H]. f_equal. apply IH, H.
Qed.

Lemma map_result_Ok {A B : Type} (f : A -> result B) l ys :
  map_result f l = Ok ys <-> map (ok_value f) l = map Some ys.
Proof.
  revert ys; induction l as [|x l IH]; intros ys; cbn [map_result map].
  - destruct ys; simpl; split; congruence.
  - unfold ok_value at 1. destruct (f x) as [y| |]; cbn [bind];
      try (split; [discriminate | destruct ys; discriminate]).
    destruct (map_result f l) as [zs| |] eqn:E; cbn [bind].
    + pose proof (proj1 (IH zs) eq_refl) as Hz. split.
      * intros [= <-]. simpl. congruence.
      * destruct ys as [|y' ys]; simpl; [discriminate|]. intros [= <- H].
        rewrite Hz in H. apply map_Some_inj in H. congruence.
    + split; [discriminate|]. destruct ys as [|y' ys]; simpl; [discriminate|].
      intros [= _ H]. apply IH in H. discriminate.
    + split; [discriminate|]. destruct ys as [|y' ys]; simpl; [discriminate|].
      intros [= _ H]. apply IH in H. discriminate.
Qed.

Lemma map_result_outcome {A B : Type} (f : A -> result B) (e : exn) l :
  (forall x, f x = Raise e \/ exists y, f x = Ok y) ->
  map_result f l = Raise e \/ exists ys, map_result f l = Ok ys.
Proof.
  intros Hf. induction l as [|x l IH]; cbn [map_result]; [right; eauto|].
  destruct (Hf x) as [->|(y & ->)]; cbn [bind]; [left; reflexivity|].
  destruct IH as [->|(ys & ->)]; cbn [bind]; [left | right]; eauto.
Qed.

(** A comprehension over the elements of a set: the same exception
    whatever the iteration order, or the same results up to their order. *)
Lemma map_result_permutation {A B : Type} (f : A -> result B) (e : exn) l l' :
  (forall x, f x = Raise e \/ exists y, f x = Ok y) ->
  Permutation l l' ->
  (map_result f l = Raise e /\ map_result f l' = Raise e) \/
  (exists ys ys', map_result f l = Ok ys /\ map_result f l' = Ok ys' /\
                  Permutation ys ys').
Proof.
  intros Hf Hp.
  assert (Hok : forall l1 l2 ys, Permutation l1 l2 -> map_result f l1 = Ok ys ->
                                 exists ys', map_result f l2 = Ok ys' /\ Permutation ys ys').
  { intros l1 l2 ys Hp12 H. apply map_result_Ok in H.
    pose proof (Permutation_map (ok_value f) Hp12) as Hm. rewrite H in Hm.
    destruct (Permutation_map_inv _ _ (Permutation_sym Hm)) as (ys' & E & Hys).
    exists ys'. split; [apply map_result_Ok, E | exact Hys]. }
  destruct (map_result_outcome f l Hf) as [E|(ys & E)].
  - left. split; [exact E|].
    destruct (map_result_outcome f l' Hf) as [E'|(ys' & E')]; [exact E'|].
    destruct (Hok l' l ys' (Permutation_sym Hp) E') as (ys & E'' & _). congruence.
  - right. destruct (Hok l l' ys Hp E) as (ys' & E' & Hys). eauto.
Qed.

Lemma fold_min_le init l :
  fold_right Nat.min init l <= init /\
  Forall (fun x => fold_right Nat.min init l <= x) l.
Proof.
  induction l as [|y l [IH1 IH2]]; simpl; [split; [lia | constructor]|].
  split; [lia|]. constructor; [lia|].
  apply (Forall_impl _ (fun x (H : fold_right Nat.min init l <= x) =>
                          Nat.le_trans _ _ _ (Nat.le_min_r y _) H) IH2).
Qed.

Lemma fold_max_ge l : Forall (fun x => x <= fold_right Nat.max 0 l) l.
Proof.
  induction l as [|y l IH]; simpl; constructor; [lia|].
  apply (Forall_impl _ (fun x (H : x <= fold_right Nat.max 0 l) =>
                          Nat.le_trans _ _ _ H (Nat.le_max_r y _)) IH).
Qed.

Lemma all_equal_fold x l :
  Forall (fun y => y = x) l ->
  fold_right Nat.min x l = x /\ fold_right Nat.max 0 (x :: l) = x.
Proof.
  induction 1 as [|y l -> _ [IH1 IH2]]; simpl in *; lia.
Qed.

(** [min(l) == max(l)] holds exactly when all elements are equal. *)
Lemma min_eq_max_all_equal x l :
  min_eq_max (x :: l) = true <-> Forall (fun y => y = x) (x :: l).
Proof.
  unfold min_eq_max. cbn [hd]. rewrite Nat.eqb_eq. split.
  - intros E. destruct (fold_min_le x (x :: l)) as [Hmin Hall].
    pose proof (fold_max_ge (x :: l)) as Hmax.
    apply Forall_forall. intros y Hy.
    pose proof (proj1 (Forall_forall _ _) Hall y Hy) as H1.
    pose proof (proj1 (Forall_forall _ _) Hmax y Hy) as H2.
    pose proof (proj1 (Forall_forall _ _) Hmax x (or_introl eq_refl)) as H3.
    cbv beta in *. lia.
  - intros H. inversion H as [|? ? _ Hl]; subst.
    destruct (all_equal_fold Hl) as [E1 E2].
    rewrite E2. cbn [fold_right]. rewrite E1. lia.
Qed.

Lemma fold_max_permutation l l' :
  Permutation l l' -> fold_right Nat.max 0 l = fold_right Nat.max 0 l'.
Proof.
  induction 1; simpl; lia.
Qed.

(** The buffer types of the members of a set: the test of uniformity and
    the type chosen do not depend on the iteration order. *)
Lemma btypes_permutation l l' :
  Permutation l l' ->
  match l, l' with
  | [], [] => True
  | x :: _, x' :: _ =>
      min_eq_max l = min_eq_max l' /\ (min_eq_max l = true -> x = x')
  | _, _ => False
  end.
Proof.
  intros Hp. destruct l as [|x l], l' as [|x' l'].
  - exact I.
  - apply Permutation_nil in Hp. discriminate.
  - apply Permutation_sym, Permutation_nil in Hp. discriminate.
  - assert (Himp : forall a la b lb,
               Permutation (a :: la) (b :: lb) ->
               min_eq_max (a :: la) = true ->
               min_eq_max (b :: lb) = true /\ a = b).
    { intros a la b lb Hab H. apply min_eq_max_all_equal in H.
      pose proof (Permutation_Forall Hab H) as H'.
      assert (b = a) by (inversion H'; auto). subst b.
      split; [apply min_eq_max_all_equal; exact H' | reflexivity]. }
    destruct (min_eq_max (x :: l)) eqn:E.
    + destruct (Himp _ _ _ _ Hp E) as [-> ->]. auto.
    + split; [|discriminate].
      destruct (min_eq_max (x' :: l')) eqn:E'; [|reflexivity].
      destruct (Himp _ _ _ _ (Permutation_sym Hp) E') as [E'' _]. congruence.
Qed.

Lemma get_by_segments_outcome segs :
  forall lay, get_by_segments segs lay = Raise KeyError
              \/ exists n, get_by_segments segs lay = Ok n.
Proof.
  induction segs as [|p segs IH]; intros lay; cbn [get_by_segments]; [right; eauto|].
  destruct (dict_get p (layout_children lay)) as [c|]; cbn [of_option bind]; auto.
Qed.

Lemma get_by_path_outcome path lay :
  get_by_path path lay = Raise KeyError \/ exists n, get_by_path path lay = Ok n.
Proof. apply get_by_segments_outcome. Qed.

Lemma source_btype_outcome lay s :
  source_btype lay s = Raise KeyError \/ exists y, source_btype lay s = Ok y.
Proof.
  unfold source_btype.
  destruct (get_by_path_outcome s lay) as [->|(n & ->)]; cbn [bind]; [auto|].
  destruct (layout_shape n); cbn [of_option bind]; eauto.
Qed.

Lemma source_context_size_outcome lay s :
  source_context_size lay s = Raise KeyError
  \/ exists y, source_context_size lay s = Ok y.
Proof.
  unfold source_context_size.
  destruct (get_by_path_outcome s lay) as [->|(n & ->)]; cbn [bind]; eauto.
Qed.

(** [Hub.create] does not depend on the order in which the source set and
    the sink set are iterated. *)
Lemma create_permutation_invariant S S' T T' lay conns :
  Permutation S S' -> Permutation T T' ->
  create S T lay conns = create S' T' lay conns.
Proof.
  intros HS HT. unfold create.
  pose proof (flatten_permutation HS) as Hflat.
  destruct (@map_result_permutation _ _ (source_btype lay) KeyError _ _
              (source_btype_outcome lay) Hflat)
    as [[-> ->]|(bs & bs' & -> & -> & Hbs)]; [reflexivity|].
  cbn [bind]. pose proof (btypes_permutation Hbs) as Hb.
  destruct bs as [|b bs], bs' as [|b' bs']; try contradiction; [reflexivity|].
  destruct Hb as [Hmm Hhd]. rewrite <- Hmm.
  destruct (min_eq_max (b :: bs)); cbn [negb]; [|reflexivity].
  rewrite <- (Hhd eq_refl).
  destruct (@map_result_permutation _ _ (source_context_size lay) KeyError _ _
              (source_context_size_outcome lay) Hflat)
    as [[-> ->]|(cs & cs' & -> & -> & Hcs)]; [reflexivity|].
  cbn [bind]. rewrite (fold_max_permutation Hcs).
  rewrite (sorted_nodes_permutation_invariant HS),
          (sorted_nodes_permutation_invariant HT).
  reflexivity.
Qed.

(** *** Removing the elements of a set from a list *)

Lemma list_remove_swap x y l :
  x <> y ->
  (l1 <- list_remove x l ;; list_remove y l1)
  = (l2 <- list_remove y l ;; list_remove x l2).
Proof.
  intros Hxy. induction l as [|z l IH]; cbn [list_remove bind]; [reflexivity|].
  destruct (node_eqb z x) eqn:Ezx; destruct (node_eqb z y) eqn:Ezy; cbn [bind].
  - apply node_eqb_eq in Ezx, Ezy. congruence.
  - destruct (list_remove y l) as [l2| |]; cbn [bind list_remove]; auto.
    rewrite Ezx. reflexivity.
  - destruct (list_remove x l) as [l1| |]; cbn [bind list_remove]; auto.
    rewrite Ezy. reflexivity.
  - destruct (list_remove x l) as [l1| |] eqn:Ex;
      destruct (list_remove y l) as [l2| |] eqn:Ey;
      cbn [bind list_remove] in *; rewrite ?Ezx, ?Ezy; cbn [bind];
      try (rewrite IH; cbn [bind]; reflexivity);
      try (rewrite <- IH; cbn [bind]; reflexivity);
      try exact IH.
Qed.

Lemma bind_assoc {A B C : Type} (c : result A) (k : A -> result B) (k' : B -> result C) :
  bind (bind c k) k' = bind c (fun a => bind (k a) k').
Proof. destruct c; reflexivity. Qed.

(** The list left after removing the elements of a set does not depend on
    the order in which they are removed. *)
Lemma remove_all_permutation S S' :
  Permutation S S' -> NoDup S ->
  forall rem, for_each (fun r s => list_remove s r) S rem
              = for_each (fun r s => list_remove s r) S' rem.
Proof.
  induction 1 as [|x l l' Hp IH|x y l|l l' l'' Hp1 IH1 Hp2 IH2]; intros Hnd rem.
  - reflexivity.
  - cbn [for_each]. inversion Hnd; subst.
    destruct (list_remove x rem); cbn [bind]; auto.
  - assert (Hxy : y <> x).
    { inversion Hnd as [|? ? Hy _]; subst. intros ->. apply Hy. left. reflexivity. }
    transitivity (bind (bind (list_remove y rem) (fun r => list_remove x r))
                       (for_each (fun r s => list_remove s r) l));
      [rewrite bind_assoc; reflexivity|].
    rewrite (list_remove_swap rem Hxy), bind_assoc. reflexivity.
  - rewrite (IH1 Hnd). apply IH2. apply (Permutation_NoDup Hp1 Hnd).
Qed.

(** The members of the forward closure are those of the component of the
    seed, whatever the iteration order of the sets. *)
Lemma closure_members set_order n conns :
  (forall l, Permutation (set_order l) l) ->
  exists S T,
    get_forward_closure set_order n conns = Ok (S, T) /\
    NoDup S /\ NoDup T /\ In n S /\
    (forall x, In x S <-> component conns n Producer x) /\
    (forall y, In y T <-> component conns n Consumer y).
Proof.
  intros Hperm.
  destruct (@get_forward_closure_spec set_order Hperm conns n) as (S & T & E & I & Hc).
  exists S, T. split; [exact E|].
  split; [apply (inv_NoDup_sources I)|]. split; [apply (inv_NoDup_sinks I)|].
  split; [apply (inv_seed I)|]. split.
  - intros x. split; [apply (inv_sources_component I)|]. intros H.
    apply (@component_least conns n (fun x => In x S) (fun y => In y T)
                            (inv_seed I) Hc Producer x H).
  - intros y. split; [apply (inv_sinks_component I)|]. intros H.
    apply (@component_least conns n (fun x => In x S) (fun y => In y T)
                            (inv_seed I) Hc Consumer y H).
Qed.

Section Determinism.

Variables order1 order2 : list node -> list node.
Hypothesis order1_permutation : forall l, Permutation (order1 l) l.
Hypothesis order2_permutation : forall l, Permutation (order2 l) l.

(** Two runs compute the same closure, up to the order of its sets. *)
Lemma closure_two_orders n conns :
  exists S1 T1 S2 T2,
    get_forward_closure order1 n conns = Ok (S1, T1) /\
    get_forward_closure order2 n conns = Ok (S2, T2) /\
    Permutation S1 S2 /\ Permutation T1 T2 /\ NoDup S1.
Proof.
  destruct (@closure_members order1 n conns order1_permutation)
    as (S1 & T1 & E1 & HS1 & HT1 & _ & Hs1 & Ht1).
  destruct (@closure_members order2 n conns order2_permutation)
    as (S2 & T2 & E2 & HS2 & HT2 & _ & Hs2 & Ht2).
  exists S1, T1, S2, T2. split; [exact E1|]. split; [exact E2|].
  split; [|split; [|exact HS1]].
  - apply NoDup_Permutation; auto. intros x. rewrite Hs1, Hs2. reflexivity.
  - apply NoDup_Permutation; auto. intros y. rewrite Ht1, Ht2. reflexivity.
Qed.

Lemma group_loop_two_orders m_cons lay conns fuel :
  forall remaining,
    group_loop order1 fuel remaining m_cons lay conns
    = group_loop order2 fuel remaining m_cons lay conns.
Proof.
  induction fuel as [|fuel IH]; intros [|n rest]; cbn [group_loop]; try reflexivity.
  destruct (closure_two_orders n m_cons)
    as (S1 & T1 & S2 & T2 & -> & -> & HS & HT & Hnd).
  cbn [bind].
  rewrite (@remove_all_permutation _ _ HS Hnd (n :: rest)).
  destruct (for_each _ S2 (n :: rest)) as [rem| |]; cbn [bind]; try reflexivity.
  rewrite (@create_permutation_invariant _ _ _ _ lay conns HS HT).
  destruct (create S2 T2 lay conns); cbn [bind]; try reflexivity.
  rewrite IH. reflexivity.
Qed.

Lemma create_layout_two_orders layers :
  create_layout order1 layers = create_layout order2 layers.
Proof.
  unfold create_layout, group_into_hubs.
  destruct (get_forced_orders layers) as [fos| |]; cbn [bind]; try reflexivity.
  destruct (get_all_sinks_and_sources _ _ _) as [[all_sinks all_sources]| |];
    cbn [bind]; try reflexivity.
  rewrite group_loop_two_orders. reflexivity.
Qed.

End Determinism.

(** ** The loops end within their bounds *)

(** The call returns a value or raises: the iteration bound of the
    embedding is not reached. *)
Definition finished {A : Type} (r : result A) : Prop := r <> Unfinished.

Lemma finished_bind {A B : Type} (c : result A) (k : A -> result B) :
  finished c -> (forall a, c = Ok a -> finished (k a)) -> finished (bind c k).
Proof.
  unfold finished. destruct c; cbn [bind]; intros Hc Hk; auto. discriminate.
Qed.

Lemma finished_of_option {A : Type} e (o : option A) : finished (of_option e o).
Proof. destruct o; discriminate. Qed.

Lemma map_result_finished {A B : Type} (f : A -> result B) l :
  (forall x, finished (f x)) -> finished (map_result f l).
Proof.
  intros Hf. induction l as [|x l IH]; cbn [map_result]; [discriminate|].
  apply finished_bind; [apply Hf|]. intros y _.
  apply finished_bind; [exact IH|]. discriminate.
Qed.

Lemma for_each_finished {A S : Type} (body : S -> A -> result S) l :
  (forall s x, finished (body s x)) -> forall s, finished (for_each body l s).
Proof.
  intros Hb. induction l as [|x l IH]; intros s; cbn [for_each]; [discriminate|].
  apply finished_bind; [apply Hb|]. intros s' _. apply IH.
Qed.

Lemma list_remove_finished x l : finished (list_remove x l).
Proof.
  induction l as [|y l IH]; cbn [list_remove]; [discriminate|].
  destruct (node_eqb y x); [discriminate|].
  apply finished_bind; [exact IH | discriminate].
Qed.

Lemma get_by_segments_finished segs : forall lay, finished (get_by_segments segs lay).
Proof.
  intros lay. destruct (get_by_segments_outcome segs lay) as [E|(n & E)];
    rewrite E; discriminate.
Qed.

Lemma update_by_segments_finished f segs :
  forall lay, finished (update_by_segments segs f lay).
Proof.
  induction segs as [|p segs IH]; intros [t i s c sl h children];
    cbn [update_by_segments]; [discriminate|].
  apply finished_bind; [apply finished_of_option|]. intros child _.
  apply finished_bind; [apply IH | discriminate].
Qed.

Lemma source_size_finished lay s : finished (source_size lay s).
Proof.
  unfold source_size. apply finished_bind.
  - destruct s; [apply get_by_segments_finished | discriminate].
  - intros n _. apply finished_bind; [apply finished_of_option | discriminate].
Qed.

Lemma create_finished S T lay conns : finished (create S T lay conns).
Proof.
  unfold create. apply finished_bind.
  { apply map_result_finished. intros s.
    destruct (source_btype_outcome lay s) as [E|(y & E)]; rewrite E; discriminate. }
  intros [|bt btypes] _; [discriminate|].
  destruct (negb (min_eq_max (bt :: btypes))); [discriminate|].
  apply finished_bind.
  { apply map_result_finished. intros s.
    destruct (source_context_size_outcome lay s) as [E|(y & E)]; rewrite E; discriminate. }
  intros contexts _.
  apply finished_bind; [unfold sorted_nodes; destruct (_ && _); discriminate|].
  intros srcs _.
  apply finished_bind; [unfold sorted_nodes; destruct (_ && _); discriminate|].
  intros snks _.
  apply finished_bind.
  { unfold setup.
    destruct (set_up_connection_table_spec
                (Hub_init srcs snks bt (fold_right Nat.max 0 contexts)) conns)
      as (ct & -> & Hb & H0 & H1 & _).
    cbn [bind].
    assert (Hset : table_set_up
                     (mk_Hub srcs snks bt (fold_right Nat.max 0 contexts) ct [] (-1)))
      by (split; assumption).
    pose proof (permute_rows_outcome Hset) as Hout. unfold Hub_init.
    cbn [sources sinks btype context_size sizes size].
    destruct (permute_rows _); [discriminate | discriminate | contradiction]. }
  intros hub _.
  apply finished_bind; [|discriminate].
  apply map_result_finished, source_size_finished.
Qed.

Lemma get_indices_finished h : finished (get_indices h).
Proof.
  unfold get_indices, sink_indices. apply finished_bind; [|discriminate].
  apply map_result_finished. intros [i sink_name]. unfold sink_index, sink_slice.
  apply finished_bind; [|discriminate].
  destruct (i <? shape1 (connection_table h)); [|discriminate].
  apply finished_bind; [unfold np_argmax; destruct (column _ i); discriminate|].
  intros first _. apply finished_bind; [apply finished_of_option|].
  intros start _.
  apply finished_bind; [unfold np_argmax; destruct (rev _); discriminate|].
  intros last _. apply finished_bind; [apply finished_of_option | discriminate].
Qed.

Lemma layout_hubs_finished hubs lay : finished (layout_hubs hubs lay).
Proof.
  unfold layout_hubs. apply for_each_finished. intros lay' [hub_nr hub].
  apply finished_bind; [apply get_indices_finished|]. intros indices _.
  apply for_each_finished. intros lay'' [[path|g] _slice];
    [apply update_by_segments_finished | discriminate].
Qed.

Lemma list_remove_length x l l' :
  list_remove x l = Ok l' -> length l = S (length l').
Proof.
  revert l'; induction l as [|y l IH]; intros l'; cbn [list_remove]; [discriminate|].
  destruct (node_eqb y x); [intros [= <-]; reflexivity|].
  destruct (list_remove x l) as [l''| |]; try discriminate. cbn [bind].
  intros [= <-]. simpl. f_equal. apply IH. reflexivity.
Qed.

Lemma remove_all_length S : forall rem rem',
  for_each (fun r s => list_remove s r) S rem = Ok rem' ->
  length rem = length S + length rem'.
Proof.
  induction S as [|s S IH]; intros rem rem'; cbn [for_each].
  - intros [= <-]. reflexivity.
  - destruct (list_remove s rem) as [rem1| |] eqn:E; try discriminate. cbn [bind].
    intros H. apply IH in H. apply list_remove_length in E. simpl. lia.
Qed.

Section Termination.

Variable set_order : list node -> list node.
Hypothesis set_order_permutation : forall l, Permutation (set_order l) l.

(** Every round of [group_into_hubs] removes the seed from the remaining
    sources, so as many rounds as there are sources are enough. *)
Lemma group_loop_finished m_cons lay conns fuel :
  forall remaining,
    length remaining <= fuel ->
    finished (group_loop set_order fuel remaining m_cons lay conns).
Proof.
  induction fuel as [|fuel IH]; intros [|n rest] Hlen; cbn [group_loop];
    try discriminate; simpl in Hlen; [lia|].
  destruct (@closure_members set_order n m_cons set_order_permutation)
    as (S & T & -> & _ & _ & Hn & _).
  cbn [bind]. apply finished_bind.
  { apply for_each_finished. intros r s. apply list_remove_finished. }
  intros rem Hrem. apply finished_bind; [apply create_finished|]. intros hub _.
  apply finished_bind; [|discriminate].
  apply IH. apply remove_all_length in Hrem. simpl in Hrem.
  destruct S as [|s S]; [destruct Hn|]. simpl in Hrem. lia.
Qed.

Lemma create_layout_finished layers : finished (create_layout set_order layers).
Proof.
  unfold create_layout. apply finished_bind.
  { destruct (check_forced_orders_spec (forced_order_tuples layers)) as [[E _]|[E _]];
      unfold get_forced_orders; rewrite E; discriminate. }
  intros fos _. apply finished_bind.
  { unfold get_all_sinks_and_sources. destruct (get_connections layers); discriminate. }
  intros [all_sinks all_sources] _. apply finished_bind.
  { apply group_loop_finished. lia. }
  intros hubs _. apply finished_bind; [apply layout_hubs_finished|].
  intros [t i s c sl h children] _.
  apply finished_bind; [apply finished_of_option|]. intros parameters _.
  apply finished_bind; [apply finished_of_option | discriminate].
Qed.

End Termination.

(** C9. [create_layout] is deterministic: whatever the order in which the
    sets of the planner are iterated in two runs on the same layer
    registry, both runs end with the same outcome, the same list of hubs
    (sources, sizes, connection tables) and the same layout tree (slices
    and hub indices), or an exception of the same kind; and each run
    ends. *)
Theorem create_layout_deterministic (order1 order2 : list node -> list node) :
  (forall l, Permutation (order1 l) l) ->
  (forall l, Permutation (order2 l) l) ->
  forall layers : list (string * Layer),
    create_layout order1 layers = create_layout order2 layers /\
    create_layout order1 layers <> Unfinished.
Proof.
  intros H1 H2 layers. split.
  - apply create_layout_two_orders; assumption.
  - apply (@create_layout_finished order1 H1).
Qed.

Lemma create_layout_deterministic_witness :
  (forall l : list node, Permutation ((fun l => l) l) l) /\
  (forall l : list node, Permutation (rev l) l) /\
  create_layout (fun l => l) demo_layers = create_layout (@rev node) demo_layers.
Proof.
  split; [intros l; apply Permutation_refl|].
  split; [intros l; apply Permutation_sym, Permutation_rev|].
  apply (@create_layout_deterministic
           (fun l => l) (@rev node)
           (fun l => Permutation_refl l)
           (fun l => Permutation_sym (Permutation_rev l)) demo_layers).
Defined.

(** * Further properties of the planner *)

(** ** The order the solver tries first *)

(** [itertools.permutations] yields the given order first. *)
Lemma permutations_first {A : Type} (l : list A) :
  exists rest, permutations l = l :: rest.
Proof.
  unfold permutations. induction l as [|x l [rest IH]]; [exists []; reflexivity|].
  cbn [length permutations_fuel selections flat_map]. rewrite IH.
  cbn [map app]. eexists. reflexivity.
Qed.

Lemma pick_all {A : Type} (l : list A) : pick l (seq 0 (length l)) = Ok l.
Proof.
  destruct l as [|d l']; [reflexivity|]. set (l := d :: l').
  rewrite (pick_in_range d).
  - f_equal. pose proof (map_nth_seq_middle d [] l []) as H.
    rewrite app_nil_r in H. exact H.
  - apply Forall_forall. intros i Hi. apply in_seq in Hi. lia.
Qed.

Lemma permute_rows_first_order (h : Hub) :
  shape0 (connection_table h) = length (flatten (sources h)) ->
  can_be_connected_with_single_buffer (connection_table h) = true ->
  permute_rows h
  = Ok (mk_Hub (map Leaf (flatten (sources h))) (sinks h) (btype h) (context_size h)
               (connection_table h) (sizes h) (size h)).
Proof.
  intros Hlen Hcan. unfold permute_rows.
  destruct (permutations_first (convert_to_nested_indices (sources h))) as [rest ->].
  cbn [try_permutations]. unfold convert_to_nested_indices.
  rewrite flatten_nested_indices, <- Hlen. unfold take_rows, shape0.
  rewrite pick_all. cbn [bind].
  destruct (connection_table h) as [w rs] eqn:Ect. cbn [shape1 rows] in *.
  rewrite Hcan. unfold shape0 in Hlen. cbn [rows] in Hlen.
  rewrite Hlen, pick_all. reflexivity.
Qed.


(** A hub whose rows already satisfy the single-buffer condition keeps
    the order of its sources and its table: [Hub.permute_rows] accepts the
    first ordering it tries, which is the given one, and only expands the
    forced-order tuples into their members. *)
Theorem permute_rows_keeps_workable_order (h : Hub) :
  shape0 (connection_table h) = length (flatten (sources h)) ->
  can_be_connected_with_single_buffer (connection_table h) = true ->
  permute_rows h
  = Ok (mk_Hub (map Leaf (flatten (sources h))) (sinks h) (btype h) (context_size h)
               (connection_table h) (sizes h) (size h)).
Proof. apply permute_rows_first_order. Qed.

Lemma permute_rows_keeps_workable_order_witness :
  permute_rows chain_hub
  = Ok (mk_Hub (map Leaf (flatten (sources chain_hub))) (sinks chain_hub)
               (btype chain_hub) (context_size chain_hub)
               (connection_table chain_hub) (sizes chain_hub) (size chain_hub)).
Proof.
  apply (@permute_rows_keeps_workable_order chain_hub); reflexivity.
Defined.

(** ** The connection table as a function of the set of connections *)

(** Two 0/1 tables of the same shape with their ones at the same places
    are equal. *)
Lemma binary_table_ext ct ct' :
  binary_table ct -> binary_table ct' ->
  shape0 ct = shape0 ct' -> shape1 ct = shape1 ct' ->
  (forall i j, entry ct i j = 1%Z <-> entry ct' i j = 1%Z) ->
  ct = ct'.
Proof.
  destruct ct as [w rs], ct' as [w' rs']. unfold shape0. cbn [shape1 rows].
  intros Hb Hb' H0 H1 Hent. subst w'. f_equal.
  apply (nth_ext _ _ [] [] H0). intros i Hi.
  pose proof (@table_row (mk_ndarray w rs) i Hb Hi) as [Hl _].
  assert (Hi' : i < shape0 (mk_ndarray w rs')) by (unfold shape0; cbn [rows]; lia).
  pose proof (@table_row (mk_ndarray w rs') i Hb' Hi') as [Hl' _].
  cbn [rows shape1] in Hl, Hl'.
  apply (nth_ext _ _ 0%Z 0%Z); [congruence|]. intros j _.
  specialize (Hent i j). unfold entry in Hent. cbn [rows] in Hent.
  destruct (@entry_binary (mk_ndarray w rs) i j Hb) as [E|E];
    destruct (@entry_binary (mk_ndarray w rs') i j Hb') as [E'|E'];
    unfold entry in E, E'; cbn [rows] in E, E'; try congruence.
  - apply Hent in E'. congruence.
  - apply Hent in E. congruence.
Qed.

Lemma set_up_connection_table_same_set h conns conns' :
  (forall c, In c conns <-> In c conns') ->
  set_up_connection_table h conns = set_up_connection_table h conns'.
Proof.
  intros Hsame.
  destruct (set_up_connection_table_spec h conns) as (ct & -> & Hb & H0 & H1 & Hent).
  destruct (set_up_connection_table_spec h conns') as (ct' & -> & Hb' & H0' & H1' & Hent').
  do 2 f_equal. apply binary_table_ext; try congruence.
  intros i j. rewrite Hent, Hent'. unfold some_sets_entry.
  split; intros (c & Hin & Hs); exists c; (split; [apply Hsame, Hin | exact Hs]).
Qed.

(** The connection table, and with it the hub that [Hub.create] builds,
    depends only on which connections are declared: their order in the
    list and repetitions make no difference. *)
Theorem create_ignores_connection_order
        (source_set sink_set : list node) (lay : layout)
        (connections connections' : list (string * string)) (h : Hub) :
  (forall c, In c connections <-> In c connections') ->
  set_up_connection_table h connections = set_up_connection_table h connections' /\
  create source_set sink_set lay connections
  = create source_set sink_set lay connections'.
Proof.
  intros Hsame. split; [apply set_up_connection_table_same_set, Hsame|].
  unfold create, setup.
  destruct (map_result _ _) as [[|bt btypes]| |]; cbn [bind]; try reflexivity.
  destruct (negb _); [reflexivity|].
  destruct (map_result _ _) as [contexts| |]; cbn [bind]; try reflexivity.
  destruct (sorted_nodes source_set) as [srcs| |]; cbn [bind]; try reflexivity.
  destruct (sorted_nodes sink_set) as [snks| |]; cbn [bind]; try reflexivity.
  rewrite (@set_up_connection_table_same_set _ _ _ Hsame). reflexivity.
Qed.

Lemma create_ignores_connection_order_witness :
  create abc_sources xy_sinks abc_layout chain_connections
  = create abc_sources xy_sinks abc_layout (rev chain_connections ++ chain_connections).
Proof.
  apply (@create_ignores_connection_order
           abc_sources xy_sinks abc_layout chain_connections
           (rev chain_connections ++ chain_connections) chain_hub).
  intros c. simpl. tauto.
Defined.

(** ** Every slice lies inside its hub *)

Lemma offset_all h k : length (sizes h) <= k -> offset h k = sum_ints (sizes h).
Proof. intros H. unfold offset. rewrite firstn_all2 by exact H. reflexivity. Qed.

Lemma zip3_names {A B C : Type} (l : list A) (m : list B) (n : list C) :
  length l <= length m -> length l <= length n ->
  map (fun e : A * B * C => fst (fst e)) (zip3 l m n) = l.
Proof.
  revert m n; induction l as [|x l IH]; intros [|y m] [|z n] Hm Hn; simpl in *;
    try lia; try reflexivity.
  f_equal. apply IH; lia.
Qed.

(** Whatever the sizes, the source slices carry the names of the sources,
    in order. *)
Lemma source_indices_names h :
  length (sizes h) = length (sources h) -> map fst (source_indices h) = sources h.
Proof.
  intros Hlen. unfold source_indices. rewrite map_map.
  pose proof (np_cumsum_length (0%Z :: sizes h)) as Hl.
  destruct (np_cumsum (0%Z :: sizes h)) as [|i idxs]; [discriminate|].
  simpl in Hl. cbn [tl].
  rewrite <- (@zip3_names _ _ _ (sources h) (i :: idxs) idxs) at 2 by (simpl; lia).
  apply map_ext. intros [[x y] z]. reflexivity.
Qed.

(** On a hub built by [Hub.create], [get_indices] yields one slice for
    every source and then one for every sink, in the order of the two
    lists; when the element counts are not negative and their sum is below
    2^63, every slice is a range inside the buffer of the hub: it starts at
    0 or later, its start is not after its stop, and its stop is at most
    hub.size. *)
Theorem get_indices_within_hub
        (source_set sink_set : list node) (lay : layout)
        (connections : list (string * string)) (hub : Hub) :
  create source_set sink_set lay connections = Ok hub ->
  exists indices,
    get_indices hub = Ok indices /\
    map fst indices = sources hub ++ sinks hub /\
    (fits_int64 (sizes hub) ->
     Forall (fun e => (0 <= fst (snd e) <= snd (snd e))%Z /\
                      (snd (snd e) <= size hub)%Z) indices).
Proof.
  intros Hc. destruct (create_inv _ _ _ _ Hc) as (h1 & C).
  destruct (created_get_indices C) as (snk & Es & Eg & Hlsnk).
  destruct (created_shape C) as (H0 & H1 & Hpos).
  pose proof (created_table_binary C) as Hb.
  pose proof (created_sizes C) as Hlen. pose proof (created_size C) as Hsize.
  assert (Hsz : length (sizes hub) = shape0 (connection_table hub)) by congruence.
  exists (source_indices hub ++ snk). split; [exact Eg|]. split.
  - rewrite map_app. f_equal.
    + apply (source_indices_names _ Hlen).
    + unfold sink_indices, enumerate_from in Es. apply (sink_indices_names _ _ _ _ Es).
  - intros Hf. pose proof (proj1 Hf) as Hnn.
    apply Forall_app. split; apply Forall_forall; intros [name [a b]] Hin;
      cbn [fst snd]; apply In_nth_error in Hin; destruct Hin as (i & Hi).
    + rewrite (source_indices_slices hub Hf Hlen) in Hi.
      apply combine_nth_error in Hi. destruct Hi as [_ Hi].
      apply slices_from_bounds in Hi; [|exact Hnn]. rewrite Hsize. lia.
    + assert (Hj : exists sink, nth_error (sinks hub) i = Some sink).
      { destruct (nth_error (sinks hub) i) as [sink|] eqn:E; [eauto|].
        apply nth_error_None in E. apply nth_error_Some_lt in Hi. lia. }
      destruct Hj as (sink & Hj).
      destruct (@sink_indices_nth _ _ _ _ Es Hj) as (s & Eslice & Hn).
      rewrite Hi in Hn. injection Hn as _ <-.
      assert (Hjlt : i < shape1 (connection_table hub))
        by (rewrite H1; apply (@nth_error_Some_lt _ _ _ _ Hj)).
      rewrite Hsize.
      destruct (sink_slice_spec hub Hf Hb Hjlt Hpos Hsz)
        as [[_ E]|(x & y & Hxy & Hyn & _ & _ & _ & _ & E)];
        rewrite E in Eslice; injection Eslice as <- <-.
      * pose proof (sum_ints_nonnegative Hnn). lia.
      * pose proof (@offset_mono hub x y Hnn) as M1.
        pose proof (offset_bounds hub x Hnn). pose proof (offset_bounds hub y Hnn).
        lia.
Qed.

Lemma get_indices_within_hub_witness :
  fits_int64 (sizes chain_created) /\
  exists indices,
    get_indices chain_created = Ok indices /\
    map fst indices = sources chain_created ++ sinks chain_created /\
    Forall (fun e => (0 <= fst (snd e) <= snd (snd e))%Z /\
                     (snd (snd e) <= size chain_created)%Z) indices.
Proof.
  split; [exact chain_created_fits|].
  destruct (@get_indices_within_hub abc_sources xy_sinks abc_layout chain_connections
              chain_created eq_refl) as (indices & Eg & En & Hall).
  exists indices. split; [exact Eg|]. split; [exact En|].
  exact (Hall chain_created_fits).
Defined.

(** ** What [Hub.create] checks and what it keeps *)

Lemma map_result_In {A B : Type} (f : A -> result B) l ys x :
  map_result f l = Ok ys -> In x l -> exists y, f x = Ok y /\ In y ys.
Proof.
  intros E Hx. apply In_nth_error in Hx. destruct Hx as (i & Hi).
  destruct (map_result_nth _ _ _ E Hi) as (y & Hy & Hn).
  exists y. split; [exact Hy | apply (nth_error_In _ _ Hn)].
Qed.

Lemma map_result_all_ok {A B : Type} (f : A -> result B) l :
  (forall x, In x l -> exists y, f x = Ok y) -> exists ys, map_result f l = Ok ys.
Proof.
  induction l as [|x l IH]; intros H; cbn [map_result]; [eauto|].
  destruct (H x (or_introl eq_refl)) as (y & ->). cbn [bind].
  destruct IH as (ys & ->); [intros z Hz; apply H; right; exact Hz|].
  cbn [bind]. eauto.
Qed.

Lemma map_result_raises {A B : Type} (f : A -> result B) l e :
  map_result f l = Raise e -> exists x, In x l /\ f x = Raise e.
Proof.
  induction l as [|x l IH]; cbn [map_result]; [discriminate|].
  destruct (f x) as [y|e'|] eqn:E; cbn [bind].
  - destruct (map_result f l) as [ys|e'|]; cbn [bind]; try discriminate.
    intros [= ->]. destruct IH as (z & Hz & Ez); [reflexivity|].
    exists z. split; [right; exact Hz | exact Ez].
  - intros [= ->]. exists x. split; [left; reflexivity | exact E].
  - discriminate.
Qed.

(** A source whose buffer type can be read has a context size and a
    feature size as well: the three read the same entry of the layout. *)
Lemma source_btype_resolves lay s b :
  source_btype lay s = Ok b ->
  (exists c, source_context_size lay s = Ok c) /\
  (exists n, source_size lay (Leaf s) = Ok n).
Proof.
  unfold source_btype, source_context_size, source_size. cbn [get_by_node].
  destruct (get_by_path s lay) as [n| |]; cbn [bind]; try discriminate.
  destruct (layout_shape n) as [shp|]; cbn [of_option bind]; try discriminate.
  intros _. split; eauto.
Qed.

Lemma fold_max_In l : l <> [] -> In (fold_right Nat.max 0 l) l.
Proof.
  induction l as [|x l IH]; [contradiction|]. intros _. cbn [fold_right].
  destruct l as [|y l'].
  - left. simpl. lia.
  - destruct (Nat.max_spec x (fold_right Nat.max 0 (y :: l'))) as [[_ E]|[_ E]];
      rewrite E; [right; apply IH; discriminate | left; reflexivity].
Qed.

(** The ways in which [Hub.create] ends. *)
Lemma create_cases source_set sink_set lay connections :
  ((exists s, In s (flatten source_set) /\ source_btype lay s = Raise KeyError) /\
   create source_set sink_set lay connections = Raise KeyError) \/
  (flatten source_set = [] /\
   create source_set sink_set lay connections = Raise ValueError) \/
  (exists b btypes,
      map_result (source_btype lay) (flatten source_set) = Ok (b :: btypes) /\
      ((min_eq_max (b :: btypes) = false /\
        create source_set sink_set lay connections
        = Raise (AssertionError AssertUniformBufferType)) \/
       (min_eq_max (b :: btypes) = true /\
        (create source_set sink_set lay connections = Raise TypeError \/
         create source_set sink_set lay connections = Raise NetworkValidationError \/
         exists hub, create source_set sink_set lay connections = Ok hub)))).
Proof.
  remember (create source_set sink_set lay connections) as r eqn:Er.
  unfold create in Er.
  destruct (map_result_outcome (source_btype lay) (flatten source_set)
              (source_btype_outcome lay)) as [E|(btypes & E)];
    rewrite E in Er; cbn [bind] in Er.
  - left. split; [|exact Er]. apply map_result_raises, E.
  - right. destruct btypes as [|b btypes].
    + left. split; [|exact Er].
      apply map_result_length in E. destruct (flatten source_set); [reflexivity|discriminate].
    + right. exists b, btypes. split; [exact E|].
      destruct (min_eq_max (b :: btypes)) eqn:Em; cbn [negb] in Er; [right | left; auto].
      split; [reflexivity|].
      destruct (@map_result_all_ok _ _ (source_context_size lay) (flatten source_set))
        as (contexts & Ec).
      { intros s Hs. destruct (map_result_In _ _ _ E Hs) as (y & Hy & _).
        apply (source_btype_resolves _ _ Hy). }
      rewrite Ec in Er. cbn [bind] in Er. unfold sorted_nodes in Er.
      destruct (existsb is_leaf source_set && existsb is_tuple source_set);
        cbn [bind] in Er; [left; exact Er|].
      destruct (existsb is_leaf sink_set && existsb is_tuple sink_set);
        cbn [bind] in Er; [left; exact Er|].
      right. unfold setup in Er.
      set (h0 := Hub_init (stable_sort node_leb source_set) (stable_sort node_leb sink_set)
                          b (fold_right Nat.max 0 contexts)) in Er.
      destruct (set_up_connection_table_spec h0 connections)
        as (ct & Es & Hb & H0 & H1 & _).
      rewrite Es in Er. cbn [bind] in Er.
      set (h1 := mk_Hub (sources h0) (sinks h0) (btype h0) (context_size h0) ct
                        (sizes h0) (size h0)) in Er.
      assert (Hset : table_set_up h1) by (split; assumption).
      pose proof (permute_rows_outcome Hset) as Hout.
      destruct (permute_rows h1) as [h2|e|]; [|destruct Hout as [-> _]; left; exact Er
                                              |contradiction].
      right. cbn [bind] in Er. destruct Hout as (bs & Hord & Hs & _).
      destruct (@map_result_all_ok _ _ (source_size lay) (sources h2)) as (szs & Ez).
      { intros u Hu. rewrite Hs in Hu. unfold arranged_sources in Hu.
        apply in_map_iff in Hu. destruct Hu as (s & <- & Hin).
        apply (Permutation_in s (Permutation_sym (flatten_permutation (ordering_units Hord))))
          in Hin.
        apply (Permutation_in s (flatten_permutation
                                   (stable_sort_permutation node_leb source_set))) in Hin.
        destruct (map_result_In _ _ _ E Hin) as (y & Hy & _).
        apply (source_btype_resolves _ _ Hy). }
      rewrite Ez in Er. cbn [bind] in Er. eauto.
Qed.

Lemma not_all_equal b (l : list nat) :
  min_eq_max (b :: l) = false -> exists b', In b' l /\ b' <> b.
Proof.
  intros H.
  assert (Hn : ~ Forall (fun y => y = b) l).
  { intros Hall.
    assert (Hb : min_eq_max (b :: l) = true)
      by (apply min_eq_max_all_equal; constructor; [reflexivity | exact Hall]).
    congruence. }
  apply neg_Forall_Exists_neg in Hn; [|intros y; apply Nat.eq_dec].
  apply Exists_exists in Hn. exact Hn.
Qed.

(** The exceptions of [Hub.create].  It raises KeyError exactly when some
    flat source does not resolve to an entry of the layout with a
    ['@shape']; ValueError exactly when there is no source at all;
    its assertion error exactly when every source resolves and two of
    them have different buffer types.  The only other exceptions are the
    TypeError of sorting a set that mixes endpoints and tuples and the
    layout error of the solver. *)
Theorem create_raises
        (source_set sink_set : list node) (lay : layout)
        (connections : list (string * string)) :
  (create source_set sink_set lay connections = Raise KeyError <->
   exists s, In s (flatten source_set) /\ source_btype lay s = Raise KeyError) /\
  (create source_set sink_set lay connections = Raise ValueError <->
   flatten source_set = []) /\
  (create source_set sink_set lay connections
   = Raise (AssertionError AssertUniformBufferType) <->
   exists btypes b b',
     map_result (source_btype lay) (flatten source_set) = Ok btypes /\
     In b btypes /\ In b' btypes /\ b <> b') /\
  (forall e, create source_set sink_set lay connections = Raise e ->
             e = KeyError \/ e = ValueError \/
             e = AssertionError AssertUniformBufferType \/
             e = TypeError \/ e = NetworkValidationError).
Proof.
  assert (Hok : forall btypes s e,
             map_result (source_btype lay) (flatten source_set) = Ok btypes ->
             In s (flatten source_set) -> source_btype lay s = Raise e -> False).
  { intros btypes s e E Hs He. destruct (map_result_In _ _ _ E Hs) as (y & Hy & _).
    congruence. }
  destruct (create_cases source_set sink_set lay connections)
    as [[(s & Hs & Hraise) ->]|[[Hnil ->]|(b & btypes & E & Hcase)]].
  - split; [split; eauto|]. split; [split; [discriminate|]|].
    { intros Hnil. rewrite Hnil in Hs. destruct Hs. }
    split; [split; [discriminate|]|].
    { intros (bts & _ & _ & E & _). destruct (Hok _ _ _ E Hs Hraise). }
    intros e [= <-]. auto.
  - split; [split; [discriminate|]|].
    { intros (s & Hs & _). rewrite Hnil in Hs. destruct Hs. }
    split; [split; auto|]. split; [split; [discriminate|]|].
    { intros (bts & b & _ & E & Hb & _). rewrite Hnil in E. injection E as <-.
      destruct Hb. }
    intros e [= <-]. auto.
  - assert (Hne : flatten source_set <> []).
    { intros Hnil. rewrite Hnil in E. discriminate. }
    destruct Hcase as [[Em ->]|[Em Hcase]].
    + split; [split; [discriminate|]|].
      { intros (s & Hs & Hraise). destruct (Hok _ _ _ E Hs Hraise). }
      split; [split; [discriminate | intros H; destruct (Hne H)]|].
      split; [split; [intros _ | reflexivity]|].
      { destruct (not_all_equal _ _ Em) as (b' & Hb' & Hneq).
        exists (b :: btypes), b', b. split; [exact E|].
        split; [right; exact Hb'|]. split; [left; reflexivity | exact Hneq]. }
      intros e [= <-]. auto.
    + assert (Hall : Forall (fun y => y = b) (b :: btypes))
        by (apply min_eq_max_all_equal, Em).
      assert (Hno : forall x : exn,
                 create source_set sink_set lay connections = Raise x ->
                 x = TypeError \/ x = NetworkValidationError).
      { intros x Hx. destruct Hcase as [H|[H|(hub & H)]]; rewrite H in Hx;
          [injection Hx as <-; auto | injection Hx as <-; auto | discriminate]. }
      split; [split|].
      { intros H. destruct (Hno _ H); discriminate. }
      { intros (s & Hs & Hraise). destruct (Hok _ _ _ E Hs Hraise). }
      split; [split|].
      { intros H. destruct (Hno _ H); discriminate. }
      { intros H. destruct (Hne H). }
      split; [split|].
      { intros H. destruct (Hno _ H); discriminate. }
      { intros (bts & x & y & E' & Hx & Hy & Hxy). rewrite E in E'. injection E' as <-.
        pose proof (proj1 (Forall_forall _ _) Hall x Hx).
        pose proof (proj1 (Forall_forall _ _) Hall y Hy). cbv beta in *. congruence. }
      intros e He. destruct (Hno _ He); auto.
Qed.

(** What a hub built by [Hub.create] holds: its buffer type is the buffer
    type of every one of its sources, its context size is the largest
    context size among them, its sinks are the sorted sink set, its
    sources are the flat members of the source set in some order, and its
    sizes are the feature sizes of its sources in that order. *)
Theorem create_keeps_sets
        (source_set sink_set : list node) (lay : layout)
        (connections : list (string * string)) (hub : Hub) :
  create source_set sink_set lay connections = Ok hub ->
  Forall (fun s => source_btype lay s = Ok (btype hub)) (flatten source_set) /\
  (exists contexts,
      map_result (source_context_size lay) (flatten source_set) = Ok contexts /\
      Forall (fun c => c <= context_size hub) contexts /\
      In (context_size hub) contexts) /\
  sorted_nodes sink_set = Ok (sinks hub) /\
  Permutation (sources hub) (map Leaf (flatten source_set)) /\
  map_result (source_size lay) (sources hub) = Ok (sizes hub).
Proof.
  intros Hc.
  assert (Hperm : Permutation (sources hub) (map Leaf (flatten source_set))).
  { destruct (create_units _ _ _ _ Hc) as (units & Hp & ->).
    apply Permutation_map, Permutation_sym, flatten_permutation, Hp. }
  unfold create in Hc.
  destruct (map_result _ (flatten source_set)) as [btypes| |] eqn:Eb; try discriminate.
  cbn [bind] in Hc. destruct btypes as [|b btypes]; [discriminate|].
  destruct (min_eq_max (b :: btypes)) eqn:Em; cbn [negb] in Hc; [|discriminate].
  destruct (map_result _ (flatten source_set)) as [contexts| |] eqn:Ec in Hc;
    try discriminate.
  cbn [bind] in Hc.
  destruct (sorted_nodes source_set) as [srcs| |] eqn:Es; try discriminate.
  destruct (sorted_nodes sink_set) as [snks| |] eqn:Ek; try discriminate.
  cbn [bind] in Hc. unfold setup in Hc.
  set (h0 := Hub_init srcs snks b (fold_right Nat.max 0 contexts)) in Hc.
  destruct (set_up_connection_table_spec h0 connections)
    as (ct & Eset & Hb & H0 & H1 & _).
  rewrite Eset in Hc. cbn [bind] in Hc.
  set (h1 := mk_Hub (sources h0) (sinks h0) (btype h0) (context_size h0) ct
                    (sizes h0) (size h0)) in Hc.
  assert (Hset : table_set_up h1) by (split; assumption).
  pose proof (permute_rows_outcome Hset) as Hout.
  destruct (permute_rows h1) as [h2| |]; try discriminate. cbn [bind] in Hc.
  destruct Hout as (_ & _ & _ & _ & _ & Hk & Hbt & Hcs & _).
  destruct (map_result _ (sources h2)) as [szs| |] eqn:Ez; try discriminate.
  cbn [bind] in Hc. injection Hc as <-.
  cbn [sources sinks btype context_size sizes] in *.
  rewrite Hbt, Hcs, Hk. cbn [btype context_size sinks h1 h0 Hub_init].
  split; [|split; [|split; [reflexivity | split; [exact Hperm | exact Ez]]]].
  - apply min_eq_max_all_equal in Em.
    apply Forall_forall. intros s Hs.
    destruct (map_result_In _ _ _ Eb Hs) as (y & Hy & Hin).
    rewrite Hy. f_equal. apply (proj1 (Forall_forall _ _) Em y Hin).
  - exists contexts. split; [exact Ec|]. split; [apply fold_max_ge|].
    apply fold_max_In. intros Hnil. rewrite Hnil in Ec.
    apply map_result_length in Ec, Eb. simpl in Ec, Eb. congruence.
Qed.

Lemma create_keeps_sets_witness :
  Forall (fun s => source_btype abc_layout s = Ok (btype chain_created))
         (flatten abc_sources) /\
  sorted_nodes xy_sinks = Ok (sinks chain_created) /\
  Permutation (sources chain_created) (map Leaf (flatten abc_sources)).
Proof.
  destruct (@create_keeps_sets abc_sources xy_sinks abc_layout chain_connections
                               chain_created eq_refl) as (H1 & _ & H3 & H4 & _).
  auto.
Defined.

(** ** The array nodes of a layout *)

(** Induction on a layout, with the property at hand for every child. *)
Lemma layout_induction (P : layout -> Prop) :
  (forall t i s c sl h children,
      Forall (fun kv => P (snd kv)) children -> P (Node t i s c sl h children)) ->
  forall l, P l.
Proof.
  intros H. fix IH 1. intros [t i s c sl h children]. apply H.
  induction children as [|[k v] children IHc]; constructor; [apply IH | exact IHc].
Qed.

(** What the child [k: v] of a dictionary contributes to
    [gather_array_nodes], with the index it is sorted by. *)
Definition visit_child (kv : string * layout) : option nat * list string :=
  (layout_index (snd kv),
   if startswith_at (fst kv) then []
   else match layout_type (snd kv) with
        | TBufferView =>
            map (fun sub_path => fst kv ++ "." ++ sub_path)%string
                (gather_array_nodes (snd kv))
        | TArray => [fst kv]
        end).

Lemma gather_array_nodes_children t i s c sl h children :
  gather_array_nodes (Node t i s c sl h children)
  = concat (map snd (stable_sort (@index_leb _) (map visit_child children))).
Proof.
  cbn [gather_array_nodes]. do 3 f_equal.
  induction children as [|[k v] children IH]; [reflexivity|].
  cbn [map]. rewrite <- IH. reflexivity.
Qed.

Lemma gather_array_nodes_In t i s c sl h children path :
  In path (gather_array_nodes (Node t i s c sl h children)) <->
  exists k v, In (k, v) children /\ In path (snd (visit_child (k, v))).
Proof.
  rewrite gather_array_nodes_children, in_concat. split.
  - intros (ps & Hps & Hin). apply in_map_iff in Hps.
    destruct Hps as ([ix ps'] & <- & Hsorted). apply stable_sort_In in Hsorted.
    apply in_map_iff in Hsorted. destruct Hsorted as ([k v] & E & Hkv).
    exists k, v. split; [exact Hkv|]. rewrite E. exact Hin.
  - intros (k & v & Hkv & Hin). exists (snd (visit_child (k, v))). split; [|exact Hin].
    apply in_map, stable_sort_In, in_map, Hkv.
Qed.

(** A child that is not after any other in the order of [sorted] comes
    first. *)
Lemma stable_sort_first {A : Type} (leb : A -> A -> bool) x l :
  (forall y, In y l -> leb x y = true) ->
  stable_sort leb (x :: l) = x :: stable_sort leb l.
Proof.
  intros H. cbn [stable_sort fold_right]. fold (stable_sort leb l).
  assert (H' : forall y, In y (stable_sort leb l) -> leb x y = true)
    by (intros y Hy; apply stable_sort_In in Hy; apply H, Hy).
  destruct (stable_sort leb l) as [|y l']; [reflexivity|].
  cbn [insert_sorted]. rewrite (H' y (or_introl eq_refl)). reflexivity.
Qed.

(** A list that is in order already is left as it is. *)
Lemma stable_sort_sorted {A : Type} (leb : A -> A -> bool) l :
  StronglySorted (fun a b => leb a b = true) l -> stable_sort leb l = l.
Proof.
  induction 1 as [|x l _ IH Hx]; [reflexivity|].
  rewrite stable_sort_first, IH; [reflexivity|].
  intros y Hy. apply (proj1 (Forall_forall _ _) Hx y Hy).
Qed.

(** ** Registries without connections or without parameters *)

Lemma get_forced_orders_disjoint layers :
  ~ overlapping (forced_order_tuples layers) ->
  get_forced_orders layers = Ok (forced_order_tuples layers).
Proof.
  intros Hno. unfold get_forced_orders.
  destruct (check_forced_orders_spec (forced_order_tuples layers)) as [[E _]|[_ Hov]];
    [rewrite E; reflexivity | contradiction].
Qed.

Lemma get_connections_none layers :
  Forall (fun nl => outgoing (snd nl) = [] /\ get_parameter_structure (snd nl) = [])
         layers ->
  get_connections layers = [].
Proof.
  intros H. unfold get_connections.
  assert (E : forall (f : string * Layer -> list (string * string)),
             (forall nl, In nl layers -> f nl = []) -> flat_map f layers = []).
  { intros f Hf. induction layers as [|nl layers' IH]; [reflexivity|].
    cbn [flat_map]. rewrite (Hf nl (or_introl eq_refl)), IH; [reflexivity| |].
    - inversion H; assumption.
    - intros x Hx. apply Hf. right. exact Hx. }
  rewrite !E; [reflexivity| |];
    intros [name layer] Hin; apply (proj1 (Forall_forall _ _) H) in Hin;
      cbn [snd] in Hin; destruct Hin as [Ho Hp]; rewrite ?Ho, ?Hp; reflexivity.
Qed.

(** A registry without any connection (no layer has an outgoing
    connection or a parameter) cannot be laid out: taking the consumers
    of the empty connection list is an IndexError.  The check of the
    forced orders comes first. *)
Theorem create_layout_without_connections
        (set_order : list node -> list node) (layers : list (string * Layer)) :
  Forall (fun nl => outgoing (snd nl) = [] /\ get_parameter_structure (snd nl) = [])
         layers ->
  (~ overlapping (forced_order_tuples layers) ->
   create_layout set_order layers = Raise IndexError) /\
  (overlapping (forced_order_tuples layers) ->
   create_layout set_order layers = Raise (AssertionError AssertForcedOrdersOverlap)).
Proof.
  intros Hnone. unfold create_layout. split; intros Hov.
  - rewrite (get_forced_orders_disjoint _ Hov), (get_connections_none Hnone).
    reflexivity.
  - unfold get_forced_orders.
    destruct (check_forced_orders_spec (forced_order_tuples layers)) as [[_ Hno]|[E _]];
      [contradiction | rewrite E; reflexivity].
Qed.

Definition lone_input : list (string * Layer) :=
  [("in", mk_Layer [] [("default", template 1 4)] [] [] [])]%string.

Lemma lone_input_unconnected :
  Forall (fun nl => outgoing (snd nl) = [] /\ get_parameter_structure (snd nl) = [])
         lone_input.
Proof. repeat constructor. Qed.

Lemma create_layout_without_connections_witness :
  create_layout (fun l => l) [] = Raise IndexError /\
  create_layout (fun l => l) lone_input = Raise IndexError.
Proof.
  assert (Hno : forall layers, forced_order_tuples layers = [] ->
                               ~ overlapping (forced_order_tuples layers)).
  { intros layers E (i & j & fo & other & p & _ & Hi & _). rewrite E in Hi.
    destruct i; discriminate. }
  split.
  - apply (proj1 (@create_layout_without_connections (fun l => l) [] (Forall_nil _))).
    apply Hno. reflexivity.
  - apply (proj1 (@create_layout_without_connections (fun l => l) lone_input
                    lone_input_unconnected)).
    apply Hno. reflexivity.
Defined.

Lemma dict_set_Forall {V : Type} (P : string * V -> Prop) k v d :
  Forall P d -> P (k, v) -> Forall P (dict_set k v d).
Proof.
  intros Hd Hv. induction Hd as [|[k' v'] d Hx Hd IH]; cbn [dict_set].
  - constructor; [exact Hv | constructor].
  - destruct (String.eqb k' k); constructor; auto.
Qed.

(** The entry of the parameters in the stub: an array without shape. *)
Definition parameters_stub : layout := Node TArray (Some 0) None None None None [].

(** When no layer is called 'parameters' the entry of the parameters stays
    the first child of the root, and every other child carries an index. *)
Lemma stub_children_head layers :
  ~ In "parameters"%string (map fst layers) ->
  exists tail,
    create_layout_stub layers
    = buffer_view None (("parameters"%string, parameters_stub) :: tail) /\
    Forall (fun kv => layout_index (snd kv) <> None) tail.
Proof.
  intros Hname. unfold create_layout_stub. fold parameters_stub.
  assert (H : forall lyrs k acc,
             ~ In "parameters"%string (map fst lyrs) ->
             Forall (fun kv : string * layout => layout_index (snd kv) <> None) acc ->
             exists tail,
               fold_left
                 (fun root '(i, (layer_name, layer)) =>
                    dict_set layer_name (get_layout_stub_for_layer layer i) root)
                 (enumerate_from k lyrs)
                 (("parameters"%string, parameters_stub) :: acc)
               = ("parameters"%string, parameters_stub) :: tail /\
               Forall (fun kv : string * layout => layout_index (snd kv) <> None) tail).
  { induction lyrs as [|[name layer] lyrs IH]; intros k acc Hn Hacc.
    - exists acc. split; [reflexivity | exact Hacc].
    - change (enumerate_from k ((name, layer) :: lyrs))
        with ((k, (name, layer)) :: enumerate_from (S k) lyrs).
      cbn [fold_left dict_set].
      destruct (String.eqb_spec "parameters" name) as [<-|Hne].
      + destruct Hn. left. reflexivity.
      + apply IH; [intros Hin; apply Hn; right; exact Hin|].
        apply dict_set_Forall; [exact Hacc | discriminate]. }
  destruct (H layers 1 [] Hname (Forall_nil _)) as (tail & -> & Htail).
  exists tail. auto.
Qed.

(** The entry of the parameters is then the first array node. *)
Lemma gather_stub_head layers :
  ~ In "parameters"%string (map fst layers) ->
  exists rest,
    gather_array_nodes (create_layout_stub layers) = "parameters"%string :: rest.
Proof.
  intros Hname. destruct (stub_children_head layers Hname) as (tail & -> & Htail).
  unfold buffer_view. rewrite gather_array_nodes_children. cbn [map].
  rewrite stable_sort_first.
  - cbn [map concat]. eexists. reflexivity.
  - intros y Hy. apply in_map_iff in Hy. destruct Hy as ([k v] & <- & Hkv).
    apply (proj1 (Forall_forall _ _) Htail) in Hkv. cbn [snd] in Hkv.
    unfold index_leb, visit_child. cbn [fst snd layout_index parameters_stub].
    destruct (layout_index v) as [ix|]; [|contradiction].
    apply Z.leb_le. simpl. lia.
Qed.

Lemma place_source_extends s acc fos :
  exists ext, place_source s acc fos = acc ++ ext.
Proof.
  induction fos as [|fo fos IH]; cbn [place_source]; [eauto|].
  destruct (str_in s (flatten acc)); [exists []; symmetry; apply app_nil_r|].
  destruct (str_in s fo); [eauto | exact IH].
Qed.

Lemma place_source_fresh s acc fos :
  ~ In s (flatten acc) -> (forall fo, In fo fos -> ~ In s fo) ->
  place_source s acc fos = acc ++ [Leaf s].
Proof.
  intros Hacc Hfo. induction fos as [|fo fos IH]; cbn [place_source]; [reflexivity|].
  destruct (str_in s (flatten acc)) eqn:E1; [apply str_in_In in E1; contradiction|].
  destruct (str_in s fo) eqn:E2.
  - apply str_in_In in E2. destruct (Hfo fo (or_introl eq_refl) E2).
  - apply IH. intros fo' H. apply Hfo. right. exact H.
Qed.

(** The sources gathered so far stay where they are. *)
Lemma gather_sources_extends (all_sinks : list string) fos nodes :
  forall acc, exists ext,
      fold_left (fun all_sources s =>
                   if str_in s all_sinks then all_sources
                   else place_source s all_sources fos)
                nodes acc
      = acc ++ ext.
Proof.
  induction nodes as [|s nodes IH]; intros acc; cbn [fold_left].
  - exists []. symmetry. apply app_nil_r.
  - destruct (str_in s all_sinks); [apply IH|].
    destruct (place_source_extends s acc fos) as (ext1 & ->).
    destruct (IH (acc ++ ext1)) as (ext2 & ->).
    exists (ext1 ++ ext2). symmetry. apply app_assoc.
Qed.

(** The forward closure of a node that starts no connection is the node
    alone. *)
Lemma closure_of_isolated set_order n conns :
  (forall l, Permutation (set_order l) l) ->
  (forall b, ~ In (n, b) conns) ->
  get_forward_closure set_order n conns = Ok ([n], []).
Proof.
  intros Hperm Hno.
  destruct (@get_forward_closure_spec set_order Hperm conns n) as (S & T & -> & I & _).
  destruct (inv_sources_reached I) as [H|(-> & HS & _)].
  - destruct (H n (inv_seed I)) as (b & Hin & _). destruct (Hno b Hin).
  - do 2 f_equal. pose proof (inv_NoDup_sources I) as Hnd. pose proof (inv_seed I) as Hn.
    destruct S as [|a S]; [destruct Hn|].
    rewrite (HS a (or_introl eq_refl)). f_equal.
    destruct S as [|b S]; [reflexivity|].
    inversion Hnd as [|? ? Ha _]; subst. destruct Ha. left.
    rewrite (HS b (or_intror (or_introl eq_refl))).
    symmetry. apply HS. left. reflexivity.
Qed.

(** A registry that declares connections but connects nothing to the
    endpoint 'parameters' (no layer has a parameter) cannot be laid out
    either.  The entry of the parameters in the stub is an array without
    ['@shape']; as it is no consumer it becomes the first source, the first
    hub is built for it alone, and reading its buffer type is a
    KeyError. *)
Theorem create_layout_without_parameters
        (set_order : list node -> list node) (layers : list (string * Layer)) :
  (forall l, Permutation (set_order l) l) ->
  ~ overlapping (forced_order_tuples layers) ->
  get_connections layers <> [] ->
  (forall c, In c (get_connections layers) ->
             fst c <> "parameters"%string /\ snd c <> "parameters"%string) ->
  (forall fo, In fo (forced_order_tuples layers) -> ~ In "parameters"%string fo) ->
  ~ In "parameters"%string (map fst layers) ->
  create_layout set_order layers = Raise KeyError.
Proof.
  intros Hperm Hov Hne Hends Hfos Hname.
  unfold create_layout. rewrite (get_forced_orders_disjoint _ Hov). cbn [bind].
  remember (forced_order_tuples layers) as fos eqn:Efos.
  remember (get_connections layers) as conns eqn:Econns.
  set (lay := create_layout_stub layers).
  destruct conns as [|c0 conns0]; [contradiction|].
  set (conns := c0 :: conns0) in *.
  (* the first source is the entry of the parameters *)
  assert (Hsrc : exists all_sinks ext,
             get_all_sinks_and_sources fos conns lay
             = Ok (all_sinks, Leaf "parameters"%string :: ext)).
  { unfold get_all_sinks_and_sources, conns. fold conns.
    destruct (gather_stub_head layers Hname) as (rest & Eg). fold lay in Eg.
    rewrite Eg. cbn [fold_left].
    assert (Hsink : str_in "parameters" (stable_sort String.leb (map snd conns)) = false).
    { destruct (str_in _ _) eqn:E; [|reflexivity].
      apply str_in_In, stable_sort_In, in_map_iff in E.
      destruct E as (c & Hc & Hin). destruct (proj2 (Hends c Hin) Hc). }
    rewrite Hsink, (place_source_fresh _ [] fos); [|intros []|exact Hfos].
    destruct (gather_sources_extends (stable_sort String.leb (map snd conns)) fos rest
                                     ([] ++ [Leaf "parameters"%string])) as (ext & ->).
    exists (stable_sort String.leb (map snd conns)), ext. reflexivity. }
  destruct Hsrc as (all_sinks & ext & ->). cbn [bind].
  unfold group_into_hubs. cbn [length group_loop].
  (* its hub holds it alone *)
  rewrite (@closure_of_isolated set_order (Leaf "parameters"%string)
             (merge_connections conns fos) Hperm).
  2: { intros b Hin. unfold merge_connections in Hin. apply in_map_iff in Hin.
       destruct Hin as ([start stop] & E & Hin). injection E as E _.
       destruct (merge_node_leaf fos start) as [[Em _]|(fo & _ & _ & Em)];
         rewrite Em in E; [|discriminate].
       injection E as ->. apply (proj1 (Hends _ Hin)). reflexivity. }
  cbn [bind for_each list_remove]. rewrite node_eqb_refl. cbn [bind].
  (* and its buffer type cannot be read *)
  match goal with
  | |- context [create ?S ?T lay conns] =>
      replace (create S T lay conns) with (@Raise Hub KeyError); [reflexivity|]
  end.
  unfold create, lay.
  destruct (stub_children_head layers Hname) as (tail & -> & _). reflexivity.
Qed.

(** An input layer connected to an output layer, no parameters. *)
Definition unparameterized : list (string * Layer) :=
  [("in", mk_Layer [] [("default", template 1 4)] [] []
                   [mk_Connection "in" "default" "out" "default"]);
   ("out", mk_Layer [("default", template 1 4)] [] [] [] [])]%string.

Lemma create_layout_without_parameters_witness :
  get_connections unparameterized = [("in.outputs.default", "out.inputs.default")]%string /\
  create_layout (fun l => l) unparameterized = Raise KeyError.
Proof.
  split; [reflexivity|].
  apply (@create_layout_without_parameters (fun l => l) unparameterized).
  - intros l. apply Permutation_refl.
  - intros (i & j & fo & other & p & _ & Hi & _). destruct i; discriminate.
  - discriminate.
  - intros c [<-|[]]. split; discriminate.
  - intros fo [].
  - simpl. intuition discriminate.
Defined.

(** ** Sinks and sources *)

Lemma place_source_covers s acc fos :
  In s (flatten (place_source s acc fos)).
Proof.
  induction fos as [|fo fos IH]; cbn [place_source].
  - apply flatten_In. exists (Leaf s). split; [apply in_or_app; right|]; left; reflexivity.
  - destruct (str_in s (flatten acc)) eqn:E1; [apply str_in_In, E1|].
    destruct (str_in s fo) eqn:E2; [|exact IH].
    apply flatten_In. exists (Tuple fo).
    split; [apply in_or_app; right; left; reflexivity | apply str_in_In, E2].
Qed.

(** Where a unit that [place_source] adds comes from. *)
Lemma place_source_new s acc fos u :
  In u (place_source s acc fos) ->
  In u acc \/
  (u = Leaf s /\ forall fo, In fo fos -> ~ In s fo) \/
  (exists fo, u = Tuple fo /\ In fo fos /\ In s fo).
Proof.
  induction fos as [|fo fos IH]; cbn [place_source].
  - intros H. apply in_app_or in H. destruct H as [H|[<-|[]]]; [auto|].
    right. left. split; [reflexivity | intros fo []].
  - destruct (str_in s (flatten acc)); [auto|].
    destruct (str_in s fo) eqn:E.
    + intros H. apply in_app_or in H. destruct H as [H|[<-|[]]]; [auto|].
      right. right. exists fo. split; [reflexivity|].
      split; [left; reflexivity | apply str_in_In, E].
    + intros H. destruct (IH H) as [H'|[[H1 H2]|(fo' & H1 & H2 & H3)]]; [auto| |].
      * right. left. split; [exact H1|]. intros fo' [<-|Hfo']; [|apply H2, Hfo'].
        intros Hs. apply str_in_In in Hs. congruence.
      * right. right. exists fo'. auto using in_cons.
Qed.

Lemma get_all_sinks_and_sources_value fos conns lay r :
  get_all_sinks_and_sources fos conns lay = Ok r ->
  r = (stable_sort String.leb (map snd conns),
       fold_left
         (fun all_sources s =>
            if str_in s (stable_sort String.leb (map snd conns)) then all_sources
            else place_source s all_sources fos)
         (gather_array_nodes lay) []).
Proof.
  unfold get_all_sinks_and_sources. destruct conns; [discriminate|].
  intros [= <-]. reflexivity.
Qed.

Lemma get_all_sinks_and_sources_spec
        (forced_orders : list (list string)) (connections : list (string * string))
        (lay : layout) (all_sinks : list string) (all_sources : list node) :
  get_all_sinks_and_sources forced_orders connections lay = Ok (all_sinks, all_sources) ->
  Permutation all_sinks (map snd connections) /\
  (forall s, In s (gather_array_nodes lay) ->
             In s all_sinks \/ In s (flatten all_sources)) /\
  (forall s, In (Leaf s) all_sources ->
             In s (gather_array_nodes lay) /\ ~ In s all_sinks /\
             forall fo, In fo forced_orders -> ~ In s fo) /\
  (forall fo, In (Tuple fo) all_sources ->
              In fo forced_orders /\
              exists s, In s fo /\ In s (gather_array_nodes lay) /\ ~ In s all_sinks).
Proof.
  intros H. apply get_all_sinks_and_sources_value in H. injection H as -> ->.
  remember (stable_sort String.leb (map snd connections)) as sinks eqn:Esinks.
  split; [rewrite Esinks; apply stable_sort_permutation|].
  set (step := fun (all_sources : list node) s =>
                 if str_in s sinks then all_sources
                 else place_source s all_sources forced_orders).
  set (known := fun (seen : list string) (u : node) =>
                  match u with
                  | Leaf s => In s seen /\ ~ In s sinks /\
                              forall fo, In fo forced_orders -> ~ In s fo
                  | Tuple fo => In fo forced_orders /\
                                exists s, In s fo /\ In s seen /\ ~ In s sinks
                  end).
  assert (Hmono : forall seen seen' u,
             incl seen seen' -> known seen u -> known seen' u).
  { intros seen seen' [s|fo] Hincl; cbn.
    - intros (H1 & H2 & H3). auto.
    - intros (H1 & s & H2 & H3 & H4). split; [exact H1|]. exists s. auto. }
  assert (Hloop : forall nodes seen acc,
             Forall (known seen) acc ->
             Forall (known (seen ++ nodes)) (fold_left step nodes acc) /\
             (forall s, In s (flatten acc) -> In s (flatten (fold_left step nodes acc))) /\
             (forall s, In s nodes ->
                        In s sinks \/ In s (flatten (fold_left step nodes acc)))).
  { induction nodes as [|x nodes IH]; intros seen acc Hacc; cbn [fold_left].
    - rewrite app_nil_r. split; [exact Hacc|]. split; [auto | intros s []].
    - assert (Hstep : Forall (known (seen ++ [x])) (step acc x)).
      { unfold step. destruct (str_in x sinks) eqn:Es.
        - apply Forall_forall. intros u Hu.
          apply (Hmono seen); [apply incl_appl, incl_refl|].
          apply (proj1 (Forall_forall _ _) Hacc u Hu).
        - apply Forall_forall. intros u Hu.
          destruct (place_source_new _ _ _ _ Hu) as [H|[[-> Hnone]|(fo & -> & Hfo & Hx)]].
          + apply (Hmono seen); [apply incl_appl, incl_refl|].
            apply (proj1 (Forall_forall _ _) Hacc u H).
          + cbn. split; [apply in_or_app; right; left; reflexivity|].
            split; [intros H; apply str_in_In in H; congruence|].
            exact Hnone.
          + cbn. split; [exact Hfo|]. exists x.
            split; [exact Hx|]. split; [apply in_or_app; right; left; reflexivity|].
            intros H; apply str_in_In in H; congruence. }
      destruct (IH (seen ++ [x]) (step acc x) Hstep) as (I1 & I2 & I3).
      rewrite <- app_assoc in I1. split; [exact I1|]. split.
      + intros s Hs. apply I2. unfold step. destruct (str_in x sinks); [exact Hs|].
        destruct (place_source_extends x acc forced_orders) as (ext & ->).
        unfold flatten in *. rewrite flat_map_app. apply in_or_app. left. exact Hs.
      + intros s [<-|Hs]; [|apply I3, Hs].
        destruct (str_in x sinks) eqn:Es.
        * left. apply str_in_In, Es.
        * right. apply I2. unfold step. rewrite Es. apply place_source_covers. }
  destruct (Hloop (gather_array_nodes lay) [] [] (Forall_nil _)) as (I1 & _ & I3).
  cbn [app] in I1. split; [exact I3|]. split.
  - intros s Hs. apply (proj1 (Forall_forall _ _) I1 _ Hs).
  - intros fo Hfo. apply (proj1 (Forall_forall _ _) I1 _ Hfo).
Qed.

(** [get_all_sinks_and_sources] on a non-empty connection list: the sinks
    are the consumers of the connections; every array node of the layout
    is a sink or a member of a source unit; a plain source is an array
    node that is no sink and belongs to no forced order, and a tuple among
    the sources is a forced order one of whose members is such an array
    node. *)
Theorem sources_cover_array_nodes
        (forced_orders : list (list string)) (connections : list (string * string))
        (lay : layout) (all_sinks : list string) (all_sources : list node) :
  get_all_sinks_and_sources forced_orders connections lay = Ok (all_sinks, all_sources) ->
  Permutation all_sinks (map snd connections) /\
  (forall s, In s (gather_array_nodes lay) ->
             In s all_sinks \/ In s (flatten all_sources)) /\
  (forall s, In (Leaf s) all_sources ->
             In s (gather_array_nodes lay) /\ ~ In s all_sinks /\
             forall fo, In fo forced_orders -> ~ In s fo) /\
  (forall fo, In (Tuple fo) all_sources ->
              In fo forced_orders /\
              exists s, In s fo /\ In s (gather_array_nodes lay) /\ ~ In s all_sinks).
Proof. apply get_all_sinks_and_sources_spec. Qed.

Definition demo_sinks_and_sources : list string * list node :=
  Eval vm_compute in
    match get_all_sinks_and_sources (forced_order_tuples demo_layers)
                                    (get_connections demo_layers)
                                    (create_layout_stub demo_layers) with
    | Ok r => r
    | _ => ([], [])
    end.

Lemma sources_cover_array_nodes_witness :
  snd demo_sinks_and_sources
  = [Leaf "in.outputs.default"; Leaf "fc1.outputs.default";
     Tuple ["fc1.parameters.W"; "fc1.parameters.b"]; Leaf "fc2.outputs.default";
     Tuple ["fc2.parameters.W"; "fc2.parameters.b"];
     Tuple ["fc2.internals.H"]]%string /\
  forall s, In s (gather_array_nodes (create_layout_stub demo_layers)) ->
            In s (fst demo_sinks_and_sources) \/
            In s (flatten (snd demo_sinks_and_sources)).
Proof.
  split; [reflexivity|].
  apply (@sources_cover_array_nodes
           (forced_order_tuples demo_layers) (get_connections demo_layers)
           (create_layout_stub demo_layers)
           (fst demo_sinks_and_sources) (snd demo_sinks_and_sources)).
  reflexivity.
Defined.

(** ** Every source is in one hub *)

Lemma list_remove_permutation x l l' :
  list_remove x l = Ok l' -> Permutation l (x :: l').
Proof.
  revert l'; induction l as [|y l IH]; intros l'; cbn [list_remove]; [discriminate|].
  destruct (node_eqb y x) eqn:E.
  - intros [= <-]. apply node_eqb_eq in E. subst. reflexivity.
  - destruct (list_remove x l) as [l''| |]; try discriminate. cbn [bind].
    intros [= <-]. rewrite (IH l'' eq_refl). apply perm_swap.
Qed.

Lemma remove_all_split S : forall rem rem',
  for_each (fun r s => list_remove s r) S rem = Ok rem' ->
  Permutation rem (S ++ rem').
Proof.
  induction S as [|s S IH]; intros rem rem'; cbn [for_each].
  - intros [= <-]. reflexivity.
  - destruct (list_remove s rem) as [rem1| |] eqn:E; try discriminate. cbn [bind].
    intros H. rewrite (list_remove_permutation _ _ E). cbn [app].
    constructor. apply (IH _ _ H).
Qed.

Lemma group_loop_partition set_order m_cons lay conns fuel :
  forall remaining hubs,
    group_loop set_order fuel remaining m_cons lay conns = Ok hubs ->
    Permutation (flat_map sources hubs) (map Leaf (flatten remaining)).
Proof.
  induction fuel as [|fuel IH]; intros remaining hubs; cbn [group_loop];
    destruct remaining as [|n rest]; try discriminate;
      try (intros [= <-]; reflexivity).
  destruct (get_forward_closure set_order n m_cons) as [[S T]| |]; try discriminate.
  cbn [bind].
  destruct (for_each _ S (n :: rest)) as [rem| |] eqn:Er; try discriminate.
  cbn [bind].
  destruct (create S T lay conns) as [hub| |] eqn:Eh; try discriminate.
  cbn [bind].
  destruct (group_loop set_order fuel rem m_cons lay conns) as [hubs0| |] eqn:Eg;
    try discriminate.
  cbn [bind]. intros [= <-]. cbn [flat_map].
  destruct (create_units _ _ _ _ Eh) as (units & Hperm & ->).
  rewrite (IH _ _ Eg), <- map_app. apply Permutation_map.
  unfold flatten. rewrite <- flat_map_app. apply Permutation_flat_map.
  rewrite <- Hperm. apply Permutation_sym, (remove_all_split _ _ Er).
Qed.

(** [group_into_hubs] distributes the sources over the hubs: the source
    lists of the hubs, taken together, hold the flat members of the given
    sources, each as often as it was given. *)
Theorem group_into_hubs_partitions_sources
        (set_order : list node -> list node) (remaining_sources : list node)
        (forced_orders : list (list string)) (connections : list (string * string))
        (lay : layout) (hubs : list Hub) :
  group_into_hubs set_order remaining_sources forced_orders connections lay = Ok hubs ->
  Permutation (flat_map sources hubs) (map Leaf (flatten remaining_sources)).
Proof. apply group_loop_partition. Qed.

Definition demo_groups : list Hub :=
  Eval vm_compute in
    match group_into_hubs (fun l => l) (snd demo_sinks_and_sources)
                          (forced_order_tuples demo_layers)
                          (get_connections demo_layers)
                          (create_layout_stub demo_layers) with
    | Ok hubs => hubs
    | _ => []
    end.

Lemma group_into_hubs_partitions_sources_witness :
  Permutation (flat_map sources demo_groups)
              (map Leaf (flatten (snd demo_sinks_and_sources))).
Proof.
  apply (@group_into_hubs_partitions_sources
           (fun l => l) (snd demo_sinks_and_sources)
           (forced_order_tuples demo_layers) (get_connections demo_layers)
           (create_layout_stub demo_layers) demo_groups).
  reflexivity.
Defined.

(** In a layout produced without error every array node of the stub that
    no connection ends in is a source of one of the hubs. *)
Theorem create_layout_places_every_source
        (set_order : list node -> list node) (layers : list (string * Layer))
        (hubs : list Hub) (lay : layout) :
  create_layout set_order layers = Ok (hubs, lay) ->
  forall s,
    In s (gather_array_nodes (create_layout_stub layers)) ->
    ~ In s (map snd (get_connections layers)) ->
    exists hub, In hub hubs /\ In (Leaf s) (sources hub).
Proof.
  intros Hc s Hs Hsink.
  destruct (create_layout_inv _ _ Hc)
    as (all_sinks & all_sources & hubs0 & _ & _ & Ea & Eg & ->).
  destruct (get_all_sinks_and_sources_spec _ _ _ Ea) as (Hp & Hcover & _).
  destruct (Hcover s Hs) as [H|H].
  - destruct Hsink. apply (Permutation_in _ Hp H).
  - apply (in_map Leaf) in H.
    apply (Permutation_in _ (Permutation_sym (group_loop_partition _ _ _ _ _ _ Eg))) in H.
    apply in_flat_map in H. destruct H as (hub & Hhub & Hin).
    exists hub. split; [apply stable_sort_In, Hhub | exact Hin].
Qed.

Lemma create_layout_places_every_source_witness :
  exists hub, In hub (fst demo_result) /\
              In (Leaf "fc2.internals.H"%string) (sources hub).
Proof.
  apply (@create_layout_places_every_source
           (fun l => l) demo_layers (fst demo_result) (snd demo_result)).
  - exact demo_result_ok.
  - vm_compute. tauto.
  - vm_compute. intuition discriminate.
Defined.

(** ** What [layout_hubs] changes *)

(** The layout without its ['@slice'] and ['@hub'] entries. *)
Fixpoint clear_slices (l : layout) : layout :=
  match l with
  | Node t i s c _ _ children =>
      Node t i s c None None (map (fun '(k, v) => (k, clear_slices v)) children)
  end.

Lemma dict_set_same_image {V W : Type} (f : V -> W) k v v' (d : list (string * V)) :
  dict_get k d = Some v -> f v' = f v ->
  map (fun '(k0, v0) => (k0, f v0)) (dict_set k v' d)
  = map (fun '(k0, v0) => (k0, f v0)) d.
Proof.
  intros Hget Hf. induction d as [|[k1 v1] d IH]; [discriminate|].
  cbn [dict_get dict_set] in *. destruct (String.eqb_spec k1 k) as [->|Hne].
  - injection Hget as ->. cbn [map]. rewrite Hf. reflexivity.
  - cbn [map]. rewrite (IH Hget). reflexivity.
Qed.

Lemma update_by_segments_clear _slice hub_nr segs :
  forall l l',
    update_by_segments segs (set_slice_and_hub _slice hub_nr) l = Ok l' ->
    clear_slices l' = clear_slices l.
Proof.
  induction segs as [|p segs IH]; intros [t i s c sl h children] l';
    cbn [update_by_segments].
  - intros [= <-]. reflexivity.
  - destruct (dict_get p children) as [child|] eqn:Eg; try discriminate.
    cbn [of_option bind].
    destruct (update_by_segments segs _ child) as [child'| |] eqn:Eu; try discriminate.
    cbn [bind]. intros [= <-]. cbn [clear_slices]. f_equal.
    apply (@dict_set_same_image _ _ clear_slices _ _ _ _ Eg (IH _ _ Eu)).
Qed.

Lemma gather_clear_slices l :
  gather_array_nodes (clear_slices l) = gather_array_nodes l.
Proof.
  induction l as [t i s c sl h children IH] using layout_induction.
  cbn [clear_slices]. rewrite !gather_array_nodes_children, map_map. do 3 f_equal.
  apply map_ext_in. intros [k v] Hin.
  pose proof (proj1 (Forall_forall _ _) IH _ Hin) as IHv. cbn [snd] in IHv.
  unfold visit_child. cbn [fst snd]. rewrite IHv. destruct v. reflexivity.
Qed.

Lemma layout_hubs_clear (hubs : list Hub) (lay lay' : layout) :
  layout_hubs hubs lay = Ok lay' -> clear_slices lay' = clear_slices lay.
Proof.
  unfold layout_hubs. generalize (enumerate_from 0 hubs) as ehubs.
  intros ehubs. revert lay.
  induction ehubs as [|[hub_nr hub] ehubs IH]; intros lay; cbn [for_each].
  - intros [= <-]. reflexivity.
  - destruct (get_indices hub) as [indices| |]; try discriminate. cbn [bind].
    match goal with
    | |- context [for_each ?body indices lay] =>
        destruct (for_each body indices lay) as [lay1| |] eqn:E1; try discriminate;
          assert (H1 : clear_slices lay1 = clear_slices lay)
    end.
    { clear IH. revert lay E1.
      induction indices as [|[[path|g] _slice] indices IHi]; intros lay; cbn [for_each].
      - intros [= <-]. reflexivity.
      - destruct (update_by_segments _ _ lay) as [lay2| |] eqn:E2; try discriminate.
        cbn [bind]. intros E1. rewrite (IHi _ E1).
        apply (update_by_segments_clear _ _ _ _ E2).
      - discriminate. }
    cbn [bind]. intros H. rewrite (IH _ H). exact H1.
Qed.

(** [layout_hubs] only fills in ['@slice'] and ['@hub']: the keys of every
    dictionary, their order, and the types, indices, shapes and context
    sizes of the entries are those of the layout it was given, and
    [gather_array_nodes] yields the same paths before and after. *)
Theorem layout_hubs_keeps_structure (hubs : list Hub) (lay lay' : layout) :
  layout_hubs hubs lay = Ok lay' ->
  clear_slices lay' = clear_slices lay /\
  gather_array_nodes lay' = gather_array_nodes lay.
Proof.
  intros H. pose proof (layout_hubs_clear _ _ H) as E. split; [exact E|].
  rewrite <- (gather_clear_slices lay'), E. apply gather_clear_slices.
Qed.

Definition demo_stub_layout : layout :=
  Eval vm_compute in
    match layout_hubs (fst demo_result) (create_layout_stub demo_layers) with
    | Ok l => l
    | _ => buffer_view None []
    end.

Lemma layout_hubs_keeps_structure_witness :
  clear_slices demo_stub_layout = clear_slices (create_layout_stub demo_layers) /\
  gather_array_nodes demo_stub_layout
  = gather_array_nodes (create_layout_stub demo_layers).
Proof.
  apply (@layout_hubs_keeps_structure (fst demo_result)). reflexivity.
Defined.

Lemma dict_get_set_same {V : Type} k (v : V) d : dict_get k (dict_set k v d) = Some v.
Proof.
  induction d as [|[k1 v1] d IH]; cbn [dict_set dict_get].
  - rewrite String.eqb_refl. reflexivity.
  - destruct (String.eqb k1 k) eqn:E; cbn [dict_get]; rewrite ?String.eqb_refl, ?E; auto.
Qed.

Lemma dict_get_set_other {V : Type} k k' (v : V) d :
  k <> k' -> dict_get k (dict_set k' v d) = dict_get k d.
Proof.
  intros Hne. induction d as [|[k1 v1] d IH]; cbn [dict_set dict_get].
  - destruct (String.eqb_spec k' k); [congruence | reflexivity].
  - destruct (String.eqb_spec k1 k') as [->|Hne1]; cbn [dict_get].
    + destruct (String.eqb_spec k' k); [congruence|].
      reflexivity.
    + destruct (String.eqb k1 k); [reflexivity | exact IH].
Qed.

(** Writing through a path and reading through the same path. *)
Lemma update_then_get f segs :
  forall l l',
    update_by_segments segs f l = Ok l' ->
    exists n, get_by_segments segs l = Ok n /\ get_by_segments segs l' = Ok (f n).
Proof.
  induction segs as [|p segs IH]; intros [t i s c sl h children] l';
    cbn [update_by_segments get_by_segments layout_children].
  - intros [= <-]. eauto.
  - destruct (dict_get p children) as [child|]; try discriminate.
    cbn [of_option bind].
    destruct (update_by_segments segs f child) as [child'| |] eqn:Eu; try discriminate.
    cbn [bind]. intros [= <-]. cbn [layout_children].
    rewrite dict_get_set_same. cbn [of_option bind]. apply (IH _ _ Eu).
Qed.

(** Writing through one path and reading through another one: the slice
    and the hub found there are the ones that were there. *)
Lemma update_then_get_other _slice hub_nr q :
  forall p l l' n,
    p <> q ->
    update_by_segments q (set_slice_and_hub _slice hub_nr) l = Ok l' ->
    get_by_segments p l = Ok n ->
    exists n', get_by_segments p l' = Ok n' /\
               layout_slice n' = layout_slice n /\ layout_hub n' = layout_hub n.
Proof.
  induction q as [|b q IH]; intros p [t i s c sl h children] l' n Hne;
    cbn [update_by_segments].
  - intros [= <-]. destruct p as [|a p]; [contradiction|].
    cbn [get_by_segments set_slice_and_hub layout_children]. eauto.
  - destruct (dict_get b children) as [child|] eqn:Eb; try discriminate.
    cbn [of_option bind].
    destruct (update_by_segments q _ child) as [child'| |] eqn:Eu; try discriminate.
    cbn [bind]. intros [= <-]. destruct p as [|a p].
    + cbn [get_by_segments]. intros [= <-]. eexists. split; [reflexivity|]. auto.
    + cbn [get_by_segments layout_children].
      destruct (String.eqb_spec a b) as [->|Hab].
      * rewrite Eb, dict_get_set_same. cbn [of_option bind].
        apply (IH p child child' n); [congruence | exact Eu].
      * rewrite (dict_get_set_other _ _ Hab). eauto.
Qed.

(** The entry at [segs] carries the slice [_slice] and the hub number
    [hub_nr]. *)
Definition carries (segs : list string) (_slice : Z * Z) (hub_nr : nat)
           (l : layout) : Prop :=
  exists n, get_by_segments segs l = Ok n /\
            layout_slice n = Some _slice /\ layout_hub n = Some hub_nr.

Lemma write_carries segs _slice hub_nr q sl2 nr2 l l' :
  update_by_segments q (set_slice_and_hub sl2 nr2) l = Ok l' ->
  (q = segs -> sl2 = _slice /\ nr2 = hub_nr) ->
  carries segs _slice hub_nr l \/ q = segs ->
  carries segs _slice hub_nr l'.
Proof.
  intros Hu Hagree Hcase.
  destruct (list_eq_dec string_dec q segs) as [->|Hne].
  - destruct (Hagree eq_refl) as [-> ->].
    destruct (update_then_get _ _ _ Hu) as ([t i s c sl h ch] & _ & Hg).
    eexists. split; [exact Hg|]. split; reflexivity.
  - destruct Hcase as [(n & Hg & Hs & Hh)|]; [|contradiction].
    assert (Hne' : segs <> q) by congruence.
    destruct (update_then_get_other _ _ _ Hne' Hu Hg) as (n' & Hg' & Hs' & Hh').
    exists n'. split; [exact Hg'|]. split; congruence.
Qed.

(** The writes of [layout_hubs] for one hub. *)
Lemma hub_writes_carry segs _slice hub_nr nr2 indices :
  forall l l',
    for_each
      (fun lay '(buffer_name, sl2) =>
         match buffer_name with
         | Leaf path =>
             update_by_segments (split_on "."%char path) (set_slice_and_hub sl2 nr2) lay
         | Tuple _ => Raise AttributeError
         end)
      indices l = Ok l' ->
    (forall path sl2, In (Leaf path, sl2) indices -> split_on "."%char path = segs ->
                      sl2 = _slice /\ nr2 = hub_nr) ->
    carries segs _slice hub_nr l \/
    (exists path sl2, In (Leaf path, sl2) indices /\ split_on "."%char path = segs) ->
    carries segs _slice hub_nr l'.
Proof.
  induction indices as [|[[path|g] sl2] indices IH]; intros l l'; cbn [for_each].
  - intros [= <-] _ [H|(path & sl2 & [] & _)]. exact H.
  - destruct (update_by_segments _ _ l) as [l1| |] eqn:Eu; try discriminate.
    cbn [bind]. intros Hrest Hagree Hcase. apply (IH _ _ Hrest).
    + intros path' sl' Hin. apply Hagree. right. exact Hin.
    + destruct Hcase as [H|(path' & sl' & [[= <- <-]|Hin] & Hsegs)].
      * left. apply (write_carries Eu); [|left; exact H].
        intros Hq. apply (Hagree path sl2); [left; reflexivity | exact Hq].
      * left. apply (write_carries Eu); [|right; exact Hsegs].
        intros Hq. apply (Hagree path sl2); [left; reflexivity | exact Hq].
      * destruct (list_eq_dec string_dec (split_on "."%char path) segs) as [Hq|Hq].
        -- left. apply (write_carries Eu); [|right; exact Hq].
           intros _. apply (Hagree path sl2); [left; reflexivity | exact Hq].
        -- right. exists path', sl'. auto.
  - discriminate.
Qed.

(** After [layout_hubs], a buffer named by a hub carries the slice that
    [get_indices] of this hub yields for it and the position of the hub in
    the list, provided every write to the same path writes the same slice
    and hub (a buffer belongs to one hub). *)
Theorem layout_hubs_writes_slices (hubs : list Hub) (lay lay' : layout)
        (hub_nr : nat) (hub : Hub) (indices : list (node * (Z * Z)))
        (path : string) (_slice : Z * Z) :
  layout_hubs hubs lay = Ok lay' ->
  nth_error hubs hub_nr = Some hub ->
  get_indices hub = Ok indices ->
  In (Leaf path, _slice) indices ->
  (forall nr2 hub2 indices2 path2 sl2,
      nth_error hubs nr2 = Some hub2 -> get_indices hub2 = Ok indices2 ->
      In (Leaf path2, sl2) indices2 ->
      split_on "."%char path2 = split_on "."%char path ->
      sl2 = _slice /\ nr2 = hub_nr) ->
  exists n, get_by_path path lay' = Ok n /\
            layout_slice n = Some _slice /\ layout_hub n = Some hub_nr.
Proof.
  intros Hl Hnth Hidx Hin Hagree. unfold get_by_path.
  set (segs := split_on "."%char path) in *.
  change (carries segs _slice hub_nr lay').
  assert (Hloop : forall ehubs l l',
             for_each
               (fun lay '(nr2, hub2) =>
                  indices2 <- get_indices hub2 ;;
                  for_each
                    (fun lay '(buffer_name, sl2) =>
                       match buffer_name with
                       | Leaf path2 =>
                           update_by_segments (split_on "."%char path2)
                                              (set_slice_and_hub sl2 nr2) lay
                       | Tuple _ => Raise AttributeError
                       end)
                    indices2 lay)
               ehubs l = Ok l' ->
             (forall nr2 hub2, In (nr2, hub2) ehubs -> nth_error hubs nr2 = Some hub2) ->
             carries segs _slice hub_nr l \/ In (hub_nr, hub) ehubs ->
             carries segs _slice hub_nr l').
  { induction ehubs as [|[nr2 hub2] ehubs IH]; intros l l'; cbn [for_each].
    - intros [= <-] _ [H|[]]. exact H.
    - destruct (get_indices hub2) as [indices2| |] eqn:Ei; try discriminate.
      cbn [bind].
      match goal with
      | |- context [for_each ?body indices2 l] =>
          destruct (for_each body indices2 l) as [l1| |] eqn:E1; try discriminate
      end.
      cbn [bind]. intros Hrest Hsub Hcase. apply (IH _ _ Hrest).
      + intros nr3 hub3 H3. apply Hsub. right. exact H3.
      + assert (Hag2 : forall path2 sl2,
                   In (Leaf path2, sl2) indices2 -> split_on "."%char path2 = segs ->
                   sl2 = _slice /\ nr2 = hub_nr).
        { intros path2 sl2 H2 Hs2.
          apply (Hagree nr2 hub2 indices2 path2 sl2); auto.
          apply Hsub. left. reflexivity. }
        destruct Hcase as [H|[[= <- <-]|H]].
        * left. apply (hub_writes_carry _ E1 Hag2). left. exact H.
        * left. apply (hub_writes_carry _ E1 Hag2). right.
          rewrite Hidx in Ei. injection Ei as <-. exists path, _slice. auto.
        * right. exact H. }
  apply (Hloop (enumerate_from 0 hubs) lay lay' Hl).
  - intros nr2 hub2 H2. apply enumerate_from_In in H2. rewrite Nat.sub_0_r in H2.
    apply H2.
  - right. apply enumerate_from_In. rewrite Nat.sub_0_r. split; [lia | exact Hnth].
Qed.

Lemma layout_hubs_writes_slices_witness :
  exists n, get_by_path "fc1.inputs.default" demo_stub_layout = Ok n /\
            layout_slice n = Some (0, 4)%Z /\ layout_hub n = Some 1.
Proof.
  apply (@layout_hubs_writes_slices
           (fst demo_result) (create_layout_stub demo_layers) demo_stub_layout
           1 (nth 1 (fst demo_result) chain_hub)
           [(Leaf "in.outputs.default", (0, 4)%Z);
            (Leaf "fc1.inputs.default", (0, 4)%Z)]%string
           "fc1.inputs.default"%string (0, 4)%Z).
  - reflexivity.
  - reflexivity.
  - reflexivity.
  - right. left. reflexivity.
  - intros nr2 hub2 indices2 path2 sl2 Hn Hg Hin Hs.
    do 5 (destruct nr2 as [|nr2];
          [vm_compute in Hn; injection Hn as <-; vm_compute in Hg; injection Hg as <-;
           cbn [In] in Hin;
           repeat (destruct Hin as [Hin|Hin];
                   [injection Hin as <- <-;
                    first [vm_compute in Hs; discriminate Hs | split; reflexivity]|]);
           destruct Hin|]).
    vm_compute in Hn. destruct nr2; discriminate.
Defined.

(** ** Array nodes resolve *)

(** The key holds no dot. *)
Fixpoint no_dot (k : string) : bool :=
  match k with
  | EmptyString => true
  | String a k' => negb (Ascii.eqb a "."%char) && no_dot k'
  end.

(** No key occurs twice, as in a dictionary. *)
Fixpoint unique_keys {V : Type} (d : list (string * V)) : bool :=
  match d with
  | [] => true
  | (k, _) :: d' => negb (existsb (fun kv => String.eqb (fst kv) k) d') && unique_keys d'
  end.

(** Every dictionary of the layout has distinct keys without dots. *)
Fixpoint well_keyed (l : layout) : bool :=
  match l with
  | Node _ _ _ _ _ _ children =>
      unique_keys children
      && forallb (fun '(k, v) => no_dot k && well_keyed v) children
  end.

Lemma split_on_no_dot k : no_dot k = true -> split_on "."%char k = [k].
Proof.
  induction k as [|a k IH]; [reflexivity|]. cbn [no_dot split_on].
  intros H. apply andb_true_iff in H. destruct H as [Ha Hk].
  apply negb_true_iff in Ha. rewrite Ha, (IH Hk). reflexivity.
Qed.

Lemma split_on_child k sub :
  no_dot k = true ->
  split_on "."%char (k ++ "." ++ sub) = k :: split_on "."%char sub.
Proof.
  induction k as [|a k IH]; [reflexivity|]. cbn [no_dot].
  intros H. apply andb_true_iff in H. destruct H as [Ha Hk].
  apply negb_true_iff in Ha.
  change ((String a k ++ "." ++ sub)%string) with (String a (k ++ "." ++ sub)%string).
  cbn [split_on]. rewrite Ha, (IH Hk). reflexivity.
Qed.

Lemma dict_get_unique {V : Type} k (v : V) d :
  unique_keys d = true -> In (k, v) d -> dict_get k d = Some v.
Proof.
  induction d as [|[k1 v1] d IH]; [intros _ []|]. cbn [unique_keys dict_get].
  intros H. apply andb_true_iff in H. destruct H as [Hk Hd].
  intros [[= -> ->]|Hin]; [rewrite String.eqb_refl; reflexivity|].
  destruct (String.eqb_spec k1 k) as [->|Hne]; [|apply IH; assumption].
  apply negb_true_iff in Hk.
  assert (Hex : existsb (fun kv : string * V => String.eqb (fst kv) k) d = true).
  { apply existsb_exists. exists (k, v). split; [exact Hin | apply String.eqb_refl]. }
  congruence.
Qed.

Lemma gather_resolves l :
  well_keyed l = true ->
  forall path, In path (gather_array_nodes l) ->
               exists n, get_by_path path l = Ok n /\ layout_type n = TArray.
Proof.
  induction l as [t i s c sl h children IH] using layout_induction.
  cbn [well_keyed]. intros Hw path Hin.
  apply andb_true_iff in Hw. destruct Hw as [Hu Hall].
  apply gather_array_nodes_In in Hin. destruct Hin as (k & v & Hkv & Hp).
  pose proof (proj1 (forallb_forall _ _) Hall _ Hkv) as Hk. cbn beta iota in Hk.
  apply andb_true_iff in Hk. destruct Hk as [Hdot Hwv].
  pose proof (proj1 (Forall_forall _ _) IH _ Hkv) as IHv. cbn [snd] in IHv.
  pose proof (dict_get_unique _ _ _ Hu Hkv) as Hget.
  unfold visit_child in Hp. cbn [fst snd] in Hp.
  destruct (startswith_at k); [destruct Hp|].
  unfold get_by_path. destruct (layout_type v) eqn:Et.
  - apply in_map_iff in Hp. destruct Hp as (sub & <- & Hsub).
    rewrite split_on_child by exact Hdot. cbn [get_by_segments layout_children].
    rewrite Hget. cbn [of_option bind]. apply (IHv Hwv sub Hsub).
  - destruct Hp as [<-|[]]. rewrite split_on_no_dot by exact Hdot.
    cbn [get_by_segments layout_children]. rewrite Hget. cbn [of_option bind].
    eauto.
Qed.

(** In a layout whose dictionaries have distinct keys without dots, every
    path that [gather_array_nodes] yields resolves, by [get_by_path], to
    an entry of type array. *)
Theorem gather_array_nodes_resolve (lay : layout) (path : string) :
  well_keyed lay = true ->
  In path (gather_array_nodes lay) ->
  exists n, get_by_path path lay = Ok n /\ layout_type n = TArray.
Proof. intros Hw. apply gather_resolves, Hw. Qed.

Lemma gather_array_nodes_resolve_witness :
  exists n, get_by_path "fc.parameters.W" fc_layout = Ok n /\ layout_type n = TArray.
Proof.
  apply (@gather_array_nodes_resolve fc_layout "fc.parameters.W"%string).
  - reflexivity.
  - left. reflexivity.
Defined.

(** *** The stub of a registry *)

Lemma unique_keys_NoDup {V : Type} (d : list (string * V)) :
  unique_keys d = true <-> NoDup (map fst d).
Proof.
  induction d as [|[k v] d IH]; cbn [unique_keys map fst].
  - split; [constructor | reflexivity].
  - rewrite andb_true_iff, negb_true_iff, IH. split.
    + intros [Hk Hd]. constructor; [|exact Hd]. intros Hin.
      apply in_map_iff in Hin. destruct Hin as ([k' v'] & E & Hin). cbn [fst] in E. subst k'.
      assert (Hex : existsb (fun kv : string * V => String.eqb (fst kv) k) d = true).
      { apply existsb_exists. exists (k, v'). split; [exact Hin | apply String.eqb_refl]. }
      congruence.
    + intros H. inversion H as [|? ? Hk Hd]; subst. split; [|exact Hd].
      destruct (existsb _ d) eqn:E; [|reflexivity].
      apply existsb_exists in E. destruct E as ([k' v'] & Hin & E).
      apply String.eqb_eq in E. cbn [fst] in E. subst k'.
      destruct Hk. apply in_map_iff. exists (k, v'). auto.
Qed.

Lemma dict_set_keys {V : Type} k (v : V) d :
  map fst (dict_set k v d) = map fst d \/
  (~ In k (map fst d) /\ map fst (dict_set k v d) = map fst d ++ [k]).
Proof.
  induction d as [|[k1 v1] d IH]; cbn [dict_set map fst].
  - right. split; [intros [] | reflexivity].
  - destruct (String.eqb_spec k1 k) as [->|Hne]; [left; reflexivity|].
    cbn [map fst]. destruct IH as [->|[Hk ->]]; [left; reflexivity|].
    right. split; [|reflexivity]. intros [H|H]; [congruence | contradiction].
Qed.

Lemma unique_keys_dict_set {V : Type} k (v : V) d :
  unique_keys d = true -> unique_keys (dict_set k v d) = true.
Proof.
  rewrite !unique_keys_NoDup. intros Hd.
  destruct (dict_set_keys k v d) as [->|[Hk ->]]; [exact Hd|].
  apply NoDup_app; [exact Hd | constructor; [intros [] | constructor] |].
  intros x Hx [<-|[]]. contradiction.
Qed.

(** A child of a well keyed layout. *)
Definition keyed_child (kv : string * layout) : Prop :=
  no_dot (fst kv) = true /\ well_keyed (snd kv) = true.

Lemma well_keyed_node t i s c sl h children :
  unique_keys children = true -> Forall keyed_child children ->
  well_keyed (Node t i s c sl h children) = true.
Proof.
  intros Hu Hall. cbn [well_keyed]. rewrite Hu. cbn [andb].
  apply forallb_forall. intros [k v] Hin.
  destruct (proj1 (Forall_forall _ _) Hall _ Hin) as [H1 H2]. cbn [fst snd] in *.
  rewrite H1, H2. reflexivity.
Qed.

(** A dictionary built by storing one entry after the other. *)
Lemma stored_entries_keyed {X : Type} (f : list (string * layout) -> X -> list (string * layout))
      (g : X -> string * layout) xs :
  (forall d x, f d x = dict_set (fst (g x)) (snd (g x)) d) ->
  Forall (fun x => keyed_child (g x)) xs ->
  forall acc,
    unique_keys acc = true -> Forall keyed_child acc ->
    unique_keys (fold_left f xs acc) = true /\ Forall keyed_child (fold_left f xs acc).
Proof.
  intros Hf Hxs. induction Hxs as [|x xs Hx _ IH]; intros acc Hu Hacc; cbn [fold_left].
  - auto.
  - apply IH; rewrite Hf.
    + apply unique_keys_dict_set, Hu.
    + apply dict_set_Forall; [exact Hacc|]. destruct (g x). exact Hx.
Qed.

Lemma enumerate_from_Forall {A : Type} (P : nat * A -> Prop) (l : list A) k :
  (forall i x, In x l -> P (i, x)) -> Forall P (enumerate_from k l).
Proof.
  intros H. apply Forall_forall. intros [i x] Hin.
  apply enumerate_from_In in Hin. apply H. apply (nth_error_In _ _ (proj2 Hin)).
Qed.

Lemma array_dict_keyed items :
  forallb (fun p => no_dot (fst p)) items = true ->
  unique_keys (array_dict items) = true /\ Forall keyed_child (array_dict items).
Proof.
  intros Hitems. unfold array_dict.
  apply (@stored_entries_keyed _ _
           (fun x : nat * (string * ShapeTemplate) =>
              (fst (snd x), convert_to_array_json (snd (snd x)) (fst x)))).
  - intros d [i [k v]]. reflexivity.
  - apply enumerate_from_Forall. intros i [k v] Hin.
    split; [|reflexivity]. apply (proj1 (forallb_forall _ _) Hitems _ Hin).
  - reflexivity.
  - constructor.
Qed.

Lemma filter_keys_NoDup {V : Type} (f : string * V -> bool) d :
  NoDup (map fst d) -> NoDup (map fst (filter f d)).
Proof.
  induction d as [|[k v] d IH]; cbn [filter map fst]; [auto|].
  intros H. inversion H as [|? ? Hk Hd]; subst.
  destruct (f (k, v)); [|apply IH, Hd].
  cbn [map fst]. constructor; [|apply IH, Hd].
  intros Hin. apply Hk. apply in_map_iff in Hin. destruct Hin as (e & <- & He).
  apply in_map, (proj1 (filter_In _ _ _) He).
Qed.

Lemma drop_key_keyed k d :
  unique_keys d = true /\ Forall keyed_child d ->
  unique_keys (drop_key k d) = true /\ Forall keyed_child (drop_key k d).
Proof.
  intros [Hu Hall]. unfold drop_key. split.
  - apply unique_keys_NoDup, filter_keys_NoDup, unique_keys_NoDup, Hu.
  - apply Forall_forall. intros e He. apply filter_In in He.
    apply (proj1 (Forall_forall _ _) Hall), He.
Qed.

(** A section of a layer stub whose buffers have names without dots. *)
Lemma section_view_keyed i items :
  forallb (fun p => no_dot (fst p)) items = true ->
  well_keyed (section_view i (array_dict items)) = true.
Proof.
  intros Hitems. unfold section_view.
  destruct (drop_key_keyed "@index" (drop_key_keyed "@type" (array_dict_keyed _ Hitems)))
    as [Hu Hall].
  apply well_keyed_node; assumption.
Qed.

(** The names of the layers and of their inputs, outputs, parameters and
    internals hold no dot. *)
Definition dot_free_names (layers : list (string * Layer)) : bool :=
  forallb
    (fun '(name, layer) =>
       no_dot name
       && forallb (fun p => no_dot (fst p)) (in_shapes layer)
       && forallb (fun p => no_dot (fst p)) (out_shapes layer)
       && forallb (fun p => no_dot (fst p)) (get_parameter_structure layer)
       && forallb (fun p => no_dot (fst p)) (get_internal_structure layer))
    layers.

Lemma forallb_stable_sort {A : Type} (P : A -> bool) leb l :
  forallb P l = true -> forallb P (stable_sort leb l) = true.
Proof.
  rewrite !forallb_forall. intros H x Hx. apply H. apply stable_sort_In in Hx. exact Hx.
Qed.

Lemma create_layout_stub_keyed layers :
  dot_free_names layers = true -> well_keyed (create_layout_stub layers) = true.
Proof.
  intros Hnames. unfold create_layout_stub, buffer_view.
  assert (H : forall acc,
             unique_keys acc = true -> Forall keyed_child acc ->
             unique_keys
               (fold_left
                  (fun root '(i, (layer_name, layer)) =>
                     dict_set layer_name (get_layout_stub_for_layer layer i) root)
                  (enumerate_from 1 layers) acc) = true /\
             Forall keyed_child
               (fold_left
                  (fun root '(i, (layer_name, layer)) =>
                     dict_set layer_name (get_layout_stub_for_layer layer i) root)
                  (enumerate_from 1 layers) acc)).
  { apply (@stored_entries_keyed _ _
             (fun x : nat * (string * Layer) =>
                (fst (snd x), get_layout_stub_for_layer (snd (snd x)) (fst x)))).
    - intros d [i [k v]]. reflexivity.
    - apply enumerate_from_Forall. intros i [name layer] Hin.
      pose proof (proj1 (forallb_forall _ _) Hnames _ Hin) as Hl. cbn beta iota in Hl.
      repeat (apply andb_true_iff in Hl; destruct Hl as [Hl ?]).
      split; [exact Hl|]. cbn [snd fst]. unfold get_layout_stub_for_layer.
      apply well_keyed_node; [reflexivity|].
      repeat (apply Forall_cons || apply Forall_nil); (split; [reflexivity|]);
        cbn [snd]; apply section_view_keyed; try assumption;
          apply forallb_stable_sort; assumption. }
  destruct (H [("parameters"%string, parameters_stub)]) as [Hu Hall].
  - reflexivity.
  - constructor; [split; reflexivity | constructor].
  - apply well_keyed_node; assumption.
Qed.

(** For a registry whose names hold no dot, every array node of the
    layout stub resolves: [get_by_path] finds an entry of type array at
    every path that [gather_array_nodes] yields, so that looking up the
    gathered sources and sinks cannot fail. *)
Theorem stub_array_nodes_resolve (layers : list (string * Layer)) (path : string) :
  dot_free_names layers = true ->
  In path (gather_array_nodes (create_layout_stub layers)) ->
  exists n, get_by_path path (create_layout_stub layers) = Ok n /\
            layout_type n = TArray.
Proof. intros Hnames. apply gather_resolves, create_layout_stub_keyed, Hnames. Qed.

Lemma stub_array_nodes_resolve_witness :
  exists n, get_by_path "fc2.internals.H" (create_layout_stub demo_layers) = Ok n /\
            layout_type n = TArray.
Proof.
  apply (@stub_array_nodes_resolve demo_layers "fc2.internals.H"%string).
  - reflexivity.
  - vm_compute. tauto.
Defined.

(** ** The order of a structure: [get_order] *)

Lemma dict_set_fresh {V : Type} k (v : V) d :
  ~ In k (map fst d) -> dict_set k v d = d ++ [(k, v)].
Proof.
  induction d as [|[k1 v1] d IH]; cbn [dict_set map fst app]; [reflexivity|].
  intros H. destruct (String.eqb_spec k1 k) as [->|Hne].
  - destruct H. left. reflexivity.
  - rewrite IH; [reflexivity|]. intros Hin. apply H. right. exact Hin.
Qed.

(** With distinct names the comprehension stores the entries in the order
    of the items, each with its position as index. *)
Lemma array_dict_entries items :
  NoDup (map fst items) ->
  array_dict items
  = map (fun '(i, (k, v)) => (k, convert_to_array_json v i)) (enumerate_from 0 items).
Proof.
  intros Hnd. unfold array_dict.
  assert (H : forall l k acc,
             NoDup (map fst l) ->
             (forall x, In x (map fst l) -> ~ In x (map fst acc)) ->
             fold_left (fun d '(i, (k, v)) => dict_set k (convert_to_array_json v i) d)
                       (enumerate_from k l) acc
             = acc ++ map (fun '(i, (k, v)) => (k, convert_to_array_json v i))
                          (enumerate_from k l)).
  { induction l as [|[name t] l IH]; intros k acc Hl Hacc.
    - cbn. symmetry. apply app_nil_r.
    - change (enumerate_from k ((name, t) :: l))
        with ((k, (name, t)) :: enumerate_from (S k) l).
      cbn [fold_left map]. cbn [map fst] in Hl, Hacc. inversion Hl as [|? ? Hname Hl']; subst.
      rewrite dict_set_fresh by (apply Hacc; left; reflexivity).
      rewrite IH; [rewrite <- app_assoc; reflexivity | exact Hl' |].
      intros x Hx. rewrite map_app, in_app_iff. cbn [map fst In].
      intros [H|[E|[]]].
      + apply (Hacc x); [right; exact Hx | exact H].
      + subst x. contradiction. }
  apply (H items 0 [] Hnd). intros x _ [].
Qed.

(** Sorting by a numeric key puts the keys in non-decreasing order. *)
Lemma stable_sort_by_key {A : Type} (key : A -> nat) (l : list A) :
  StronglySorted (fun a b => key a <= key b)
                 (stable_sort (fun a b => key a <=? key b) l).
Proof.
  set (leb := fun a b => key a <=? key b).
  assert (Hins : forall x l, StronglySorted (fun a b => key a <= key b) l ->
                             StronglySorted (fun a b => key a <= key b)
                                            (insert_sorted leb x l)).
  { clear l. intros x l Hl. induction Hl as [|y l Hl IH Hy]; cbn [insert_sorted].
    - constructor; constructor.
    - unfold leb at 1. destruct (Nat.leb_spec (key x) (key y)) as [Hle|Hgt].
      + constructor; [constructor; assumption|]. constructor; [exact Hle|].
        apply (Forall_impl _ (fun b (Hb : key y <= key b) => Nat.le_trans _ _ _ Hle Hb) Hy).
      + constructor; [exact IH|].
        apply (Permutation_Forall (Permutation_sym (insert_sorted_permutation leb x l))).
        constructor; [lia | exact Hy]. }
  induction l as [|x l IH]; [constructor|]. apply Hins, IH.
Qed.

(** [get_order] gives back the order in which an ordered structure was
    converted: applied to the dictionary that the comprehension of
    [get_layout_stub_for_layer] builds from the items of a structure with
    distinct names, it returns the names in the order of the items. *)
Theorem get_order_array_dict (items : list (string * ShapeTemplate)) :
  NoDup (map fst items) ->
  get_order (array_dict items) = Ok (map fst items).
Proof.
  intros Hnd. rewrite (array_dict_entries _ Hnd). unfold get_order.
  assert (Hkeyed : forall l k,
             map_result index_of_key
               (map (fun '(i, (k0, v)) => (k0, convert_to_array_json v i))
                    (enumerate_from k l))
             = Ok (combine (seq k (length l)) (map fst l))).
  { induction l as [|[name t] l IH]; intros k; [reflexivity|].
    change (enumerate_from k ((name, t) :: l))
      with ((k, (name, t)) :: enumerate_from (S k) l).
    cbn [map map_result]. rewrite IH. reflexivity. }
  rewrite Hkeyed. cbn [bind]. f_equal.
  rewrite stable_sort_sorted.
  - clear. generalize 0 as k. induction items as [|[name t] items IH]; intros k;
      cbn [length seq map combine fst snd]; [reflexivity|]. f_equal. apply IH.
  - clear. generalize 0 as k. induction items as [|[name t] items IH]; intros k;
      cbn [length seq map combine fst]; constructor; [apply IH|].
    apply Forall_forall. intros [i x] Hin. apply in_combine_l in Hin.
    apply in_seq in Hin. unfold index_key_leb. cbn [fst]. apply Nat.leb_le. lia.
Qed.

Lemma get_order_array_dict_witness :
  get_order (array_dict [("W", template 0 12); ("b", template 0 3)]%string)
  = Ok ["W"; "b"]%string.
Proof.
  apply (@get_order_array_dict [("W", template 0 12); ("b", template 0 3)]%string).
  repeat constructor; simpl; intuition discriminate.
Defined.

(** [get_order] raises KeyError exactly when some entry of the structure
    has no ['@index']; otherwise it returns the keys of the structure,
    each once per entry, in an order in which the indices never
    decrease. *)
Theorem get_order_sorts_by_index (structure : list (string * layout)) :
  (get_order structure = Raise KeyError <->
   exists k v, In (k, v) structure /\ layout_index v = None) /\
  ((forall k v, In (k, v) structure -> layout_index v <> None) ->
   exists keyed,
     get_order structure = Ok (map snd keyed) /\
     Permutation keyed
                 (map (fun kv => (match layout_index (snd kv) with
                                  | Some i => i
                                  | None => 0
                                  end, fst kv)) structure) /\
     StronglySorted (fun a b => fst a <= fst b) keyed).
Proof.
  assert (Hall : (forall k v, In (k, v) structure -> layout_index v <> None) ->
                 map_result index_of_key structure
                 = Ok (map (fun kv => (match layout_index (snd kv) with
                                       | Some i => i
                                       | None => 0
                                       end, fst kv)) structure)).
  { induction structure as [|[k v] l IH]; intros H; [reflexivity|].
    cbn [map_result map]. unfold index_of_key at 1. cbn [fst snd].
    destruct (layout_index v) as [i|] eqn:E;
      [|destruct (H k v (or_introl eq_refl) E)].
    cbn [of_option bind]. rewrite IH; [reflexivity|].
    intros k' v' Hin. apply (H k' v'). right. exact Hin. }
  unfold get_order. split.
  - split.
    + intros H.
      destruct (map_result index_of_key structure) as [keyed|e|] eqn:E; try discriminate.
      cbn [bind] in H. injection H as ->.
      destruct (map_result_raises _ _ E) as ([k v] & Hin & Hk). unfold index_of_key in Hk.
      cbn [fst snd] in Hk. exists k, v. split; [exact Hin|].
      destruct (layout_index v); [discriminate | reflexivity].
    + intros (k & v & Hin & Hnone).
      destruct (map_result index_of_key structure) as [keyed|e|] eqn:E; cbn [bind].
      * destruct (map_result_In _ _ _ E Hin) as (y & Hy & _). unfold index_of_key in Hy.
        cbn [snd] in Hy. rewrite Hnone in Hy. discriminate.
      * destruct (map_result_raises _ _ E) as ([k' v'] & _ & Hk).
        unfold index_of_key in Hk.
        destruct (layout_index (snd (k', v'))); [discriminate|]. cbn in Hk. congruence.
      * exfalso. revert E. apply map_result_finished. intros [k' v']. unfold index_of_key.
        destruct (layout_index (snd (k', v'))); discriminate.
  - intros H. rewrite (Hall H). cbn [bind].
    eexists. split; [reflexivity|]. split; [apply stable_sort_permutation|].
    apply (stable_sort_by_key (@fst nat string)).
Qed.

(** ** The order of the hubs *)

(** The hubs [create_layout] returns are the hubs of [group_into_hubs] in
    the order of their buffer types: the number of a hub, which
    [layout_hubs] stores under ['@hub'], never decreases with the buffer
    type. *)
Theorem create_layout_orders_hubs_by_btype
        (set_order : list node -> list node) (layers : list (string * Layer))
        (hubs : list Hub) (lay : layout) :
  create_layout set_order layers = Ok (hubs, lay) ->
  StronglySorted (fun a b => btype a <= btype b) hubs /\
  exists all_sinks all_sources hubs0,
    get_all_sinks_and_sources (forced_order_tuples layers) (get_connections layers)
                              (create_layout_stub layers)
    = Ok (all_sinks, all_sources) /\
    group_into_hubs set_order all_sources (forced_order_tuples layers)
                    (get_connections layers) (create_layout_stub layers)
    = Ok hubs0 /\
    Permutation hubs hubs0.
Proof.
  intros Hc.
  destruct (create_layout_inv _ _ Hc)
    as (all_sinks & all_sources & hubs0 & _ & _ & Ea & Eg & ->).
  split; [apply (stable_sort_by_key btype)|].
  exists all_sinks, all_sources, hubs0. split; [exact Ea|]. split; [exact Eg|].
  apply stable_sort_permutation.
Qed.

Lemma create_layout_orders_hubs_by_btype_witness :
  StronglySorted (fun a b => btype a <= btype b) (fst demo_result).
Proof.
  apply (@create_layout_orders_hubs_by_btype
           (fun l => l) demo_layers (fst demo_result) (snd demo_result)).
  exact demo_result_ok.
Defined.

(** ** Merging connections into forced orders *)

(** The forced order that takes the place of an endpoint: the first one
    of the list that holds it. *)
Definition first_forced_order (forced_orders : list (list string)) (s : string) : node :=
  match find (fun fo => str_in s fo) forced_orders with
  | Some fo => Tuple fo
  | None => Leaf s
  end.

(** [merge_connections] keeps the connections in their order and replaces
    each endpoint by the first forced order that holds it, if there is
    one: once an endpoint is replaced by a tuple no later forced order
    replaces it again, although the loop goes on. *)
Theorem merge_connections_first_match
        (connections : list (string * string)) (forced_orders : list (list string)) :
  merge_connections connections forced_orders
  = map (fun c => (first_forced_order forced_orders (fst c),
                   first_forced_order forced_orders (snd c)))
        connections.
Proof.
  assert (H : forall s, merge_node forced_orders (Leaf s)
                        = first_forced_order forced_orders s).
  { intros s. unfold first_forced_order.
    induction forced_orders as [|fo fos IH]; [reflexivity|].
    rewrite merge_node_cons. cbn [in_forced_order find].
    destruct (str_in s fo); [apply merge_node_tuple | exact IH]. }
  unfold merge_connections. apply map_ext. intros [start stop]. cbn [fst snd].
  rewrite !H. reflexivity.
Qed.

(** ** Hubs of forced orders *)

Lemma zero_table_connectable ct :
  binary_table ct -> (forall i j, entry ct i j = 0%Z) ->
  can_be_connected_with_single_buffer ct = true.
Proof.
  intros Hb Hz. apply (can_be_connected_contiguous Hb). intros j _.
  exists 0, 0. intros i Hi. rewrite column_length in Hi.
  rewrite (column_nth _ _ Hi), Hz. split; [discriminate | lia].
Qed.

(** A hub whose source set holds forced-order tuples only is laid out in
    the sorted order of the tuples, whatever the connections: no
    connection sets an entry of its table (the producers of the
    connections are members of the tuples, not elements of the set), so
    the first ordering the solver tries is accepted. *)
Theorem create_keeps_sorted_forced_orders
        (source_set sink_set : list node) (lay : layout)
        (connections : list (string * string)) (hub : Hub) :
  Forall (fun u => is_tuple u = true) source_set ->
  create source_set sink_set lay connections = Ok hub ->
  sources hub = map Leaf (flatten (stable_sort node_leb source_set)) /\
  forall i j, entry (connection_table hub) i j = 0%Z.
Proof.
  intros Htup Hc. destruct (create_inv _ _ _ _ Hc) as (h1 & C).
  assert (Hsrc : sources h1 = stable_sort node_leb source_set).
  { pose proof (created_sources C) as H. unfold sorted_nodes in H.
    destruct (_ && _); [discriminate|]. injection H as H. symmetry. exact H. }
  assert (Hzero : forall i j, entry (connection_table h1) i j = 0%Z).
  { intros i j. destruct (entry_binary i j (created_table C)) as [E|E]; [exact E|].
    apply (created_entries C) in E. destruct E as (c & _ & Hs & _).
    apply contains_In in Hs. rewrite Hsrc in Hs. apply stable_sort_In in Hs.
    apply (proj1 (Forall_forall _ _) Htup) in Hs. discriminate. }
  destruct (created_permuted C) as (h2 & Hp & Hs & _ & Ht).
  rewrite (permute_rows_first_order h1 (created_shape0 C)
             (zero_table_connectable (created_table C) Hzero)) in Hp.
  injection Hp as <-. cbn [sources connection_table] in Hs, Ht.
  rewrite Hs, Ht, Hsrc. split; [reflexivity | exact Hzero].
Qed.

Lemma create_keeps_sorted_forced_orders_witness :
  sources fc_created = map Leaf (flatten (stable_sort node_leb [Tuple fc_parameters])).
Proof.
  apply (@create_keeps_sorted_forced_orders
           [Tuple fc_parameters] [Leaf "parameters"%string] fc_layout fc_connections
           fc_created).
  - repeat constructor.
  - reflexivity.
Defined.

(** ** The forward closure does not depend on the seed *)

Lemma component_trans conns x y sd z :
  component conns x Producer y -> component conns y sd z -> component conns x sd z.
Proof.
  intros Hxy Hyz. induction Hyz as [|a b Hin _ IH|a b Hin _ IH].
  - exact Hxy.
  - apply (component_consumer _ Hin IH).
  - apply (component_producer _ Hin IH).
Qed.

Lemma component_back conns n sd x :
  component conns n sd x ->
  match sd with
  | Producer => component conns x Producer n
  | Consumer => forall a, In (a, x) conns -> component conns a Producer n
  end.
Proof.
  intros H. induction H as [|a b Hin _ IH|a b Hin _ IH].
  - constructor.
  - intros a' Hin'. apply (component_trans (y := a)); [|exact IH].
    apply (component_producer _ Hin). apply (component_consumer _ Hin'). constructor.
  - apply IH, Hin.
Qed.

Lemma component_same conns n s sd x :
  component conns n Producer s ->
  component conns s sd x <-> component conns n sd x.
Proof.
  intros Hs. split; apply component_trans; [exact Hs|].
  apply (component_back Hs).
Qed.

(** Every member of the source set of a forward closure has the same
    forward closure, up to the order of the sets: the grouping into hubs
    does not depend on which source of a group is taken as the seed. *)
Theorem get_forward_closure_of_member
        (set_order : list node -> list node) (connections : list (node * node))
        (n s : node) (source_set sink_set : list node) :
  (forall l, Permutation (set_order l) l) ->
  get_forward_closure set_order n connections = Ok (source_set, sink_set) ->
  In s source_set ->
  exists source_set' sink_set',
    get_forward_closure set_order s connections = Ok (source_set', sink_set') /\
    Permutation source_set' source_set /\ Permutation sink_set' sink_set.
Proof.
  intros Hperm Hn Hs.
  destruct (closure_members set_order n connections Hperm)
    as (S & T & E & HS & HT & _ & HinS & HinT).
  rewrite Hn in E. injection E as <- <-.
  destruct (closure_members set_order s connections Hperm)
    as (S' & T' & E' & HS' & HT' & _ & HinS' & HinT').
  exists S', T'. split; [exact E'|].
  apply HinS in Hs.
  split; apply NoDup_Permutation; auto; intros x.
  - rewrite HinS', HinS. apply component_same, Hs.
  - rewrite HinT', HinT. apply component_same, Hs.
Qed.

Lemma get_forward_closure_of_member_witness :
  exists source_set' sink_set',
    get_forward_closure (fun l => l) (Leaf "C"%string) two_components
    = Ok (source_set', sink_set') /\
    Permutation source_set' [Leaf "A"; Leaf "B"; Leaf "C"]%string /\
    Permutation sink_set' [Leaf "X"; Leaf "Y"]%string.
Proof.
  apply (@get_forward_closure_of_member
           (fun l => l) two_components (Leaf "A"%string) (Leaf "C"%string)).
  - intros l. apply Permutation_refl.
  - reflexivity.
  - right. right. left. reflexivity.
Defined.

(** ** Hubs with at most two sinks *)

Lemma filter_split {A : Type} (f : A -> bool) (l : list A) :
  Permutation l (filter f l ++ filter (fun x => negb (f x)) l).
Proof.
  induction l as [|x l IH]; [reflexivity|]. cbn [filter].
  destruct (f x); cbn [negb app]; [constructor; exact IH|].
  apply Permutation_cons_app, IH.
Qed.

(** A column made of zeros, then ones, then zeros has its ones in one
    run. *)
Lemma run_at_segments (z1 o z2 : list Z) :
  Forall (fun x => x = 0%Z) z1 -> Forall (fun x => x = 1%Z) o ->
  Forall (fun x => x = 0%Z) z2 ->
  run_at (length z1) (length z1 + length o) (z1 ++ o ++ z2).
Proof.
  intros H1 Ho H2 i Hi. rewrite !length_app in Hi.
  destruct (Nat.lt_ge_cases i (length z1)) as [Hlt|Hge].
  - rewrite app_nth1 by exact Hlt.
    rewrite (proj1 (Forall_forall _ _) H1 _ (nth_In _ 0%Z Hlt)).
    split; [discriminate | lia].
  - rewrite app_nth2 by exact Hge.
    destruct (Nat.lt_ge_cases (i - length z1) (length o)) as [Hlt|Hge'].
    + rewrite app_nth1 by exact Hlt.
      rewrite (proj1 (Forall_forall _ _) Ho _ (nth_In _ 0%Z Hlt)).
      split; [lia | reflexivity].
    + rewrite app_nth2 by exact Hge'.
      assert (Hlt : i - length z1 - length o < length z2) by lia.
      rewrite (proj1 (Forall_forall _ _) H2 _ (nth_In _ 0%Z Hlt)).
      split; [discriminate | lia].
Qed.

Lemma filter_Forall_map {A : Type} (f : A -> bool) (g : A -> Z) (v : Z) (l : list A) :
  (forall x, In x l -> f x = true -> g x = v) ->
  Forall (fun y => y = v) (map g (filter f l)).
Proof.
  intros H. apply Forall_forall. intros y Hy. apply in_map_iff in Hy.
  destruct Hy as (x & <- & Hx). apply filter_In in Hx. apply H; tauto.
Qed.

(** The rows with their sources, put in the order: connected to the first
    sink only, to both, to the second only, to none. *)
Definition two_sink_order (ps : list (node * list Z)) : list (node * list Z) :=
  let one0 := fun p : node * list Z => (nth 0 (snd p) 0 =? 1)%Z in
  let one1 := fun p : node * list Z => (nth 1 (snd p) 0 =? 1)%Z in
  filter (fun p => negb (one1 p)) (filter one0 ps)
  ++ filter one1 (filter one0 ps)
  ++ filter one1 (filter (fun p => negb (one0 p)) ps)
  ++ filter (fun p => negb (one1 p)) (filter (fun p => negb (one0 p)) ps).

Lemma two_sink_order_permutation ps : Permutation ps (two_sink_order ps).
Proof.
  unfold two_sink_order.
  set (one0 := fun p : node * list Z => (nth 0 (snd p) 0 =? 1)%Z).
  set (one1 := fun p : node * list Z => (nth 1 (snd p) 0 =? 1)%Z).
  rewrite (filter_split one0 ps) at 1. rewrite app_assoc. apply Permutation_app.
  - rewrite (filter_split one1 (filter one0 ps)) at 1. apply Permutation_app_comm.
  - apply filter_split.
Qed.

Lemma two_sink_order_contiguous ps j :
  Forall (fun p => binary_row (snd p)) ps -> j < 2 ->
  single_run (map (fun p : node * list Z => nth j (snd p) 0%Z) (two_sink_order ps)).
Proof.
  intros Hbin Hj. unfold two_sink_order.
  set (one0 := fun p : node * list Z => (nth 0 (snd p) 0 =? 1)%Z).
  set (one1 := fun p : node * list Z => (nth 1 (snd p) 0 =? 1)%Z).
  assert (Hval : forall k (p : node * list Z), In p ps ->
                   nth k (snd p) 0%Z = 0%Z \/ nth k (snd p) 0%Z = 1%Z).
  { intros k p Hp. pose proof (proj1 (Forall_forall _ _) Hbin _ Hp) as Hr.
    destruct (nth_in_or_default k (snd p) 0%Z) as [Hin| ->]; [|auto].
    apply (proj1 (Forall_forall _ _) Hr _ Hin). }
  assert (Hone : forall k (p : node * list Z),
             (nth k (snd p) 0 =? 1)%Z = true -> nth k (snd p) 0%Z = 1%Z)
    by (intros k p H; apply Z.eqb_eq, H).
  assert (Hzero : forall k (p : node * list Z), In p ps ->
             negb (nth k (snd p) 0 =? 1)%Z = true -> nth k (snd p) 0%Z = 0%Z).
  { intros k p Hp H. apply negb_true_iff, Z.eqb_neq in H.
    destruct (Hval k p Hp); [assumption | contradiction]. }
  rewrite !map_app.
  destruct j as [|[|j]]; [| |lia].
  - (* the first sink: ones, ones, zeros, zeros *)
    rewrite app_assoc, <- map_app, <- (map_app _ (filter one1 _)).
    exists 0, (0 + length (map (fun p : node * list Z => nth 0 (snd p) 0%Z)
                               (filter (fun p => negb (one1 p)) (filter one0 ps)
                                ++ filter one1 (filter one0 ps)))).
    apply (@run_at_segments [] _ _); [constructor| |].
    + apply Forall_forall. intros y Hy. apply in_map_iff in Hy.
      destruct Hy as (p & <- & Hp). apply in_app_or in Hp.
      destruct Hp as [Hp|Hp]; apply filter_In in Hp; destruct Hp as [Hp _];
        apply filter_In in Hp; apply Hone, Hp.
    + apply Forall_forall. intros y Hy. apply in_map_iff in Hy.
      destruct Hy as (p & <- & Hp). apply in_app_or in Hp.
      destruct Hp as [Hp|Hp]; apply filter_In in Hp; destruct Hp as [Hp _];
        apply filter_In in Hp; apply Hzero; tauto.
  - (* the second sink: zeros, ones, ones, zeros *)
    rewrite (app_assoc (map _ (filter one1 (filter one0 ps)))), <- map_app.
    eexists _, _. apply run_at_segments.
    + apply filter_Forall_map. intros p Hp Hf. apply filter_In in Hp.
      apply Hzero; [apply Hp | exact Hf].
    + apply Forall_forall. intros y Hy. apply in_map_iff in Hy.
      destruct Hy as (p & <- & Hp). apply in_app_or in Hp.
      destruct Hp as [Hp|Hp]; apply filter_In in Hp; apply Hone, Hp.
    + apply filter_Forall_map. intros p Hp Hf. apply filter_In in Hp.
      apply Hzero; [apply Hp | exact Hf].
Qed.

Lemma two_sinks_ordering h :
  table_set_up h -> plain (sources h) -> shape1 (connection_table h) <= 2 ->
  exists bs, ordering h bs /\ contiguous_columns (arranged_table h bs).
Proof.
  intros [Hb Hlen] Hplain Hw.
  set (ps := combine (sources h) (rows (connection_table h))).
  assert (Hrows : length (rows (connection_table h)) = length (sources h)).
  { unfold shape0 in Hlen. rewrite Hlen. rewrite (plain_flatten Hplain) at 2.
    rewrite length_map. reflexivity. }
  pose proof (two_sink_order_permutation ps) as Hperm.
  assert (Hpl : plain (map fst (two_sink_order ps))).
  { apply (Permutation_Forall (Permutation_map fst Hperm)). unfold ps.
    rewrite combine_map_fst by (symmetry; exact Hrows). exact Hplain. }
  exists (map (fun p => (fst p, [snd p])) (two_sink_order ps)). split.
  - unfold ordering. rewrite (@plain_blocks _ _ Hplain Hrows). fold ps.
    apply Permutation_map, Hperm.
  - intros j Hj. unfold arranged_table, column in *. cbn [rows shape1] in *.
    rewrite (proj2 (@plain_arranged _ Hpl)), map_map.
    apply two_sink_order_contiguous; [|lia].
    apply Forall_forall. intros [u r] Hin. cbn [snd]. unfold ps in Hin.
    apply in_combine_r in Hin.
    apply (proj1 (Forall_forall _ _) Hb r Hin).
Qed.

(** The hub on which [Hub.create] runs the solver when it ends with the
    layout error. *)
Lemma create_layout_error source_set sink_set lay connections :
  create source_set sink_set lay connections = Raise NetworkValidationError ->
  exists h1,
    Permutation (sources h1) source_set /\ Permutation (sinks h1) sink_set /\
    table_set_up h1 /\ shape1 (connection_table h1) = length (sinks h1) /\
    permute_rows h1 = Raise NetworkValidationError.
Proof.
  unfold create. intros H.
  destruct (map_result_outcome (source_btype lay) (flatten source_set)
              (source_btype_outcome lay)) as [E|(btypes & E)];
    rewrite E in H; cbn [bind] in H; [discriminate|].
  destruct btypes as [|b btypes]; [discriminate|].
  destruct (negb (min_eq_max (b :: btypes))); [discriminate|].
  destruct (map_result_outcome (source_context_size lay) (flatten source_set)
              (source_context_size_outcome lay)) as [Ec|(contexts & Ec)];
    rewrite Ec in H; cbn [bind] in H; [discriminate|].
  destruct (sorted_nodes source_set) as [srcs| |] eqn:Es; cbn [bind] in H;
    [|unfold sorted_nodes in Es; destruct (_ && _);
      [injection Es as <-; discriminate | discriminate]|discriminate].
  destruct (sorted_nodes sink_set) as [snks| |] eqn:Ek; cbn [bind] in H;
    [|unfold sorted_nodes in Ek; destruct (_ && _);
      [injection Ek as <-; discriminate | discriminate]|discriminate].
  unfold setup in H.
  set (h0 := Hub_init srcs snks b (fold_right Nat.max 0 contexts)) in H.
  destruct (set_up_connection_table_spec h0 connections)
    as (ct & Eset & Hb & H0 & H1 & _).
  rewrite Eset in H. cbn [bind] in H.
  set (h1 := mk_Hub (sources h0) (sinks h0) (btype h0) (context_size h0) ct
                    (sizes h0) (size h0)) in H.
  exists h1. split; [apply (sorted_nodes_permutation _ Es)|].
  split; [apply (sorted_nodes_permutation _ Ek)|].
  assert (Hset : table_set_up h1) by (split; assumption).
  split; [exact Hset|]. split; [exact H1|].
  pose proof (permute_rows_outcome Hset) as Hout.
  destruct (permute_rows h1) as [h2|e|]; [|destruct Hout as [-> _]; reflexivity
                                          |contradiction].
  cbn [bind] in H.
  destruct (map_result (source_size lay) (sources h2)) as [szs|e|] eqn:Ez;
    cbn [bind] in H; try discriminate.
  injection H as ->. destruct (map_result_raises _ _ Ez) as (u & _ & Hu).
  unfold source_size in Hu. destruct u as [s|g]; cbn [get_by_node] in Hu.
  - destruct (get_by_path_outcome s lay) as [Eg|(n & Eg)]; rewrite Eg in Hu;
      cbn [bind] in Hu; [discriminate|].
    destruct (layout_shape n); discriminate.
  - discriminate.
Qed.

(** A hub of plain endpoints with at most two sinks can always be laid
    out: [Hub.create] does not raise the layout error for it.  (The rows
    connected to the first sink only, to both sinks, to the second only
    and to none, in this order, make both columns contiguous, and the
    solver tries every order.) *)
Theorem create_lays_out_two_sinks
        (source_set sink_set : list node) (lay : layout)
        (connections : list (string * string)) :
  plain source_set -> length sink_set <= 2 ->
  create source_set sink_set lay connections <> Raise NetworkValidationError.
Proof.
  intros Hplain Hks Hc.
  destruct (create_layout_error _ _ _ _ Hc) as (h1 & Hs & Hk & Hset & Hw & Hp).
  destruct (@two_sinks_ordering h1 Hset) as (bs & Hord & Hcont).
  - apply (Permutation_Forall (Permutation_sym Hs)), Hplain.
  - rewrite Hw, (Permutation_length Hk). exact Hks.
  - pose proof (permute_rows_outcome Hset) as Hout. rewrite Hp in Hout.
    destruct Hout as [_ Hnone]. exact (Hnone bs Hord Hcont).
Qed.

Lemma create_lays_out_two_sinks_witness :
  create abc_sources xy_sinks abc_layout chain_connections
  <> Raise NetworkValidationError.
Proof.
  apply (@create_lays_out_two_sinks abc_sources xy_sinks abc_layout chain_connections).
  - exact abc_sources_plain.
  - simpl. lia.
Defined.

(** ** The entries of the stub *)

(** Looking up a key in a dictionary built by storing entries with
    distinct keys one after the other. *)
Lemma stored_entry_found {X : Type}
      (f : list (string * layout) -> X -> list (string * layout))
      (g : X -> string * layout) xs :
  (forall d x, f d x = dict_set (fst (g x)) (snd (g x)) d) ->
  NoDup (map (fun x => fst (g x)) xs) ->
  forall acc x, In x xs ->
                dict_get (fst (g x)) (fold_left f xs acc) = Some (snd (g x)).
Proof.
  intros Hf.
  assert (Hkeep : forall k ys acc,
             ~ In k (map (fun y => fst (g y)) ys) ->
             dict_get k (fold_left f ys acc) = dict_get k acc).
  { intros k ys. induction ys as [|y ys IH]; intros acc Hk; [reflexivity|].
    cbn [fold_left]. rewrite IH, Hf.
    - apply dict_get_set_other. intros E. apply Hk. left. symmetry. exact E.
    - intros Hin. apply Hk. right. exact Hin. }
  induction xs as [|y xs IH]; intros Hnd acc x; [intros []|].
  cbn [map] in Hnd. inversion Hnd as [|? ? Hy Hnd']; subst.
  intros [->|Hin]; cbn [fold_left].
  - rewrite Hkeep by exact Hy. rewrite Hf. apply dict_get_set_same.
  - apply (IH Hnd' _ _ Hin).
Qed.

Lemma enumerate_from_keys {A : Type} (key : A -> string) (l : list A) k :
  map (fun x : nat * A => key (snd x)) (enumerate_from k l) = map key l.
Proof.
  revert k; induction l as [|a l IH]; intros k; [reflexivity|].
  change (enumerate_from k (a :: l)) with ((k, a) :: enumerate_from (S k) l).
  cbn [map snd]. rewrite IH. reflexivity.
Qed.

(** The entry of the item at position [j] of an ordered structure. *)
Lemma array_dict_entry items j key t :
  NoDup (map fst items) -> nth_error items j = Some (key, t) ->
  dict_get key (array_dict items) = Some (convert_to_array_json t j).
Proof.
  intros Hnd Hj. unfold array_dict.
  apply (@stored_entry_found _
           (fun d '(i, (k, v)) => dict_set k (convert_to_array_json v i) d)
           (fun x : nat * (string * ShapeTemplate) =>
              (fst (snd x), convert_to_array_json (snd (snd x)) (fst x)))
           (enumerate_from 0 items)
           (fun d x => match x with (i, (k, v)) => eq_refl end)
           ltac:(rewrite (enumerate_from_keys (@fst string ShapeTemplate)); exact Hnd)
           [] (j, (key, t))).
  apply enumerate_from_In. rewrite Nat.sub_0_r. split; [lia | exact Hj].
Qed.

Lemma dict_get_drop_key {V : Type} key k (d : list (string * V)) :
  key <> k -> dict_get key (drop_key k d) = dict_get key d.
Proof.
  intros Hne. induction d as [|[k1 v1] d IH]; [reflexivity|].
  cbn [drop_key filter fst dict_get]. fold (drop_key k d).
  destruct (String.eqb_spec k1 k) as [->|Hk]; cbn [negb dict_get].
  - destruct (String.eqb_spec k key) as [E|_]; [congruence | exact IH].
  - rewrite IH. reflexivity.
Qed.

(** The four dictionaries of the stub of a layer. *)
Inductive section : Type := Inputs | Outputs | Parameters | Internals.

Definition section_name (sec : section) : string :=
  match sec with
  | Inputs => "inputs"
  | Outputs => "outputs"
  | Parameters => "parameters"
  | Internals => "internals"
  end.

(** The items of a section in the order in which the stub numbers them:
    inputs and outputs by name, parameters and internals as declared. *)
Definition section_items (sec : section) (layer : Layer) : list (string * ShapeTemplate) :=
  match sec with
  | Inputs => stable_sort (@key_leb _) (in_shapes layer)
  | Outputs => stable_sort (@key_leb _) (out_shapes layer)
  | Parameters => get_parameter_structure layer
  | Internals => get_internal_structure layer
  end.

(** The stub holds an array entry for every declared buffer: for layers
    with distinct names and a section with distinct names, none with a
    dot, the path layer.section.name of a buffer that is not called
    '@type' or '@index' (the attributes of the section overwrite a buffer
    of that name) resolves to the array entry of the buffer, with its shape
    template and its position in the section as index. *)
Theorem stub_holds_declared_buffers
        (layers : list (string * Layer)) (i : nat) (name : string) (layer : Layer)
        (sec : section) (j : nat) (key : string) (t : ShapeTemplate) :
  NoDup (map fst layers) ->
  nth_error layers i = Some (name, layer) ->
  NoDup (map fst (section_items sec layer)) ->
  nth_error (section_items sec layer) j = Some (key, t) ->
  no_dot name = true -> no_dot key = true ->
  key <> "@type"%string -> key <> "@index"%string ->
  get_by_path (name ++ "." ++ section_name sec ++ "." ++ key) (create_layout_stub layers)
  = Ok (convert_to_array_json t j).
Proof.
  intros Hnd Hi Hndsec Hj Hname Hkey Htype Hindex. unfold get_by_path.
  rewrite split_on_child by exact Hname.
  rewrite split_on_child by (destruct sec; reflexivity).
  rewrite split_on_no_dot by exact Hkey.
  unfold create_layout_stub, buffer_view. cbn [get_by_segments layout_children].
  rewrite (@stored_entry_found _
             (fun root '(i, (layer_name, layer)) =>
                dict_set layer_name (get_layout_stub_for_layer layer i) root)
             (fun x : nat * (string * Layer) =>
                (fst (snd x), get_layout_stub_for_layer (snd (snd x)) (fst x)))
             (enumerate_from 1 layers)
             (fun d x => match x with (i, (k, v)) => eq_refl end)
             ltac:(rewrite (enumerate_from_keys (@fst string Layer)); exact Hnd)
             _ (1 + i, (name, layer))).
  2: { apply enumerate_from_In. split; [lia|].
       replace (1 + i - 1) with i by lia. exact Hi. }
  cbn [of_option bind fst snd].
  unfold get_layout_stub_for_layer, section_view, buffer_view. cbn [layout_children].
  destruct sec; cbn [section_name section_items dict_get] in *;
    cbn [String.eqb Ascii.eqb Bool.eqb andb of_option bind layout_children];
    rewrite !dict_get_drop_key by assumption;
    rewrite (@array_dict_entry _ _ _ _ Hndsec Hj); reflexivity.
Qed.

Lemma stub_holds_declared_buffers_witness :
  get_by_path "fc1.parameters.b" (create_layout_stub demo_layers)
  = Ok (convert_to_array_json (template 0 3) 1).
Proof.
  apply (@stub_holds_declared_buffers
           demo_layers 1 "fc1"%string
           (mk_Layer [("default", template 1 4)] [("default", template 1 3)]
                     [("W", template 0 12); ("b", template 0 3)] []
                     [mk_Connection "fc1" "default" "fc2" "default"])%string
           Parameters 1 "b"%string (template 0 3)).
  - repeat constructor; simpl; intuition discriminate.
  - reflexivity.
  - repeat constructor; simpl; intuition discriminate.
  - reflexivity.
  - reflexivity.
  - reflexivity.
  - discriminate.
  - discriminate.
Defined.

(** ** The table and the slices of the sinks, as the code builds them *)

(** [set_up_connection_table] never raises.  It builds a 0/1 table with
    one row for every flat source and one column for every sink; the entry
    of row [i] and column [j] is 1 exactly when some connection
    [(start, stop)] has [start] among the elements of the source list
    (a member of a tuple of the list is no element of the list), [stop]
    among the sinks, and [i] and [j] are the first positions of [start]
    in the flat source list and of [stop] in the sink list. *)
Theorem connection_table_entries (h : Hub) (connections : list (string * string)) :
  exists ct,
    set_up_connection_table h connections
    = Ok (mk_Hub (sources h) (sinks h) (btype h) (context_size h) ct
                 (sizes h) (size h)) /\
    binary_table ct /\
    shape0 ct = length (flatten (sources h)) /\
    shape1 ct = length (sinks h) /\
    forall i j,
      entry ct i j = 1%Z <->
      exists start stop,
        In (start, stop) connections /\
        In (Leaf start) (sources h) /\ In (Leaf stop) (sinks h) /\
        index String.eqb start (flatten (sources h)) = Some i /\
        index node_eqb (Leaf stop) (sinks h) = Some j.
Proof.
  destruct (set_up_connection_table_spec h connections) as (ct & E & Hb & H0 & H1 & Hent).
  exists ct. repeat (split; [assumption|]).
  intros i j. rewrite Hent. unfold some_sets_entry, sets_entry. split.
  - intros ([start stop] & Hin & Hs & Hk & Hi & Hj). cbn [fst snd] in *.
    exists start, stop. rewrite <- !contains_In. auto.
  - intros (start & stop & Hin & Hs & Hk & Hi & Hj).
    exists (start, stop). cbn [fst snd]. rewrite !contains_In. auto.
Qed.

(** On a hub built by [Hub.create], the rows with a one in the column of
    a sink are consecutive, and when there is one the slice of the sink
    goes from the entry of the running sums at the first of these rows to
    the entry after the last; when the element counts are not negative and
    their sum is below 2^63, these are the offset of the first row and the
    offset after the last. *)
Theorem sink_slice_spans_connected_rows
        (source_set sink_set : list node) (lay : layout)
        (connections : list (string * string)) (hub : Hub) :
  create source_set sink_set lay connections = Ok hub ->
  forall j sink,
    nth_error (sinks hub) j = Some sink ->
    (exists i, entry (connection_table hub) i j = 1%Z) ->
    exists snk a b start stop,
      get_indices hub = Ok (source_indices hub ++ snk) /\
      nth_error snk j = Some (sink, (start, stop)) /\
      a < b <= length (sources hub) /\
      (forall i, i < length (sources hub) ->
                 (entry (connection_table hub) i j = 1%Z <-> a <= i < b)) /\
      start = nth a (np_cumsum (0%Z :: sizes hub)) 0%Z /\
      stop = nth b (np_cumsum (0%Z :: sizes hub)) 0%Z /\
      (fits_int64 (sizes hub) -> start = offset hub a /\ stop = offset hub b).
Proof.
  intros Hc j sink Hj Hone. destruct (create_inv _ _ _ _ Hc) as (h1 & C).
  destruct (created_get_indices C) as (snk & Es & Eg & _).
  destruct (sink_indices_nth _ _ Es Hj) as (s & Eslice & Hn).
  destruct (created_shape C) as (H0 & H1 & Hpos).
  destruct (created_ordering C) as (_ & _ & _ & _ & Hb & Hcont & _).
  assert (Hjlt : j < shape1 (connection_table hub))
    by (rewrite H1; apply (nth_error_Some_lt _ _ Hj)).
  assert (Hsz : length (sizes hub) = shape0 (connection_table hub))
    by (rewrite H0; apply (created_sizes C)).
  assert (Hl : length (np_cumsum (0%Z :: sizes hub))
               = S (shape0 (connection_table hub)))
    by (rewrite np_cumsum_length; simpl; lia).
  destruct (sink_slice_run_rows hub _ Hb Hcont Hjlt Hl Hone)
    as (a & b & Hab & Hbn & E & Hrun).
  rewrite E in Eslice.
  exists snk, a, b, (nth a (np_cumsum (0%Z :: sizes hub)) 0%Z),
         (nth b (np_cumsum (0%Z :: sizes hub)) 0%Z).
  split; [exact Eg|]. split; [congruence|]. rewrite <- H0.
  split; [lia|]. split; [exact Hrun|]. split; [reflexivity|]. split; [reflexivity|].
  intros Hf. split; apply nth_error_nth, idxs_nth; try exact Hf; lia.
Qed.

Lemma sink_slice_spans_connected_rows_witness :
  fits_int64 (sizes chain_created) /\
  exists snk a b start stop,
    get_indices chain_created = Ok (source_indices chain_created ++ snk) /\
    nth_error snk 1 = Some (Leaf "Y"%string, (start, stop)) /\
    a < b <= length (sources chain_created) /\
    (forall i, i < length (sources chain_created) ->
               (entry (connection_table chain_created) i 1 = 1%Z <-> a <= i < b)) /\
    start = offset chain_created a /\ stop = offset chain_created b.
Proof.
  split; [exact chain_created_fits|].
  destruct (@sink_slice_spans_connected_rows
              abc_sources xy_sinks abc_layout chain_connections chain_created
              eq_refl 1 (Leaf "Y"%string) eq_refl (ex_intro _ 1 eq_refl))
    as (snk & a & b & start & stop & Hg & Hn & Hab & Hrun & _ & _ & Hoff).
  exists snk, a, b, start, stop.
  split; [exact Hg|]. split; [exact Hn|]. split; [exact Hab|]. split; [exact Hrun|].
  exact (Hoff chain_created_fits).
Defined.

(** ** The layout that [create_layout] returns *)

Lemma dict_set_same_visit k v v' (children : list (string * layout)) :
  dict_get k children = Some v ->
  visit_child (k, v') = visit_child (k, v) ->
  map visit_child (dict_set k v' children) = map visit_child children.
Proof.
  intros Hget Hv. induction children as [|[k1 v1] d IH]; [discriminate|].
  cbn [dict_get dict_set] in *. destruct (String.eqb_spec k1 k) as [->|Hne].
  - injection Hget as ->. cbn [map]. rewrite Hv. reflexivity.
  - cbn [map]. rewrite (IH Hget). reflexivity.
Qed.

(** The layout returned by [create_layout] has the array nodes of the
    stub, and its entry 'parameters' carries a slice and, as shape, the
    length of that slice. *)
Theorem create_layout_shapes_parameters
        (set_order : list node -> list node) (layers : list (string * Layer))
        (hubs : list Hub) (lay : layout) :
  create_layout set_order layers = Ok (hubs, lay) ->
  gather_array_nodes lay = gather_array_nodes (create_layout_stub layers) /\
  exists n start stop,
    get_by_path "parameters" lay = Ok n /\
    layout_slice n = Some (start, stop) /\
    layout_shape n = Some (FlatShape (stop - start)).
Proof.
  unfold create_layout. intros H.
  destruct (get_forced_orders layers) as [fos| |]; try discriminate. cbn [bind] in H.
  destruct (get_all_sinks_and_sources _ _ _) as [[all_sinks all_sources]| |];
    try discriminate.
  cbn [bind] in H.
  destruct (group_into_hubs _ _ _ _ _) as [hubs0| |]; try discriminate.
  cbn [bind] in H.
  destruct (layout_hubs _ _) as [lay1| |] eqn:El; try discriminate. cbn [bind] in H.
  destruct lay1 as [t i s c sl h children].
  destruct (dict_get "parameters" children) as [parameters|] eqn:Ep; try discriminate.
  cbn [of_option bind] in H.
  destruct (layout_slice parameters) as [[start stop]|] eqn:Es; try discriminate.
  cbn [of_option bind] in H. injection H as _ <-.
  destruct parameters as [t' i' s' c' sl' h' ch']. cbn [layout_slice] in Es. subst sl'.
  split.
  - rewrite <- (gather_clear_slices (create_layout_stub layers)).
    rewrite <- (layout_hubs_clear _ _ El), gather_clear_slices.
    rewrite !gather_array_nodes_children. do 3 f_equal.
    apply (@dict_set_same_visit _ _ _ _ Ep). reflexivity.
  - exists (Node t' i' (Some (FlatShape (stop - start))) c' (Some (start, stop)) h' ch'),
           start, stop.
    split; [|split; reflexivity].
    unfold get_by_path.
    change (split_on "."%char "parameters") with ["parameters"%string].
    cbn [get_by_segments layout_children]. rewrite dict_get_set_same. reflexivity.
Qed.

Lemma create_layout_shapes_parameters_witness :
  gather_array_nodes (snd demo_result)
  = gather_array_nodes (create_layout_stub demo_layers) /\
  exists n start stop,
    get_by_path "parameters" (snd demo_result) = Ok n /\
    layout_slice n = Some (start, stop) /\
    layout_shape n = Some (FlatShape (stop - start)).
Proof.
  apply (@create_layout_shapes_parameters
           (fun l => l) demo_layers (fst demo_result) (snd demo_result)).
  exact demo_result_ok.
Defined.
